(** * RebarOpt: the splice planner and the cutting optimizer of [src/utils/solver.ts]

    A shallow embedding of the solver.  JavaScript numbers that hold lengths
    in millimetres are integers ([Z]); the few intermediate values that may
    be fractional (half a lap, the bounds and the middle of a splice zone,
    weights and percentages) are exact rationals ([Q]).  [Math.random] is a
    stream of rationals read through an explicit counter. *)

From Stdlib Require Import ZArith QArith Qround Lqa Ascii String.
From Stdlib Require Import DecimalString DecimalPos DecimalZ.
From stdpp Require Import base decidable option list sorting gmap strings.

Local Open Scope Z_scope.

(** ** Numbers and strings *)

(** Template literals print an integer in decimal. *)
Definition string_of_Z (z : Z) : string := NilZero.string_of_int (Z.to_int z).

Definition Qltb (a b : Q) : bool := negb (Qle_bool b a).

(** [Math.round]: the nearest integer, halves go up. *)
Definition Math_round (q : Q) : Z := Qfloor (q + (1 # 2))%Q.

(** [Math.floor(x / step) * step] for an integer [step] of at least 1, as the
    data model of the specification has it.  For [step = 0] the source
    computes [NaN], which is no number of this model: the theorems that
    depend on which length is cut assume [1 <= step]. *)
Definition floorToStep (x : Q) (step : Z) : Z :=
  Qfloor (x / inject_Z step)%Q * step.

(** ** Data model ([src/types.ts]) *)

Inductive MemberType := COLUMN | BEAM | SLAB | WALL | OTHER_MEMBER.

Inductive LapCase :=
  COLUMN_VERTICAL | BEAM_TOP | BEAM_BOTTOM | SLAB_TOP | SLAB_BOTTOM | OTHER.

Global Instance LapCase_eq_dec : EqDecision LapCase.
Proof. solve_decision. Defined.

Inductive OptimizationLevel := FAST | BALANCED | DEEP.
Inductive InventoryStrategy := SEQUENTIAL | MIXED.
Inductive SourceType := NEW_STOCK | EXISTING_INVENTORY.

Global Instance SourceType_eq_dec : EqDecision SourceType.
Proof. solve_decision. Defined.

Record ProjectSettings := {
  projectName : string;
  roundingStepMm : Z;
  kerfMm : Z;
  minLeftoverMm : Z;
  allowOffcuts : bool;
  beamDepthMm : Z;
  optimizationLevel : OptimizationLevel;
  inventoryStrategy : InventoryStrategy
}.

Record StockCatalogItem := { sc_dia : Z; stockLengths : list Z }.

Record OffcutInventoryItem := {
  inv_id : string; inv_dia : Z; inv_lengthMm : Z; quantity : Z
}.

Record LapRule := { lr_dia : Z; lr_lapCase : LapCase; lr_lengthMm : Z }.

Record SpliceZone := { startMm : Q; endMm : Q }.

Record BarRun := {
  run_id : string;
  barMark : string;
  memberType : MemberType;
  run_dia : Z;
  qtyParallel : Z;
  totalLengthMm : Z;
  lapCase : LapCase;
  geometryInput : string;
  allowedZones : list SpliceZone
}.

Record DirectPiece := {
  dp_id : string; dp_barMark : string; dp_dia : Z; dp_lengthMm : Z; dp_qty : Z
}.

Record Piece := { lengthMm : Z; p_startMm : Z; p_endMm : Z }.

Record SplicePlanItem := {
  runId : string; sp_barMark : string; groupId : Z; pieces : list Piece
}.

Record CuttingPlanItem := {
  cp_dia : Z;
  cp_stockLength : Z;
  count : nat;
  cp_cuts : list Z;
  waste : Z;
  offcut : Z;
  sourceType : SourceType
}.

Record ProcurementItem := {
  pr_dia : Z; pr_stockLength : Z; pr_quantity : nat; totalLength : Z
}.

(** The solver throws [Error] objects; these are the three it can throw. *)
Inductive SolverError :=
  | ErrEmptyCatalog
  | ErrLapGeMaxStock (lap maxStock dia : Z)
  | ErrDegenerateCut (mark : string) (cutLen lap : Z).

Inductive result (A : Type) :=
  | Ok (a : A)
  | Err (e : SolverError).
Arguments Ok {A} a.
Arguments Err {A} e.

(** ** Helpers *)

Definition getLapLength (dia : Z) (lc : LapCase) (rules : list LapRule) : Z :=
  match find (fun r => (lr_dia r =? dia) && bool_decide (lr_lapCase r = lc)) rules with
  | Some rule => lr_lengthMm rule
  | None => 50 * dia
  end.

(** A stable insertion sort, as [Array.prototype.sort] is: [before a b] says
    that [a] may stay in front of [b]. *)
Section StableSort.
Context {A : Type} (before : A -> A -> bool).

Fixpoint insertStable (x : A) (l : list A) : list A :=
  match l with
  | [] => [x]
  | y :: l' => if before x y then x :: y :: l' else y :: insertStable x l'
  end.

Definition sortStable (l : list A) : list A := foldr insertStable [] l.
End StableSort.

(** [sort((a, b) => b - a)] and [sort((a, b) => a - b)] on numbers. *)
Definition sortDesc : list Z -> list Z := sortStable (fun a b => b <=? a).
Definition sortAsc : list Z -> list Z := sortStable (fun a b => a <=? b).

Definition getStockOptions (dia : Z) (catalog : list StockCatalogItem) : list Z :=
  match find (fun i => sc_dia i =? dia) catalog with
  | None => [12000]
  | Some item =>
      match stockLengths item with
      | [] => [12000]
      | _ => sortDesc (stockLengths item)
      end
  end.

(** ** Phase 1: splice planning *)

Definition zoneContains (c : Q) (z : SpliceZone) : bool :=
  Qle_bool (startMm z) c && Qle_bool c (endMm z).

(** [validZones.reduce((prev, curr) => curr.endMm > prev.endMm ? curr : prev)] *)
Definition furthestZone (validZones : list SpliceZone) : option SpliceZone :=
  match validZones with
  | [] => None
  | z :: zs =>
      Some (fold_left (fun prev curr => if Qltb (endMm prev) (endMm curr) then curr else prev) zs z)
  end.

Definition pickZone (zones : list SpliceZone) (spliceCenterTarget : Q)
    (currentAbsPos effectiveStock : Z) : option SpliceZone :=
  match find (zoneContains spliceCenterTarget) zones with
  | Some z => Some z
  | None =>
      furthestZone
        (filter (fun z => Qltb (endMm z) (inject_Z (currentAbsPos + effectiveStock)) = true) zones)
  end.

(** The cut length proposed for a piece that is not the last one, before
    rounding, with the violation flag. *)
Definition proposeCut (zones : list SpliceZone) (lap effectiveStock currentAbsPos : Z)
    : Q * bool :=
  let half := (inject_Z lap / 2)%Q in
  let spliceCenterTarget := (inject_Z currentAbsPos + inject_Z effectiveStock - half)%Q in
  match pickZone zones spliceCenterTarget currentAbsPos effectiveStock with
  | Some bestZone =>
      let zoneMid := ((startMm bestZone + endMm bestZone) / 2)%Q in
      let c1 :=
        if Qltb 1000 (endMm bestZone - startMm bestZone)%Q
        then (endMm bestZone - half - 100)%Q else zoneMid in
      let c2 :=
        if Qltb (inject_Z effectiveStock) (c1 + half - inject_Z currentAbsPos)%Q
        then (inject_Z currentAbsPos + inject_Z effectiveStock - half)%Q else c1 in
      ((c2 + half - inject_Z currentAbsPos)%Q, false)
  | None => (inject_Z effectiveStock, true)
  end.

Definition roundCut (actualCutLen : Q) (step : Z) : Z :=
  let r := floorToStep actualCutLen step in
  if r <? 1000 then 1000 else r.

Definition warningText (mark : string) (spliceLoc : Q) (effectiveStock : Z) : string :=
  ("STRUCTURAL WARNING [" +:+ mark +:+ "]: Forced splice at "
     +:+ string_of_Z (Math_round spliceLoc)
     +:+ "mm. No allowed zone was reachable with stock length "
     +:+ string_of_Z effectiveStock +:+ "mm.")%string.

Record LoopState := {
  groupPieces : list Piece;
  currentAbsPos : Z;
  remainingTotal : Z;
  warnings : list string
}.

Inductive LoopOutcome :=
  | Finished (st : LoopState)
  | Thrown (e : SolverError)
  | OutOfFuel.

(** The [while (remainingTotal > 0)] loop of one run. *)
Fixpoint spliceLoop (fuel : nat) (run : BarRun) (lap effectiveStock step : Z)
    (st : LoopState) : LoopOutcome :=
  if remainingTotal st >? 0 then
    match fuel with
    | O => OutOfFuel
    | S fuel' =>
        let targetLength := effectiveStock in
        if remainingTotal st <=? targetLength then
          let p := {| lengthMm := remainingTotal st;
                      p_startMm := currentAbsPos st;
                      p_endMm := currentAbsPos st + remainingTotal st |} in
          (* remainingTotal = 0; currentAbsPos += remainingTotal *)
          spliceLoop fuel' run lap effectiveStock step
            {| groupPieces := groupPieces st ++ [p];
               currentAbsPos := currentAbsPos st + 0;
               remainingTotal := 0;
               warnings := warnings st |}
        else
          let '(cut, violation) :=
            proposeCut (allowedZones run) lap effectiveStock (currentAbsPos st) in
          let actualCutLen := roundCut cut step in
          let warnings' :=
            if violation then
              let spliceLoc :=
                (inject_Z (currentAbsPos st) + inject_Z actualCutLen - inject_Z lap / 2)%Q in
              warnings st ++ [warningText (barMark run) spliceLoc effectiveStock]
            else warnings st in
          let p := {| lengthMm := actualCutLen;
                      p_startMm := currentAbsPos st;
                      p_endMm := currentAbsPos st + actualCutLen |} in
          let advanceBy := actualCutLen - lap in
          if advanceBy <=? 0 then Thrown (ErrDegenerateCut (barMark run) actualCutLen lap)
          else
            spliceLoop fuel' run lap effectiveStock step
              {| groupPieces := groupPieces st ++ [p];
                 currentAbsPos := currentAbsPos st + advanceBy;
                 remainingTotal := remainingTotal st - advanceBy;
                 warnings := warnings' |}
    end
  else Finished st.

Definition maxStockOf (dia : Z) (catalog : list StockCatalogItem) : Z :=
  hd 0 (getStockOptions dia catalog).

(** Every pass of the loop either finishes the run or advances by at least
    one millimetre, so [totalLengthMm] passes (and one more) are enough. *)
Definition loopFuel (run : BarRun) : nat := S (Z.to_nat (totalLengthMm run)).

(** The body of [runs.forEach] for one run: the pieces of the run and the
    warnings it adds. *)
Definition planRun (run : BarRun) (rules : list LapRule) (catalog : list StockCatalogItem)
    (settings : ProjectSettings) (warnings0 : list string) : LoopOutcome :=
  let lap := getLapLength (run_dia run) (lapCase run) rules in
  let maxStock := maxStockOf (run_dia run) catalog in
  if maxStock <=? lap then Thrown (ErrLapGeMaxStock lap maxStock (run_dia run))
  else
    spliceLoop (loopFuel run) run lap maxStock (roundingStepMm settings)
      {| groupPieces := []; currentAbsPos := 0;
         remainingTotal := totalLengthMm run; warnings := warnings0 |}.

Record SplicePlan := { plan : list SplicePlanItem; sp_warnings : list string }.

Fixpoint generateSplicePlanFrom (runs : list BarRun) (rules : list LapRule)
    (catalog : list StockCatalogItem) (settings : ProjectSettings)
    (acc : SplicePlan) : option (result SplicePlan) :=
  match runs with
  | [] => Some (Ok acc)
  | run :: runs' =>
      match planRun run rules catalog settings (sp_warnings acc) with
      | OutOfFuel => None
      | Thrown e => Some (Err e)
      | Finished st =>
          generateSplicePlanFrom runs' rules catalog settings
            {| plan := plan acc ++
                 [{| runId := run_id run; sp_barMark := barMark run;
                     groupId := 0; pieces := groupPieces st |}];
               sp_warnings := warnings st |}
      end
  end.

Definition generateSplicePlan (runs : list BarRun) (rules : list LapRule)
    (catalog : list StockCatalogItem) (settings : ProjectSettings)
    : option (result SplicePlan) :=
  generateSplicePlanFrom runs rules catalog settings {| plan := []; sp_warnings := [] |}.

(** ** Phase 2: cutting optimization *)

Record CutReq := { cr_dia : Z; len : Z; source : string; cr_id : string }.

Record Bin := {
  stockLength : Z;
  remaining : Z;
  cuts : list Z;
  isInventory : bool
}.

Record AvailableStockOption := {
  opt_len : Z;
  opt_isInventory : bool;
  opt_id : option string
}.

(** Truthiness of the optional [id]: present and not the empty string. *)
Definition truthyId (o : option string) : option string :=
  match o with
  | Some s => if bool_decide (s = ""%string) then None else Some s
  | None => None
  end.

(** The best-fit scan over the open bins.  The accumulator is the pair
    ([bestBinIndex], [minRem]); [None] stands for ([-1], [Number.MAX_VALUE]). *)
Fixpoint bestFitBin (i : nat) (bins : list Bin) (needed : Z) (best : option (nat * Z))
    : option (nat * Z) :=
  match bins with
  | [] => best
  | b :: bins' =>
      let rem := remaining b - needed in
      let better :=
        (0 <=? rem) && match best with None => true | Some (_, minRem) => rem <? minRem end in
      bestFitBin (S i) bins' needed (if better then Some (i, rem) else best)
  end.

(** [bins[i].remaining -= needed; bins[i].cuts.push(len)] *)
Definition addCut (needed l : Z) (b : Bin) : Bin :=
  {| stockLength := stockLength b;
     remaining := remaining b - needed;
     cuts := cuts b ++ [l];
     isInventory := isInventory b |}.

Definition skipUsed (usedInventoryIds : gset string) (opt : AvailableStockOption) : bool :=
  opt_isInventory opt &&
  match truthyId (opt_id opt) with
  | Some s => bool_decide (s ∈ usedInventoryIds)
  | None => false
  end.

(** The best-fit scan over the supply options; the accumulator is
    ([bestStockOpt], [bestStockRem]), [None] for ([null], [Number.MAX_VALUE]). *)
Fixpoint bestFitOption (opts : list AvailableStockOption) (usedInventoryIds : gset string)
    (needed : Z) (best : option (AvailableStockOption * Z))
    : option (AvailableStockOption * Z) :=
  match opts with
  | [] => best
  | opt :: opts' =>
      if skipUsed usedInventoryIds opt
      then bestFitOption opts' usedInventoryIds needed best
      else
        let potentialRem := opt_len opt - needed in
        let better :=
          (0 <=? potentialRem) &&
          match best with None => true | Some (_, bestStockRem) => potentialRem <? bestStockRem end in
        bestFitOption opts' usedInventoryIds needed
          (if better then Some (opt, potentialRem) else best)
  end.

(** [stockOptions.filter(o => !o.isInventory).sort((a, b) => b.len - a.len)[0]] *)
Definition largestNewStock (stockOptions : list AvailableStockOption)
    : option AvailableStockOption :=
  head (sortStable (fun a b => opt_len b <=? opt_len a)
          (filter (fun o => opt_isInventory o = false) stockOptions)).

Definition chooseStock (stockOptions : list AvailableStockOption)
    (usedInventoryIds : gset string) (needed : Z) : option AvailableStockOption :=
  match bestFitOption stockOptions usedInventoryIds needed None with
  | Some (opt, _) => Some opt
  | None => largestNewStock stockOptions
  end.

Definition markUsed (opt : AvailableStockOption) (usedInventoryIds : gset string)
    : gset string :=
  if opt_isInventory opt then
    match truthyId (opt_id opt) with
    | Some s => {[ s ]} ∪ usedInventoryIds
    | None => usedInventoryIds
    end
  else usedInventoryIds.

Record PackState := { ps_bins : list Bin; ps_used : gset string }.

(** The body of [for (const req of requests)]. *)
Definition packStep (stockOptions : list AvailableStockOption) (kerf : Z)
    (st : PackState) (req : CutReq) : PackState :=
  let needed := len req + kerf in
  match bestFitBin 0 (ps_bins st) needed None with
  | Some (bestBinIndex, _) =>
      {| ps_bins := alter (addCut needed (len req)) bestBinIndex (ps_bins st);
         ps_used := ps_used st |}
  | None =>
      match chooseStock stockOptions (ps_used st) needed with
      | Some bestStockOpt =>
          {| ps_bins := ps_bins st ++
               [{| stockLength := opt_len bestStockOpt;
                   remaining := opt_len bestStockOpt - needed;
                   cuts := [len req];
                   isInventory := opt_isInventory bestStockOpt |}];
             ps_used := markUsed bestStockOpt (ps_used st) |}
      | None => st
      end
  end.

Record PackResult := {
  bins : list Bin;
  stockCount : nat;
  usedInventoryIds : gset string
}.

Definition packingPass (requests : list CutReq) (stockOptions : list AvailableStockOption)
    (kerf : Z) : PackResult :=
  let st := fold_left (packStep stockOptions kerf) requests
              {| ps_bins := []; ps_used := ∅ |} in
  {| bins := ps_bins st; stockCount := length (ps_bins st); usedInventoryIds := ps_used st |}.

(** *** Sequential inventory consumption *)

Record Offcut := { oc_len : Z; oc_id : string }.

Definition unitId (id : string) (i : nat) : string :=
  (id +:+ "-" +:+ string_of_Z (Z.of_nat i))%string.

(** The [quantity] units of one inventory line, numbered from 0. *)
Definition unitsOf (inv : OffcutInventoryItem) : list Offcut :=
  map (fun i => {| oc_len := inv_lengthMm inv; oc_id := unitId (inv_id inv) i |})
      (seq 0 (Z.to_nat (quantity inv))).

Definition flattenInventory (inventory : list OffcutInventoryItem) : list Offcut :=
  flat_map unitsOf inventory.

(** The scan over the unused offcuts; [None] for ([-1], [Number.MAX_VALUE]). *)
Fixpoint bestFitOffcut (i : nat) (offcuts : list Offcut) (usedOffcutIndices : gset nat)
    (needed : Z) (best : option (nat * Z)) : option (nat * Z) :=
  match offcuts with
  | [] => best
  | o :: offcuts' =>
      if bool_decide (i ∈ usedOffcutIndices)
      then bestFitOffcut (S i) offcuts' usedOffcutIndices needed best
      else
        let rem := oc_len o - needed in
        let better :=
          (0 <=? rem) && match best with None => true | Some (_, minRem) => rem <? minRem end in
        bestFitOffcut (S i) offcuts' usedOffcutIndices needed
          (if better then Some (i, rem) else best)
  end.

Record SeqState := {
  inventoryBins : list Bin;
  remainingRequests : list CutReq;
  usedOffcutIndices : gset nat
}.

Definition seqStep (availableOffcuts : list Offcut) (kerf : Z)
    (st : SeqState) (req : CutReq) : SeqState :=
  let needed := len req + kerf in
  match bestFitBin 0 (inventoryBins st) needed None with
  | Some (bestBinIdx, _) =>
      {| inventoryBins := alter (addCut needed (len req)) bestBinIdx (inventoryBins st);
         remainingRequests := remainingRequests st;
         usedOffcutIndices := usedOffcutIndices st |}
  | None =>
      match bestFitOffcut 0 availableOffcuts (usedOffcutIndices st) needed None with
      | Some (bestOffcutIndex, minRem) =>
          {| inventoryBins := inventoryBins st ++
               [{| stockLength := default 0 (oc_len <$> availableOffcuts !! bestOffcutIndex);
                   remaining := minRem;
                   cuts := [len req];
                   isInventory := true |}];
             remainingRequests := remainingRequests st;
             usedOffcutIndices := {[ bestOffcutIndex ]} ∪ usedOffcutIndices st |}
      | None =>
          {| inventoryBins := inventoryBins st;
             remainingRequests := remainingRequests st ++ [req];
             usedOffcutIndices := usedOffcutIndices st |}
      end
  end.

Definition sortRequestsDesc : list CutReq -> list CutReq :=
  sortStable (fun a b => len b <=? len a).

Definition consumeInventorySequential (requests : list CutReq)
    (inventory : list OffcutInventoryItem) (settings : ProjectSettings)
    : list Bin * list CutReq :=
  let availableOffcuts :=
    sortStable (fun a b => oc_len a <=? oc_len b) (flattenInventory inventory) in
  let sortedRequests := sortRequestsDesc requests in
  let st := fold_left (seqStep availableOffcuts (kerfMm settings)) sortedRequests
              {| inventoryBins := []; remainingRequests := []; usedOffcutIndices := ∅ |} in
  (inventoryBins st, remainingRequests st).

(** *** Monte Carlo driver *)

Section MonteCarlo.
(** [random n] is the value of the [n]-th call of [Math.random()]. *)
Variable random : nat -> Q.

(** [[s[k], s[j]] = [s[j], s[k]]] *)
Definition swap {A} (s : list A) (k j : nat) : list A :=
  match s !! k, s !! j with
  | Some sk, Some sj => <[j := sk]> (<[k := sj]> s)
  | _, _ => s
  end.

(** Fisher-Yates, for [k] from the given index down to 1; the second
    component counts the calls of [Math.random()]. *)
Fixpoint fisherYates {A} (k : nat) (s : list A) (n : nat) : list A * nat :=
  match k with
  | O => (s, n)
  | S k' =>
      let j := Z.to_nat (Qfloor (random n * inject_Z (Z.of_nat k + 1))%Q) in
      fisherYates k' (swap s k j) (S n)
  end.

Definition shuffle {A} (l : list A) (n : nat) : list A * nat :=
  fisherYates (length l - 1) l n.

Definition iterationsOf (level : OptimizationLevel) : nat :=
  match level with
  | FAST => 1
  | BALANCED => 50
  | DEEP => 200
  end%nat.

(** [bins.reduce((sum, b) => sum + b.remaining, 0)] *)
Definition wasteOf (bs : list Bin) : Z :=
  fold_left (fun sum b => sum + remaining b) bs 0.

Record McState := { bestBins : list Bin; minWaste : Z; calls : nat }.

(** The [for (let i = 0; i < iterations; i++)] loop. *)
Fixpoint mcLoop (iterations : nat) (requests : list CutReq)
    (stockOptions : list AvailableStockOption) (kerf : Z) (st : McState) : McState :=
  match iterations with
  | O => st
  | S iterations' =>
      let '(shuffled, n') := shuffle requests (calls st) in
      let res := packingPass shuffled stockOptions kerf in
      let w := wasteOf (bins res) in
      mcLoop iterations' requests stockOptions kerf
        (if w <? minWaste st
         then {| bestBins := bins res; minWaste := w; calls := n' |}
         else {| bestBins := bestBins st; minWaste := minWaste st; calls := n' |})
  end.

Definition performMonteCarlo (requests : list CutReq)
    (stockOptions : list AvailableStockOption) (settings : ProjectSettings)
    (n : nat) : list Bin * nat :=
  let iterations := iterationsOf (optimizationLevel settings) in
  let sortedReqs := sortRequestsDesc requests in
  let initialRes := packingPass sortedReqs stockOptions (kerfMm settings) in
  let initialWaste := wasteOf (bins initialRes) in
  let st := mcLoop iterations requests stockOptions (kerfMm settings)
              {| bestBins := bins initialRes; minWaste := initialWaste; calls := n |} in
  (bestBins st, calls st).

Definition newStockOption (s : Z) : AvailableStockOption :=
  {| opt_len := s; opt_isInventory := false; opt_id := None |}.

Definition inventoryOption (o : Offcut) : AvailableStockOption :=
  {| opt_len := oc_len o; opt_isInventory := true; opt_id := Some (oc_id o) |}.

Definition optimizeDiaGroup (requests : list CutReq) (stockOptions : list Z)
    (settings : ProjectSettings) (inventory : list OffcutInventoryItem)
    (n : nat) : list Bin * nat :=
  match inventoryStrategy settings with
  | SEQUENTIAL =>
      let '(invBins, remainingReqs) :=
        consumeInventorySequential requests inventory settings in
      match remainingReqs with
      | [] => (invBins, n)
      | _ =>
          let newStockOpts := map newStockOption stockOptions in
          let '(resBins, n') := performMonteCarlo remainingReqs newStockOpts settings n in
          (invBins ++ resBins, n')
      end
  | MIXED =>
      let combinedOptions :=
        map newStockOption stockOptions ++
        map inventoryOption (flattenInventory inventory) in
      performMonteCarlo requests combinedOptions settings n
  end.
End MonteCarlo.

(** *** Request flattening and aggregation *)

Definition replicateReq (count : Z) (mk : nat -> CutReq) : list CutReq :=
  map mk (seq 0 (Z.to_nat count)).

Definition requestsOfPlanItem (runs : list BarRun) (sp : SplicePlanItem) : list CutReq :=
  match find (fun r => bool_decide (run_id r = runId sp)) runs with
  | None => []
  | Some run =>
      let countForThisGroup := qtyParallel run in
      if 0 <? countForThisGroup then
        concat (imap (fun idx p =>
          replicateReq countForThisGroup (fun i =>
            {| cr_dia := run_dia run;
               len := lengthMm p;
               source := barMark run;
               cr_id := (runId sp +:+ "-G" +:+ string_of_Z (groupId sp) +:+ "-P"
                          +:+ string_of_Z (Z.of_nat idx) +:+ "-"
                          +:+ string_of_Z (Z.of_nat i))%string |}))
          (pieces sp))
      else []
  end.

Definition requestsOfDirect (idx : nat) (dp : DirectPiece) : list CutReq :=
  replicateReq (dp_qty dp) (fun i =>
    {| cr_dia := dp_dia dp;
       len := dp_lengthMm dp;
       source := dp_barMark dp;
       cr_id := ("D" +:+ string_of_Z (Z.of_nat idx) +:+ "-"
                  +:+ string_of_Z (Z.of_nat i))%string |}).

Definition flattenRequests (splicePlan : list SplicePlanItem)
    (directPieces : list DirectPiece) (runs : list BarRun) : list CutReq :=
  flat_map (requestsOfPlanItem runs) splicePlan ++ concat (imap requestsOfDirect directPieces).

(** [Array.from(new Set(allRequests.map(r => r.dia))).sort((a, b) => a - b)]:
    the distinct diameters in ascending order (the order in which the set
    lists them is lost in the sort). *)
Definition uniqueDias (allRequests : list CutReq) : list Z :=
  sortAsc (remove_dups (map cr_dia allRequests)).

Record Pattern := {
  pt_count : nat;
  pt_cuts : list Z;
  pt_remaining : Z;
  pt_stock : Z;
  pt_isInventory : bool
}.

Fixpoint joinWith (sep : string) (l : list string) : string :=
  match l with
  | [] => ""
  | [s] => s
  | s :: l' => s +:+ sep +:+ joinWith sep l'
  end.

Definition patternKey (b : Bin) : string :=
  ((if isInventory b then "INV" else "NEW") +:+ "|" +:+ string_of_Z (stockLength b)
     +:+ "|" +:+ joinWith "-" (map string_of_Z (sortDesc (cuts b))))%string.

(** A [Map] in insertion order: [set] on a present key keeps its place. *)
Fixpoint mapUpsert {K V} `{EqDecision K} (k : K) (fresh : V) (upd : V -> V)
    (m : list (K * V)) : list (K * V) :=
  match m with
  | [] => [(k, fresh)]
  | (k', v) :: m' =>
      if decide (k' = k) then (k', upd v) :: m'
      else (k', v) :: mapUpsert k fresh upd m'
  end.

Definition bumpCount (p : Pattern) : Pattern :=
  {| pt_count := S (pt_count p); pt_cuts := pt_cuts p; pt_remaining := pt_remaining p;
     pt_stock := pt_stock p; pt_isInventory := pt_isInventory p |}.

Definition patternOfBin (b : Bin) : Pattern :=
  {| pt_count := 1;
     pt_cuts := sortDesc (cuts b);
     pt_remaining := Z.max 0 (remaining b);
     pt_stock := stockLength b;
     pt_isInventory := isInventory b |}.

Definition patternMapOf (bs : list Bin) : list (string * Pattern) :=
  fold_left (fun m b => mapUpsert (patternKey b) (patternOfBin b) bumpCount m) bs [].

Definition planItemOf (dia : Z) (settings : ProjectSettings) (val : Pattern)
    : CuttingPlanItem :=
  let isOffcut := minLeftoverMm settings <=? pt_remaining val in
  {| cp_dia := dia;
     cp_stockLength := pt_stock val;
     count := pt_count val;
     cp_cuts := pt_cuts val;
     waste := if isOffcut then 0 else pt_remaining val;
     offcut := if isOffcut then pt_remaining val else 0;
     sourceType := if pt_isInventory val then EXISTING_INVENTORY else NEW_STOCK |}.

Definition planItemsOf (dia : Z) (settings : ProjectSettings) (bs : list Bin)
    : list CuttingPlanItem :=
  map (fun kv => planItemOf dia settings (snd kv)) (patternMapOf bs).

Definition stockLenGroupsOf (bs : list Bin) : list (Z * nat) :=
  fold_left (fun m b =>
    if isInventory b then m else mapUpsert (stockLength b) 1%nat S m) bs [].

Definition procurementOf (dia : Z) (bs : list Bin) : list ProcurementItem :=
  map (fun '(l, qty) =>
         {| pr_dia := dia; pr_stockLength := l; pr_quantity := qty;
            totalLength := Z.of_nat qty * l |})
      (stockLenGroupsOf bs).

(** A division whose divisor is zero gives [Infinity] or [NaN] in the
    source, which is no number of the model. *)
Definition jsDiv (a b : Z) : option Q :=
  if b =? 0 then None else Some (inject_Z a / inject_Z b)%Q.

Record Totals := {
  cuttingPlan : list CuttingPlanItem;
  procurement : list ProcurementItem;
  globalTotalInputLength : Z;
  globalTotalPartsLength : Z;
  globalTotalWeight : Q;
  rngCalls : nat
}.

Definition binWeight (dia : Z) (b : Bin) : Q :=
  ((inject_Z (dia * dia) / 162) * (inject_Z (stockLength b) / 1000))%Q.

Section Cutting.
Variable random : nat -> Q.

(** The body of [uniqueDias.forEach]. *)
Definition diaStep (allRequests : list CutReq) (catalog : list StockCatalogItem)
    (settings : ProjectSettings) (inventory : list OffcutInventoryItem)
    (acc : Totals) (dia : Z) : Totals :=
  let stockOptions := getStockOptions dia catalog in
  let requests := filter (fun r => cr_dia r = dia) allRequests in
  let relevantInventory := filter (fun i => inv_dia i = dia) inventory in
  let '(bs, n') :=
    optimizeDiaGroup random requests stockOptions settings relevantInventory (rngCalls acc) in
  {| cuttingPlan := cuttingPlan acc ++ planItemsOf dia settings bs;
     procurement := procurement acc ++ procurementOf dia bs;
     globalTotalInputLength :=
       fold_left (fun s b => s + stockLength b) bs (globalTotalInputLength acc);
     globalTotalPartsLength :=
       fold_left (fun s b => fold_left Z.add (cuts b) s) bs (globalTotalPartsLength acc);
     globalTotalWeight :=
       fold_left (fun s b => (s + binWeight dia b)%Q) bs (globalTotalWeight acc);
     rngCalls := n' |}.

Record CuttingResult := {
  cr_totals : Totals;
  totalUsedWeight : Q;
  totalWaste : Z;
  wastePercent : option Q
}.

Definition percentOf (totalWaste globalTotalInputLength : Z) : option Q :=
  if 0 <? globalTotalInputLength
  then (fun q => q * 100)%Q <$> jsDiv totalWaste globalTotalInputLength
  else Some 0%Q.

Definition optimizeCutting (splicePlan : list SplicePlanItem)
    (directPieces : list DirectPiece) (runs : list BarRun)
    (catalog : list StockCatalogItem) (settings : ProjectSettings)
    (inventory : list OffcutInventoryItem) (n : nat) : CuttingResult :=
  let allRequests := flattenRequests splicePlan directPieces runs in
  let t := fold_left (diaStep allRequests catalog settings inventory)
             (uniqueDias allRequests)
             {| cuttingPlan := []; procurement := [];
                globalTotalInputLength := 0; globalTotalPartsLength := 0;
                globalTotalWeight := 0; rngCalls := n |} in
  let totalWaste := globalTotalInputLength t - globalTotalPartsLength t in
  {| cr_totals := t;
     totalUsedWeight := globalTotalWeight t;
     totalWaste := totalWaste;
     wastePercent := percentOf totalWaste (globalTotalInputLength t) |}.

Record Summary := {
  totalWeight : Q;
  sm_totalWaste : Z;
  sm_wastePercent : option Q
}.

Record OptimizationResult := {
  or_splicePlan : list SplicePlanItem;
  or_cuttingPlan : list CuttingPlanItem;
  or_procurement : list ProcurementItem;
  summary : Summary;
  or_warnings : list string
}.

(** [Math.round(x * 100) / 100], taken exactly.  The source rounds the
    double that is nearest to [x * 100], which can fall on the other side of
    a half: nothing is proved about the digits of a rounded value other
    than 0. *)
Definition round2 (x : Q) : Q := (inject_Z (Math_round (x * 100)) / 100)%Q.

(** [runSolver]; [None] only if the splice loop ran out of fuel. *)
Definition runSolver (runs : list BarRun) (directPieces : list DirectPiece)
    (settings : ProjectSettings) (stock : list StockCatalogItem)
    (laps : list LapRule) (inventory : list OffcutInventoryItem) (n : nat)
    : option (result OptimizationResult) :=
  match stock with
  | [] => Some (Err ErrEmptyCatalog)
  | _ =>
      match generateSplicePlan runs laps stock settings with
      | None => None
      | Some (Err e) => Some (Err e)
      | Some (Ok sp) =>
          let c := optimizeCutting (plan sp) directPieces runs stock settings inventory n in
          Some (Ok
            {| or_splicePlan := plan sp;
               or_cuttingPlan := cuttingPlan (cr_totals c);
               or_procurement := procurement (cr_totals c);
               summary :=
                 {| totalWeight := round2 (totalUsedWeight c);
                    sm_totalWaste := Math_round (inject_Z (totalWaste c));
                    sm_wastePercent := round2 <$> wastePercent c |};
               or_warnings := sp_warnings sp |})
      end
  end.
End Cutting.

(** * Vocabulary of the properties *)

(** ** Measures and invariants *)

Definition sumLen (ps : list Piece) : Z := foldr (fun p s => lengthMm p + s) 0 ps.

(** What the claim on conservation asks of the pieces of a run. *)
Definition Conserved (ps : list Piece) (lap total step : Z) : Prop :=
  Z.abs (sumLen ps - (Z.of_nat (length ps) - 1) * lap - total) <= step.

(** What one run of the loop appends to the pieces: every piece is positive
    and at most [Z.max L 1000] long, and every piece that is followed by
    another one is a rounded cut of at least 1000. *)
Definition PiecesBounded (L : Z) (new : list Piece) : Prop :=
  Forall (fun p => 0 < lengthMm p <= Z.max L 1000) new /\
  forall i p, new !! i = Some p -> (S i < length new)%nat -> 1000 <= lengthMm p.

Definition sumNeeded (kerf : Z) (cs : list Z) : Z :=
  foldr (fun c s => (c + kerf) + s) 0 cs.

(** A bin that was forced open: new stock, a single cut, and no new-stock
    option long enough for it. *)
Definition Forced (kerf : Z) (opts : list AvailableStockOption) (b : Bin) : Prop :=
  isInventory b = false /\
  exists c, cuts b = [c] /\
    forall o, o ∈ opts -> opt_isInventory o = false -> opt_len o < c + kerf.

(** A bin keeps the books right, and it is overfull only when it was forced
    open. *)
Definition BinOk (kerf : Z) (opts : list AvailableStockOption) (b : Bin) : Prop :=
  remaining b = stockLength b - sumNeeded kerf (cuts b) /\
  (0 <= remaining b \/ Forced kerf opts b).

(** The stock lengths of the inventory bins, in the order of the bins. *)
Definition invLens (bs : list Bin) : list Z :=
  map stockLength (filter (fun b => isInventory b = true) bs).

(** Every inventory option carries an id that the used set can hold. *)
Definition IdsOk (opts : list AvailableStockOption) : Prop :=
  forall o, o ∈ opts -> opt_isInventory o = true -> is_Some (truthyId (opt_id o)).

(** The inventory bins of a pass were opened on inventory options with
    pairwise distinct ids, all of them marked used. *)
Definition PackInv (opts : list AvailableStockOption) (st : PackState) : Prop :=
  exists consumed,
    invLens (ps_bins st) = map opt_len consumed /\
    NoDup (map (fun o => truthyId (opt_id o)) consumed) /\
    forall o, o ∈ consumed ->
      o ∈ opts /\ opt_isInventory o = true /\
      exists s, truthyId (opt_id o) = Some s /\ s ∈ ps_used st.

Definition offcutLen (offcuts : list Offcut) (i : nat) : Z :=
  default 0 (oc_len <$> offcuts !! i).

(** The bins of the sequential consumer were opened on distinct offcuts, all
    of them marked used. *)
Definition SeqInv (offcuts : list Offcut) (st : SeqState) : Prop :=
  Forall (fun b => isInventory b = true) (inventoryBins st) /\
  exists idxs,
    map stockLength (inventoryBins st) = map (offcutLen offcuts) idxs /\
    NoDup idxs /\
    forall i, i ∈ idxs -> i ∈ usedOffcutIndices st /\ (i < length offcuts)%nat.

Fixpoint barFree (s : string) : Prop :=
  match s with
  | EmptyString => True
  | String a s' => a <> "|"%char /\ barFree s'
  end.

(** Every pattern of the map stands for a bin of the list with that key; it
    carries that bin's sorted cuts, stock length, source and remainder. *)
Definition PatternOf (bs : list Bin) (k : string) (p : Pattern) : Prop :=
  exists b, b ∈ bs /\ k = patternKey b /\
    pt_cuts p = sortDesc (cuts b) /\
    pt_remaining p = Z.max 0 (remaining b) /\
    pt_stock p = stockLength b /\
    pt_isInventory p = isInventory b.

(** The weight of a bin or of a pattern in a count of inventory bins whose
    stock length is selected by [sel]. *)
Definition invWeight (sel : Z -> bool) (isInv : bool) (stock : Z) (c : nat) : nat :=
  if isInv && sel stock then c else 0%nat.

Definition patternWeight (sel : Z -> bool) (p : Pattern) : nat :=
  invWeight sel (pt_isInventory p) (pt_stock p) (pt_count p).

Definition binWeightIn (sel : Z -> bool) (b : Bin) : nat :=
  invWeight sel (isInventory b) (stockLength b) 1.

(** The number of inventory units whose diameter and length are selected. *)
Definition invAvailable (sel : Z -> Z -> bool) (inventory : list OffcutInventoryItem) : nat :=
  sum_list_with (fun inv =>
    if sel (inv_dia inv) (inv_lengthMm inv) then Z.to_nat (quantity inv) else 0%nat) inventory.

(** The number of inventory bars that a cutting plan consumes, among those
    whose diameter and stock length are selected. *)
Definition invUsed (sel : Z -> Z -> bool) (items : list CuttingPlanItem) : nat :=
  sum_list_with (fun it =>
    if bool_decide (sourceType it = EXISTING_INVENTORY)
       && sel (cp_dia it) (cp_stockLength it)
    then count it else 0%nat) items.

(** The bins that the optimizer builds for one diameter, when the random
    stream has been read [n] times. *)
Definition groupBins (random : nat -> Q) (allRequests : list CutReq)
    (catalog : list StockCatalogItem) (settings : ProjectSettings)
    (inventory : list OffcutInventoryItem) (dia : Z) (n : nat) : list Bin :=
  (optimizeDiaGroup random (filter (fun r => cr_dia r = dia) allRequests)
     (getStockOptions dia catalog) settings
     (filter (fun i => inv_dia i = dia) inventory) n).1.

Definition itemOfRun (run : BarRun) (ps : list Piece) : SplicePlanItem :=
  {| runId := run_id run; sp_barMark := barMark run; groupId := 0; pieces := ps |}.

(** ** Example inputs *)

(** [DEFAULT_SETTINGS] of the application, with the level and the strategy
    left open. *)
Definition defaultSettings (level : OptimizationLevel) (strategy : InventoryStrategy)
    : ProjectSettings :=
  {| projectName := "New Project"; roundingStepMm := 1; kerfMm := 5;
     minLeftoverMm := 0; allowOffcuts := true; beamDepthMm := 600;
     optimizationLevel := level; inventoryStrategy := strategy |}.

Definition beamRun (total : Z) (zones : list SpliceZone) : BarRun :=
  {| run_id := "R1"; barMark := "B1"; memberType := BEAM; run_dia := 20;
     qtyParallel := 1; totalLengthMm := total; lapCase := BEAM_TOP;
     geometryInput := ""; allowedZones := zones |}.

Definition stock12 (dia : Z) : list StockCatalogItem :=
  [{| sc_dia := dia; stockLengths := [12000] |}].

Definition cutOf (l : Z) : CutReq :=
  {| cr_dia := 16; len := l; source := "M1"; cr_id := "D0-0" |}.

Definition directOf (l : Z) : DirectPiece :=
  {| dp_id := "d"; dp_barMark := "M1"; dp_dia := 16; dp_lengthMm := l; dp_qty := 1 |}.

(** The first scenario of the specification: a run of 20 m with one zone. *)
Definition scenarioRun : BarRun := beamRun 20000 [{| startMm := 5000; endMm := 15000 |}].

Definition scenarioPieces : list Piece :=
  [{| lengthMm := 12000; p_startMm := 0; p_endMm := 12000 |};
   {| lengthMm := 9000; p_startMm := 11000; p_endMm := 20000 |}].

(** A catalog whose only stock is shorter than 1000, and a rule that sets
    the lap of the example runs. *)
Definition shortStock : list StockCatalogItem :=
  [{| sc_dia := 20; stockLengths := [900] |}].

Definition lapRule (l : Z) : list LapRule :=
  [{| lr_dia := 20; lr_lapCase := BEAM_TOP; lr_lengthMm := l |}].

(** The one inventory unit of the scenario: an offcut of 12000. *)
Definition oneOffcut12 : list OffcutInventoryItem :=
  [{| inv_id := "A"; inv_dia := 16; inv_lengthMm := 12000; quantity := 1 |}].

(** An inventory of two offcuts, one of 6000 and one of 12000. *)
Definition twoOffcuts : list OffcutInventoryItem :=
  [{| inv_id := "A"; inv_dia := 16; inv_lengthMm := 6000; quantity := 1 |};
   {| inv_id := "B"; inv_dia := 16; inv_lengthMm := 12000; quantity := 1 |}].

(** Five requests in the order in which they were entered, and two stock
    lengths. *)
Definition fiveCuts : list CutReq := map cutOf [2000; 3000; 7000; 2000; 2000].
Definition twoStocks : list AvailableStockOption := map newStockOption [12000; 6000].

(** The same five requests as fixed pieces of a project, and its catalog. *)
Definition fiveDirect : list DirectPiece := map directOf [2000; 3000; 7000; 2000; 2000].
Definition twoStockCatalog : list StockCatalogItem :=
  [{| sc_dia := 16; stockLengths := [12000; 6000] |}].

(** A stream under which the shuffle leaves the requests as they are, and
    one under which it sorts them in descending order. *)
Definition streamKeep (n : nat) : Q := 99 # 100.
Definition streamSort (n : nat) : Q := if (n =? 2)%nat then 0 else 99 # 100.

(** * The application around the solver ([src/App.tsx], [src/utils/exportUtils.ts]) *)

Global Instance MemberType_eq_dec : EqDecision MemberType.
Proof. solve_decision. Defined.

Definition Math_max (a b : Q) : Q := if Qle_bool a b then b else a.
Definition Math_min (a b : Q) : Q := if Qle_bool a b then a else b.

(** The zones that [calculateZones] pushes for one segment that starts at
    [currentDist]; [h] is the beam depth. *)
Definition segmentZones (type : MemberType) (lc : LapCase) (h currentDist segmentLen : Z)
    : list SpliceZone :=
  let cur := inject_Z currentDist in
  let seg := inject_Z segmentLen in
  let pushed :=
    if bool_decide (type = COLUMN) && bool_decide (lc = COLUMN_VERTICAL) then
      [{| startMm := cur + seg * (1 # 4); endMm := cur + seg * (3 # 4) |}]
    else if bool_decide (lc = BEAM_TOP) then
      [{| startMm := cur + seg / 3; endMm := cur + 2 * seg / 3 |}]
    else if bool_decide (lc = BEAM_BOTTOM) then
      let z1Start := (cur + 2 * inject_Z h)%Q in
      let z1End := (cur + seg / 3)%Q in
      let z2Start := (cur + 2 * seg / 3)%Q in
      let z2End := (cur + seg - 2 * inject_Z h)%Q in
      (if Qltb z1Start z1End then [{| startMm := z1Start; endMm := z1End |}] else []) ++
      (if Qltb z2Start z2End then [{| startMm := z2Start; endMm := z2End |}] else [])
    else [] in
  let hasAddedZone := match pushed with [] => false | _ => true end in
  if negb hasAddedZone && negb (bool_decide (lc = BEAM_BOTTOM)) then
    let mid := (cur + seg / 2)%Q in
    pushed ++ [{| startMm := Math_max cur (mid - 200);
                  endMm := Math_min (cur + seg) (mid + 200) |}]
  else pushed.

Record ZoneResult := { zr_totalLength : Z; zones : list SpliceZone }.

(** [calculateZones] from the parsed segment lengths on: [parts] is the
    list that the first line of the function reads out of the geometry
    string, the integers of the string that are greater than 0. *)
Definition calculateZones (parts : list Z) (type : MemberType) (lc : LapCase)
    (projSettings : ProjectSettings) : ZoneResult :=
  match parts with
  | [] => {| zr_totalLength := 0; zones := [] |}
  | _ =>
      let totalLength := fold_left Z.add parts 0 in
      let h := beamDepthMm projSettings in
      let '(zs, _) :=
        fold_left (fun '(zs, currentDist) segmentLen =>
                     (zs ++ segmentZones type lc h currentDist segmentLen,
                      currentDist + segmentLen))
                  parts ([], 0) in
      {| zr_totalLength := totalLength; zones := zs |}
  end.

(** The handler of the button "Add Stock": the next value of the catalog. *)
Definition addStock (stock : list StockCatalogItem) (dia length : Z)
    : list StockCatalogItem :=
  match find (fun s => sc_dia s =? dia) stock with
  | Some existing =>
      if bool_decide (length ∈ stockLengths existing) then stock
      else
        map (fun s =>
               if sc_dia s =? dia
               then {| sc_dia := sc_dia s;
                       stockLengths := sortDesc (stockLengths s ++ [length]) |}
               else s) stock
  | None =>
      sortStable (fun a b => sc_dia a <=? sc_dia b)
        (stock ++ [{| sc_dia := dia; stockLengths := [length] |}])
  end.

(** The handler of the delete button of a catalog row. *)
Definition deleteStock (stock : list StockCatalogItem) (dia : Z) : list StockCatalogItem :=
  filter (fun s => sc_dia s <> dia) stock.

(** The handler of the button "Save Rule": the next value of the rules. *)
Definition saveRule (laps : list LapRule) (newRule : LapRule) : list LapRule :=
  let filtered :=
    filter (fun l => ~ (lr_dia l = lr_dia newRule /\ lr_lapCase l = lr_lapCase newRule)) laps in
  sortStable (fun a b => lr_dia a <=? lr_dia b) (filtered ++ [newRule]).

(** "Total Stock Bars" of the reports:
    [results.procurement.reduce((a, b) => a + b.quantity, 0)]. *)
Definition totalStockBars (procurement : list ProcurementItem) : nat :=
  fold_left (fun a b => (a + pr_quantity b)%nat) procurement 0%nat.

(** ** Vocabulary of the further properties *)

(** [Math.random()] returns a number from 0 up to but not including 1. *)
Definition RandomOk (random : nat -> Q) : Prop :=
  forall n, (0 <= random n)%Q /\ (random n < 1)%Q.

Definition sumZ (l : list Z) : Z := foldr Z.add 0 l.

(** The pieces of a run follow one another from the cursor [cur]: each
    starts at the cursor and ends its length further, and the cursor of the
    next one is a lap before that end. *)
Fixpoint chained (lap cur : Z) (ps : list Piece) : Prop :=
  match ps with
  | [] => True
  | p :: ps' =>
      p_startMm p = cur /\ p_endMm p = cur + lengthMm p /\
      chained lap (p_endMm p - lap) ps'
  end.

(** The number of bars from new stock that a cutting plan lists. *)
Definition newBars (items : list CuttingPlanItem) : nat :=
  sum_list_with (fun it => if bool_decide (sourceType it = NEW_STOCK) then count it else 0%nat)
    items.

(** What the sequential consumer keeps true after the requests [processed]:
    every processed request is a cut of a bin or deferred; every bin is an
    inventory bin that is not overfull and keeps the books right; the bins
    were opened on the used offcuts, one bin each; and a deferred request
    fits neither the room left in a bin nor an offcut that is still
    unused. *)
Definition SeqKept (kerf : Z) (offcuts : list Offcut) (processed : list CutReq)
    (st : SeqState) : Prop :=
  concat (map cuts (inventoryBins st)) ++ map len (remainingRequests st)
    ≡ₚ map len processed /\
  Forall (fun b => isInventory b = true /\ 0 <= remaining b /\
                   remaining b = stockLength b - sumNeeded kerf (cuts b))
    (inventoryBins st) /\
  (exists idxs,
     map stockLength (inventoryBins st) = map (offcutLen offcuts) idxs /\
     NoDup idxs /\
     forall i, i ∈ idxs <-> i ∈ usedOffcutIndices st) /\
  (forall i, i ∈ usedOffcutIndices st -> (i < length offcuts)%nat) /\
  forall r, r ∈ remainingRequests st ->
    Forall (fun b => remaining b < len r + kerf) (inventoryBins st) /\
    forall j o, offcuts !! j = Some o -> j ∉ usedOffcutIndices st ->
                oc_len o < len r + kerf.

(** A zone that lies between [lo] and [hi] and is not empty. *)
Definition ZoneIn (lo hi : Q) (z : SpliceZone) : Prop :=
  (lo <= startMm z)%Q /\ (startMm z < endMm z)%Q /\ (endMm z <= hi)%Q.

(** One zone ends before the other one starts. *)
Definition zoneBefore (a b : SpliceZone) : Prop := (endMm a <= startMm b)%Q.

Fixpoint dashFree (s : string) : Prop :=
  match s with
  | EmptyString => True
  | String a s' => a <> "-"%char /\ dashFree s'
  end.

(** What follows a number in the joined cuts: nothing, or the separator. *)
Definition dashOrEnd (s : string) : Prop :=
  s = ""%string \/ exists t, s = String "-" t.

(** The bins that a row of the cutting plan stands for: those of its
    source, stock length and cuts. *)
Definition inRow (it : CuttingPlanItem) (b : Bin) : Prop :=
  sourceType it = (if isInventory b then EXISTING_INVENTORY else NEW_STOCK) /\
  cp_stockLength it = stockLength b /\
  cp_cuts it = sortDesc (cuts b).

Global Instance inRow_dec it b : Decision (inRow it b).
Proof. unfold inRow. apply _. Defined.

(** What tells one row of the cutting plan of a diameter from another. *)
Definition rowKey (it : CuttingPlanItem) : SourceType * Z * list Z :=
  (sourceType it, cp_stockLength it, cp_cuts it).

(** The pattern map [m] of the bins [seen]: one entry for each key, built on
    a bin of that key, counting the bins of that key. *)
Definition PatternRows (seen : list Bin) (m : list (string * Pattern)) : Prop :=
  NoDup (map fst m) /\
  (forall k p, (k, p) ∈ m -> PatternOf seen k p) /\
  (forall k0,
     sum_list_with (fun kv => if decide (kv.1 = k0) then pt_count kv.2 else 0%nat) m
     = length (filter (fun b => patternKey b = k0) seen)) /\
  (forall b, b ∈ seen -> patternKey b ∈ map fst m).

(** A bin cut from a new bar of length [l]. *)
Definition newBarOf (l : Z) (b : Bin) : Prop :=
  isInventory b = false /\ stockLength b = l.

Global Instance newBarOf_dec l b : Decision (newBarOf l b).
Proof. unfold newBarOf. apply _. Defined.

(** The map of stock lengths [m] of the bins [seen]: one entry for each
    length of a new bar, counting the new bars of that length. *)
Definition StockGroups (seen : list Bin) (m : list (Z * nat)) : Prop :=
  NoDup (map fst m) /\
  (forall l0,
     sum_list_with (fun kv => if decide (kv.1 = l0) then kv.2 else 0%nat) m
     = length (filter (newBarOf l0) seen)) /\
  (forall l, l ∈ map fst m <-> exists b, b ∈ seen /\ newBarOf l b).

(** The diameter groups of a solve: for each diameter, in the order of the
    [forEach], the bins that [optimizeDiaGroup] returns for it, the random
    stream being read on from its call [n]. *)
Fixpoint groupsOf (random : nat -> Q) (allRequests : list CutReq)
    (catalog : list StockCatalogItem) (settings : ProjectSettings)
    (inventory : list OffcutInventoryItem) (dias : list Z) (n : nat)
    : list (Z * list Bin) :=
  match dias with
  | [] => []
  | dia :: dias' =>
      let r := optimizeDiaGroup random (filter (fun r => cr_dia r = dia) allRequests)
                 (getStockOptions dia catalog) settings
                 (filter (fun i => inv_dia i = dia) inventory) n in
      (dia, r.1) :: groupsOf random allRequests catalog settings inventory dias' r.2
  end.

(** * Properties *)

(** ** The splice planner *)

Lemma sumLen_app ps qs : sumLen (ps ++ qs) = sumLen ps + sumLen qs.
Proof. induction ps as [|p ps IH]; simpl; [done | rewrite IH; lia]. Qed.

Lemma getStockOptions_nonempty dia catalog : getStockOptions dia catalog <> [].
Proof.
  unfold getStockOptions.
  destruct (find _ catalog) as [item|]; [|done].
  destruct (stockLengths item) as [|x xs] eqn:E; [done|].
  unfold sortDesc, sortStable. simpl.
  destruct (foldr _ _ xs); simpl; [done|]. by case_match.
Qed.

Lemma floorToStep_le x step (L : Z) :
  1 <= step -> (x <= inject_Z L)%Q -> floorToStep x step <= L.
Proof.
  intros Hstep Hx. unfold floorToStep.
  rewrite Zle_Qle, inject_Z_mult.
  assert (Hs : (inject_Z 0 < inject_Z step)%Q) by (rewrite <- Zlt_Qlt; lia).
  change (inject_Z 0) with 0%Q in Hs.
  eapply Qle_trans; [|exact Hx].
  eapply Qle_trans.
  - apply Qmult_le_compat_r; [apply Qfloor_le | by apply Qlt_le_weak].
  - rewrite Qmult_comm, Qmult_div_r; [apply Qle_refl|].
    intros E. rewrite E in Hs. by apply Qlt_irrefl in Hs.
Qed.

Lemma Qltb_false a b : Qltb a b = false -> (b <= a)%Q.
Proof.
  unfold Qltb. intros H. apply negb_false_iff in H. by apply Qle_bool_iff.
Qed.

Lemma proposeCut_le zones lap L cur :
  ((proposeCut zones lap L cur).1 <= inject_Z L)%Q.
Proof.
  unfold proposeCut.
  destruct (pickZone _ _ _ _) as [z|]; simpl; [|apply Qle_refl].
  set (c1 := if Qltb 1000 _ then _ else _).
  destruct (Qltb (inject_Z L) _) eqn:E.
  - ring_simplify. apply Qle_refl.
  - by apply Qltb_false in E.
Qed.

Lemma roundCut_bounds cut step L :
  1 <= step -> (cut <= inject_Z L)%Q ->
  1000 <= roundCut cut step <= Z.max L 1000.
Proof.
  intros Hstep Hcut. unfold roundCut.
  pose proof (floorToStep_le cut step L Hstep Hcut).
  destruct (Z.ltb_spec (floorToStep cut step) 1000); lia.
Qed.

Lemma PiecesBounded_cons L p new :
  1000 <= lengthMm p <= Z.max L 1000 -> PiecesBounded L new -> PiecesBounded L (p :: new).
Proof.
  intros Hp [Hall Hinner]. split; [constructor; [lia | done]|].
  intros [|i] q Hq Hlen; simpl in *; [by injection Hq as <-; lia|].
  apply (Hinner i); [done | lia].
Qed.

Lemma spliceLoop_bounds fuel run lap L step st st' :
  1 <= step ->
  spliceLoop fuel run lap L step st = Finished st' ->
  exists new,
    groupPieces st' = groupPieces st ++ new /\
    PiecesBounded L new /\
    (remainingTotal st <= 0 -> st' = st).
Proof.
  intros Hstep. revert st.
  assert (Hnil : PiecesBounded L []) by (split; [constructor | by intros []]).
  induction fuel as [|fuel IH]; intros st Hrun; simpl in Hrun.
  - destruct (Z.gtb_spec (remainingTotal st) 0); [done|].
    injection Hrun as <-. exists []. by rewrite app_nil_r.
  - destruct (Z.gtb_spec (remainingTotal st) 0) as [Hpos|Hnpos]; cycle 1.
    { injection Hrun as <-. exists []. by rewrite app_nil_r. }
    destruct (Z.leb_spec (remainingTotal st) L) as [Hfin|Hcont].
    + apply IH in Hrun as (new & Hnew & _ & Hsame). simpl in *.
      specialize (Hsame ltac:(lia)). subst st'. simpl in *.
      set (p := {| lengthMm := remainingTotal st |}) in *.
      exists [p]. split_and!; [done | | intros ?; lia].
      split; [repeat constructor; simpl; lia|].
      intros [|i] q Hq Hlen; simpl in *; lia.
    + pose proof (proposeCut_le (allowedZones run) lap L (currentAbsPos st)) as Hle.
      destruct (proposeCut _ _ _ _) as [cut violation]. simpl in Hle.
      pose proof (roundCut_bounds cut step L Hstep Hle) as Hb.
      destruct (Z.leb_spec (roundCut cut step - lap) 0) as [|Hadv]; [done|].
      apply IH in Hrun as (new & Hnew & Hbnd & _). simpl in *.
      set (p := {| lengthMm := roundCut cut step |}) in *.
      exists (p :: new). split_and!; [by rewrite Hnew, <- app_assoc | | intros ?; lia].
      by apply PiecesBounded_cons.
Qed.

(** With a lap that is not negative and a stock of at least 1000, a cut
    never reaches the end of the run, so the run closes on the piece that
    carries what remains, and the lengths add up. *)
Lemma spliceLoop_conservation fuel run lap L step st st' :
  1 <= step -> 0 <= lap -> 1000 <= L ->
  0 < remainingTotal st ->
  spliceLoop fuel run lap L step st = Finished st' ->
  exists new,
    groupPieces st' = groupPieces st ++ new /\
    new <> [] /\
    sumLen new - (Z.of_nat (length new) - 1) * lap = remainingTotal st.
Proof.
  intros Hstep Hlap HL. revert st.
  induction fuel as [|fuel IH]; intros st Hpos Hrun; simpl in Hrun.
  - destruct (Z.gtb_spec (remainingTotal st) 0); [done | lia].
  - destruct (Z.gtb_spec (remainingTotal st) 0) as [_|]; [|lia].
    destruct (Z.leb_spec (remainingTotal st) L) as [Hfin|Hcont].
    + apply (spliceLoop_bounds _ _ _ _ _ _ _ Hstep) in Hrun as (new & Hnew & _ & Hsame).
      simpl in *. specialize (Hsame ltac:(lia)). subst st'. simpl in *.
      set (p := {| lengthMm := remainingTotal st |}) in *.
      exists [p]. split_and!; [done | done | simpl; lia].
    + pose proof (proposeCut_le (allowedZones run) lap L (currentAbsPos st)) as Hle.
      destruct (proposeCut _ _ _ _) as [cut violation]. simpl in Hle.
      pose proof (roundCut_bounds cut step L Hstep Hle) as Hb.
      destruct (Z.leb_spec (roundCut cut step - lap) 0) as [|Hadv]; [done|].
      apply IH in Hrun as (new & Hnew & Hne & Hsum); [|simpl; lia]. simpl in *.
      set (p := {| lengthMm := roundCut cut step |}) in *.
      exists (p :: new). split_and!; [by rewrite Hnew, <- app_assoc | done |].
      simpl length. simpl sumLen. subst p. simpl. lia.
Qed.

Lemma spliceLoop_fuel fuel run lap L step st :
  (Z.to_nat (remainingTotal st) < fuel)%nat ->
  spliceLoop fuel run lap L step st <> OutOfFuel.
Proof.
  revert st. induction fuel as [|fuel IH]; intros st Hfuel; [lia|].
  simpl. destruct (Z.gtb_spec (remainingTotal st) 0) as [Hpos|]; [|done].
  destruct (Z.leb_spec (remainingTotal st) L).
  - destruct fuel; simpl; done.
  - destruct (proposeCut _ _ _ _) as [cut violation].
    destruct (Z.leb_spec (roundCut cut step - lap) 0); [done|].
    apply IH. simpl. lia.
Qed.

Lemma planRun_total run rules catalog settings ws :
  planRun run rules catalog settings ws <> OutOfFuel.
Proof.
  unfold planRun. case_match; [done|].
  apply spliceLoop_fuel. unfold loopFuel. simpl. lia.
Qed.

Lemma generateSplicePlanFrom_total runs rules catalog settings acc :
  is_Some (generateSplicePlanFrom runs rules catalog settings acc).
Proof.
  revert acc. induction runs as [|run runs IH]; intros acc; simpl; [done|].
  pose proof (planRun_total run rules catalog settings (sp_warnings acc)).
  destruct (planRun _ _ _ _ _); [apply IH | done | done].
Qed.

(** ** The packing pass *)

Lemma insertStable_perm {A} (before : A -> A -> bool) x l :
  insertStable before x l ≡ₚ x :: l.
Proof.
  induction l as [|y l IH]; simpl; [done|].
  case_match; [done|]. rewrite IH. apply Permutation_swap.
Qed.

Lemma sortStable_perm {A} (before : A -> A -> bool) l :
  sortStable before l ≡ₚ l.
Proof.
  induction l as [|x l IH]; simpl; [done|].
  by rewrite insertStable_perm, IH.
Qed.

Lemma bestFitBin_spec bs needed : forall i best j rem,
  bestFitBin i bs needed best = Some (j, rem) ->
  best = Some (j, rem) \/
  exists b, bs !! (j - i)%nat = Some b /\ (i <= j)%nat /\
            rem = remaining b - needed /\ 0 <= rem.
Proof.
  induction bs as [|b bs IH]; intros i best j rem H; simpl in H; [by left|].
  apply IH in H as [H|(b' & Hb' & Hij & Hrem)].
  - destruct (Z.leb_spec 0 (remaining b - needed)); simpl in H; [|by left].
    destruct (match best with Some _ => _ | None => _ end); [|by left].
    injection H as <- <-. right. exists b.
    by rewrite Nat.sub_diag.
  - right. exists b'. split; [|split; [lia | done]].
    replace (j - i)%nat with (S (j - S i)) by lia. done.
Qed.

Lemma bestFitBin_none bs needed : forall i,
  Forall (fun b => remaining b < needed) bs ->
  bestFitBin i bs needed None = None.
Proof.
  induction bs as [|b bs IH]; intros i Hall; simpl; [done|].
  inversion Hall; subst.
  destruct (Z.leb_spec 0 (remaining b - needed)); [lia|]. simpl. by apply IH.
Qed.

Lemma bestFitOption_spec opts used needed : forall best o rem,
  bestFitOption opts used needed best = Some (o, rem) ->
  best = Some (o, rem) \/
  (o ∈ opts /\ skipUsed used o = false /\ rem = opt_len o - needed /\ 0 <= rem).
Proof.
  induction opts as [|opt opts IH]; intros best o rem H; simpl in H; [by left|].
  destruct (skipUsed used opt) eqn:Hskip.
  { apply IH in H as [H|(?&?&?&?)]; [by left|].
    right. split_and!; [by apply list_elem_of_further | done..]. }
  apply IH in H as [H|(?&?&?&?)].
  - destruct (Z.leb_spec 0 (opt_len opt - needed)); simpl in H; [|by left].
    destruct (match best with Some _ => _ | None => _ end); [|by left].
    injection H as <- <-. right. split_and!; [apply list_elem_of_here | done..].
  - right. split_and!; [by apply list_elem_of_further | done..].
Qed.

Lemma bestFitOption_none opts used needed :
  Forall (fun o => skipUsed used o = true \/ opt_len o < needed) opts ->
  bestFitOption opts used needed None = None.
Proof.
  induction opts as [|o opts IH]; intros Hall; simpl; [done|].
  inversion Hall as [|? ? Ho Hrest]; subst.
  destruct (skipUsed used o) eqn:E; [by apply IH|].
  destruct Ho as [|Ho]; [done|].
  destruct (Z.leb_spec 0 (opt_len o - needed)); [lia|]. simpl. by apply IH.
Qed.

Lemma largestNewStock_spec opts o :
  largestNewStock opts = Some o -> o ∈ opts /\ opt_isInventory o = false.
Proof.
  unfold largestNewStock. intros H%head_Some_elem_of.
  rewrite sortStable_perm in H. by apply list_elem_of_filter in H as [? ?].
Qed.

Lemma largestNewStock_some opts o :
  o ∈ opts -> opt_isInventory o = false -> is_Some (largestNewStock opts).
Proof.
  intros Hin Hnew. unfold largestNewStock.
  assert (Hf : o ∈ filter (fun o => opt_isInventory o = false) opts)
    by (by apply list_elem_of_filter).
  rewrite <- (sortStable_perm (fun a b => opt_len b <=? opt_len a)) in Hf.
  destruct (sortStable _ _); [by apply elem_of_nil in Hf | by eexists].
Qed.

Lemma largestNewStock_none opts :
  Forall (fun o => opt_isInventory o = true) opts -> largestNewStock opts = None.
Proof.
  intros Hall. unfold largestNewStock.
  destruct (largestNewStock opts) as [o|] eqn:E; [|exact E].
  apply largestNewStock_spec in E as [Hin Hnew].
  rewrite Forall_forall in Hall. apply Hall in Hin. congruence.
Qed.

Lemma sumNeeded_app kerf cs ds :
  sumNeeded kerf (cs ++ ds) = sumNeeded kerf cs + sumNeeded kerf ds.
Proof. induction cs as [|c cs IH]; simpl; [done | rewrite IH; lia]. Qed.

Lemma bestFitOption_mono opts used needed : forall best,
  is_Some best -> is_Some (bestFitOption opts used needed best).
Proof.
  induction opts as [|o opts IH]; intros best Hbest; simpl; [done|].
  destruct (skipUsed used o); [by apply IH|].
  apply IH. by case_match.
Qed.

Lemma bestFitOption_none_inv opts used needed :
  bestFitOption opts used needed None = None ->
  Forall (fun o => skipUsed used o = true \/ opt_len o < needed) opts.
Proof.
  induction opts as [|o opts IH]; intros H; simpl in H; [constructor|].
  destruct (skipUsed used o) eqn:E; [constructor; [by left | by apply IH]|].
  destruct (Z.leb_spec 0 (opt_len o - needed)); simpl in H.
  - pose proof (bestFitOption_mono opts used needed (Some (o, opt_len o - needed))
                  ltac:(by eexists)) as [? Hs].
    congruence.
  - constructor; [right; lia | by apply IH].
Qed.

Lemma addCut_ok kerf opts l b :
  BinOk kerf opts b -> 0 <= remaining b - (l + kerf) ->
  BinOk kerf opts (addCut (l + kerf) l b).
Proof.
  intros [Hrem _] Hfit. split; simpl; [|by left].
  rewrite sumNeeded_app. simpl. lia.
Qed.

Lemma chooseStock_spec opts used needed o :
  chooseStock opts used needed = Some o ->
  o ∈ opts /\
  ((skipUsed used o = false /\ 0 <= opt_len o - needed) \/
   (opt_isInventory o = false /\
    forall o', o' ∈ opts -> opt_isInventory o' = false -> opt_len o' < needed)).
Proof.
  unfold chooseStock. destruct (bestFitOption _ _ _ _) as [[o' rem]|] eqn:E.
  - intros [= ->]. apply bestFitOption_spec in E as [|(?&?&->&?)]; [done|].
    split; [done | by left].
  - intros [? ?]%largestNewStock_spec. split; [done | right]. split; [done|].
    apply bestFitOption_none_inv in E. rewrite Forall_forall in E.
    intros o' Hin Hnew. destruct (E o' Hin) as [Hskip|]; [|done].
    unfold skipUsed in Hskip. by rewrite Hnew in Hskip.
Qed.

Lemma packStep_ok opts kerf st req :
  Forall (BinOk kerf opts) (ps_bins st) ->
  Forall (BinOk kerf opts) (ps_bins (packStep opts kerf st req)).
Proof.
  intros Hall. unfold packStep.
  destruct (bestFitBin _ _ _ _) as [[j rem]|] eqn:Hbin; simpl.
  - apply bestFitBin_spec in Hbin as [|(b & Hb & _ & -> & Hfit)]; [done|].
    rewrite Nat.sub_0_r in Hb.
    apply Forall_alter; [done|]. intros b' Hb' Hok.
    rewrite Hb in Hb'. injection Hb' as <-. by apply addCut_ok.
  - destruct (chooseStock _ _ _) as [o|] eqn:Hch; simpl; [|done].
    apply Forall_app. split; [done|]. apply Forall_singleton.
    split; simpl; [lia|].
    apply chooseStock_spec in Hch as [_ [[_ ?]|[? ?]]]; [by left | right].
    split; [done|]. by exists (len req).
Qed.

Lemma fold_packStep_ok opts kerf reqs st :
  Forall (BinOk kerf opts) (ps_bins st) ->
  Forall (BinOk kerf opts) (ps_bins (fold_left (packStep opts kerf) reqs st)).
Proof.
  revert st. induction reqs as [|r reqs IH]; intros st Hall; simpl; [done|].
  by apply IH, packStep_ok.
Qed.

Lemma packingPass_ok reqs opts kerf :
  Forall (BinOk kerf opts) (bins (packingPass reqs opts kerf)).
Proof. apply fold_packStep_ok. constructor. Qed.

(** The driver returns the bins of one of its passes. *)
Lemma mcLoop_is_pass random iterations reqs opts kerf : forall st,
  (exists l, bestBins st = bins (packingPass l opts kerf)) ->
  exists l, bestBins (mcLoop random iterations reqs opts kerf st)
            = bins (packingPass l opts kerf).
Proof.
  induction iterations as [|k IH]; intros st Hst; simpl; [done|].
  destruct (shuffle random reqs (calls st)) as [shuffled n'].
  apply IH. case_match; simpl; [by eexists | done].
Qed.

Lemma performMonteCarlo_is_pass random reqs opts settings n :
  exists l, (performMonteCarlo random reqs opts settings n).1
            = bins (packingPass l opts (kerfMm settings)).
Proof. unfold performMonteCarlo. simpl. apply mcLoop_is_pass. by eexists. Qed.

(** *** The sequential consumer *)

Lemma bestFitOffcut_spec offcuts used needed : forall i best j rem,
  bestFitOffcut i offcuts used needed best = Some (j, rem) ->
  best = Some (j, rem) \/
  exists o, offcuts !! (j - i)%nat = Some o /\ (i <= j)%nat /\ (j ∉ used) /\
            rem = oc_len o - needed /\ 0 <= rem.
Proof.
  induction offcuts as [|o offcuts IH]; intros i best j rem H; simpl in H; [by left|].
  assert (Hshift : forall o',
    offcuts !! (j - S i)%nat = Some o' -> (S i <= j)%nat ->
    (o :: offcuts) !! (j - i)%nat = Some o').
  { intros o' Ho' Hle. by replace (j - i)%nat with (S (j - S i)) by lia. }
  destruct (bool_decide_reflect (i ∈ used)) as [Hin|Hnin].
  { apply IH in H as [H|(o' & Ho' & Hij & ? & ? & ?)]; [by left|].
    right. exists o'. split_and!; [by apply Hshift | lia | done..]. }
  apply IH in H as [H|(o' & Ho' & Hij & ? & ? & ?)].
  - destruct (Z.leb_spec 0 (oc_len o - needed)); simpl in H; [|by left].
    destruct (match best with Some _ => _ | None => _ end); [|by left].
    injection H as <- <-. right. exists o. by rewrite Nat.sub_diag.
  - right. exists o'. split_and!; [by apply Hshift | lia | done..].
Qed.

Lemma seqStep_ok opts offcuts kerf st req :
  Forall (BinOk kerf opts) (inventoryBins st) ->
  Forall (BinOk kerf opts) (inventoryBins (seqStep offcuts kerf st req)).
Proof.
  intros Hall. unfold seqStep.
  destruct (bestFitBin _ _ _ _) as [[j rem]|] eqn:Hbin; simpl.
  - apply bestFitBin_spec in Hbin as [|(b & Hb & _ & -> & Hfit)]; [done|].
    rewrite Nat.sub_0_r in Hb.
    apply Forall_alter; [done|]. intros b' Hb' Hok.
    rewrite Hb in Hb'. injection Hb' as <-. by apply addCut_ok.
  - destruct (bestFitOffcut _ _ _ _ _) as [[j rem]|] eqn:Hoff; simpl; [|done].
    apply bestFitOffcut_spec in Hoff as [|(o & Ho & _ & _ & -> & Hfit)]; [done|].
    rewrite Nat.sub_0_r in Ho. rewrite Ho. simpl.
    apply Forall_app. split; [done|]. apply Forall_singleton.
    split; simpl; [lia | by left].
Qed.

Lemma consumeInventorySequential_ok opts reqs inventory settings :
  Forall (BinOk (kerfMm settings) opts)
    (consumeInventorySequential reqs inventory settings).1.
Proof.
  unfold consumeInventorySequential. simpl.
  generalize (sortRequestsDesc reqs). intros l.
  assert (H : Forall (BinOk (kerfMm settings) opts)
    (inventoryBins {| inventoryBins := []; remainingRequests := [];
                      usedOffcutIndices := ∅ |})) by constructor.
  revert H. generalize ({| inventoryBins := []; remainingRequests := [];
                           usedOffcutIndices := ∅ |}).
  induction l as [|r l IH]; intros st Hst; simpl; [done|].
  by apply IH, seqStep_ok.
Qed.

Lemma optimizeDiaGroup_ok random reqs stock settings inventory n :
  Forall (BinOk (kerfMm settings) (map newStockOption stock))
    (optimizeDiaGroup random reqs stock settings inventory n).1.
Proof.
  unfold optimizeDiaGroup. destruct (inventoryStrategy settings).
  - pose proof (consumeInventorySequential_ok (map newStockOption stock) reqs
                  inventory settings) as Hinv.
    destruct (consumeInventorySequential _ _ _) as [invBins [|r rest]]; [done|].
    destruct (performMonteCarlo_is_pass random (r :: rest)
                (map newStockOption stock) settings n) as [l Hl].
    destruct (performMonteCarlo _ _ _ _ _) as [resBins n']. simpl in *.
    apply Forall_app. split; [done|]. rewrite Hl. apply packingPass_ok.
  - set (opts := map newStockOption stock ++ _).
    destruct (performMonteCarlo_is_pass random reqs opts settings n) as [l Hl].
    rewrite Hl. eapply Forall_impl; [apply packingPass_ok|].
    intros b [Hrem [Hfit|(Hnew & c & Hc & Hall)]]; (split; [done|]); [by left|].
    right. split; [done|]. exists c. split; [done|].
    intros o Hin. apply Hall. subst opts. apply elem_of_app. by left.
Qed.

(** ** Inventory is consumed unit by unit *)

Lemma invLens_app bs cs : invLens (bs ++ cs) = invLens bs ++ invLens cs.
Proof. unfold invLens. by rewrite filter_app, map_app. Qed.

Lemma invLens_alter f i bs :
  (forall b, stockLength (f b) = stockLength b /\ isInventory (f b) = isInventory b) ->
  invLens (alter f i bs) = invLens bs.
Proof.
  intros Hf. unfold invLens. revert i.
  induction bs as [|b bs IH]; intros [|i]; try done.
  - change (alter f 0%nat (b :: bs)) with (f b :: bs).
    destruct (Hf b) as [Hs Hi]. rewrite !filter_cons, Hi.
    case_decide; simpl; [by rewrite Hs | done].
  - change (alter f (S i) (b :: bs)) with (b :: alter f i bs).
    rewrite !filter_cons. case_decide; simpl; [f_equal|]; apply IH.
Qed.

Lemma invLens_all bs :
  Forall (fun b => isInventory b = true) bs -> invLens bs = map stockLength bs.
Proof.
  unfold invLens. induction 1 as [|b bs Hb _ IH]; [done|].
  rewrite filter_cons_True by done. simpl. by rewrite IH.
Qed.

Lemma packStep_inv opts kerf st req :
  IdsOk opts -> PackInv opts st -> PackInv opts (packStep opts kerf st req).
Proof.
  intros Hids (consumed & Hlens & Hnd & Hcons). unfold packStep.
  destruct (bestFitBin _ _ _ _) as [[j rem]|]; simpl.
  { exists consumed. split_and!; [|done..]. simpl.
    by rewrite invLens_alter. }
  destruct (chooseStock _ _ _) as [o|] eqn:Hch; [|by exists consumed].
  apply chooseStock_spec in Hch as [Hin Hcase].
  destruct (opt_isInventory o) eqn:Hinv.
  - destruct Hcase as [[Hskip _]|[? _]]; [|done].
    destruct (Hids o Hin Hinv) as [s Hs].
    assert (Hfresh : s ∉ ps_used st).
    { unfold skipUsed in Hskip. rewrite Hinv, Hs in Hskip. simpl in Hskip.
      by apply bool_decide_eq_false in Hskip. }
    exists (consumed ++ [o]). simpl. split_and!.
    + rewrite invLens_app, map_app, Hlens. unfold invLens.
      by rewrite filter_cons_True by done.
    + rewrite map_app. apply NoDup_app. split_and!; [done | | apply NoDup_singleton].
      intros i (o' & -> & Ho')%list_elem_of_fmap Hi%list_elem_of_singleton.
      destruct (Hcons o' Ho') as (_ & _ & s' & Hs' & Hused). congruence.
    + unfold markUsed. rewrite Hinv, Hs.
      intros o' [Ho'| ->%list_elem_of_singleton]%elem_of_app.
      * destruct (Hcons o' Ho') as (? & ? & s' & ? & ?).
        split_and!; [done..|]. exists s'. split; [done | apply elem_of_union; by right].
      * split_and!; [done..|]. exists s. split; [done | apply elem_of_union; left; by apply elem_of_singleton].
  - exists consumed. simpl. split_and!; [|done|].
    + rewrite invLens_app. unfold invLens at 2.
      rewrite filter_cons_False by (simpl; congruence). simpl.
      by rewrite app_nil_r.
    + unfold markUsed. by rewrite Hinv.
Qed.

Lemma packingPass_inventory reqs opts kerf :
  IdsOk opts ->
  invLens (bins (packingPass reqs opts kerf))
    ⊆+ map opt_len (filter (fun o => opt_isInventory o = true) opts).
Proof.
  intros Hids. unfold packingPass. simpl.
  assert (Hinv : PackInv opts (fold_left (packStep opts kerf) reqs
                                 {| ps_bins := []; ps_used := ∅ |})).
  { assert (H0 : PackInv opts {| ps_bins := []; ps_used := ∅ |}).
    { exists []. split_and!; [done | constructor | by intros ? ?%elem_of_nil]. }
    revert H0. generalize ({| ps_bins := []; ps_used := ∅ |}).
    induction reqs as [|r reqs IH]; intros st Hst; simpl; [done|].
    by apply IH, packStep_inv. }
  destruct Hinv as (consumed & -> & Hnd & Hcons).
  apply fmap_submseteq, NoDup_submseteq; [by apply NoDup_fmap_1 in Hnd|].
  intros o Ho. destruct (Hcons o Ho) as (? & ? & _).
  by apply list_elem_of_filter.
Qed.

Lemma offcutLen_seq offcuts :
  map (offcutLen offcuts) (seq 0 (length offcuts)) = map oc_len offcuts.
Proof.
  apply list_eq. intros i. unfold offcutLen.
  rewrite !list_lookup_fmap.
  destruct (offcuts !! i) as [o|] eqn:E; simpl.
  - rewrite (proj2 (lookup_seq 0 (length offcuts) i i)); simpl.
    + by rewrite E.
    + split; [done|]. by apply lookup_lt_Some in E.
  - apply lookup_ge_None in E. rewrite lookup_seq_ge by done. done.
Qed.

Lemma map_stockLength_alter needed l i bs :
  map stockLength (alter (addCut needed l) i bs) = map stockLength bs.
Proof.
  revert i. induction bs as [|b bs IH]; intros [|i]; try done.
  change (alter (addCut needed l) (S i) (b :: bs))
    with (b :: alter (addCut needed l) i bs).
  simpl. f_equal. apply IH.
Qed.

Lemma seqStep_inv offcuts kerf st req :
  SeqInv offcuts st -> SeqInv offcuts (seqStep offcuts kerf st req).
Proof.
  intros (Hall & idxs & Hlens & Hnd & Hidx). unfold seqStep.
  destruct (bestFitBin _ _ _ _) as [[j rem]|]; simpl.
  { split; simpl.
    - apply Forall_alter; [done|]. by intros b _ Hb.
    - exists idxs. by rewrite map_stockLength_alter. }
  destruct (bestFitOffcut _ _ _ _ _) as [[j rem]|] eqn:Hoff; simpl;
    [|by split; [|exists idxs]].
  apply bestFitOffcut_spec in Hoff as [|(o & Ho & _ & Hfresh & _ & _)]; [done|].
  rewrite Nat.sub_0_r in Ho.
  split; simpl.
  - apply Forall_app. split; [done|]. by apply Forall_singleton.
  - exists (idxs ++ [j]). split_and!.
    + by rewrite !map_app, Hlens.
    + apply NoDup_app. split_and!; [done | | apply NoDup_singleton].
      intros i Hi ->%list_elem_of_singleton. by destruct (Hidx _ Hi).
    + intros i [Hi| ->%list_elem_of_singleton]%elem_of_app.
      * destruct (Hidx _ Hi). split; [apply elem_of_union; by right | done].
      * split; [apply elem_of_union; left; by apply elem_of_singleton|].
        by apply lookup_lt_Some in Ho.
Qed.

Lemma consumeInventorySequential_inventory reqs inventory settings :
  let invBins := (consumeInventorySequential reqs inventory settings).1 in
  Forall (fun b => isInventory b = true) invBins /\
  map stockLength invBins ⊆+ map oc_len (flattenInventory inventory).
Proof.
  unfold consumeInventorySequential. simpl.
  set (offcuts := sortStable _ (flattenInventory inventory)).
  generalize (sortRequestsDesc reqs). intros l.
  assert (Hinv : SeqInv offcuts (fold_left (seqStep offcuts (kerfMm settings)) l
     {| inventoryBins := []; remainingRequests := []; usedOffcutIndices := ∅ |})).
  { assert (H0 : SeqInv offcuts
      {| inventoryBins := []; remainingRequests := []; usedOffcutIndices := ∅ |}).
    { split; [constructor|]. exists [].
      split_and!; [done | constructor | by intros ? ?%elem_of_nil]. }
    revert H0. generalize ({| inventoryBins := []; remainingRequests := [];
                              usedOffcutIndices := ∅ |}).
    induction l as [|r l IH]; intros st Hst; simpl; [done|].
    by apply IH, seqStep_inv. }
  destruct Hinv as (Hall & idxs & -> & Hnd & Hidx). split; [done|].
  transitivity (map oc_len offcuts).
  - rewrite <- offcutLen_seq. apply fmap_submseteq, NoDup_submseteq; [done|].
    intros i Hi. destruct (Hidx i Hi) as [_ Hlt].
    apply elem_of_seq. lia.
  - apply Permutation_submseteq, fmap_Permutation. subst offcuts.
    apply sortStable_perm.
Qed.

Lemma unitId_nonempty id i : unitId id i <> ""%string.
Proof. unfold unitId. by destruct id. Qed.

Lemma filter_newStock stock :
  filter (fun o => opt_isInventory o = true) (map newStockOption stock) = [].
Proof.
  induction stock as [|s stock IH]; [done|]. simpl.
  by rewrite filter_cons_False by (simpl; congruence).
Qed.

Lemma filter_inventoryOption units :
  filter (fun o => opt_isInventory o = true) (map inventoryOption units)
  = map inventoryOption units.
Proof.
  induction units as [|u units IH]; [done|]. simpl.
  rewrite filter_cons_True by done. by rewrite IH.
Qed.

Lemma flattenInventory_ids inventory u :
  u ∈ flattenInventory inventory -> oc_id u <> ""%string.
Proof.
  unfold flattenInventory. rewrite list_elem_of_In, in_flat_map.
  intros (inv & _ & Hu). unfold unitsOf in Hu.
  apply in_map_iff in Hu as (i & <- & _). apply unitId_nonempty.
Qed.

(** The inventory bins of one diameter group use each unit of the relevant
    inventory at most once: their stock lengths, with repetitions, are among
    the lengths of the units. *)
Lemma optimizeDiaGroup_inventory random reqs stock settings inventory n :
  invLens (optimizeDiaGroup random reqs stock settings inventory n).1
    ⊆+ map oc_len (flattenInventory inventory).
Proof.
  unfold optimizeDiaGroup. destruct (inventoryStrategy settings).
  - pose proof (consumeInventorySequential_inventory reqs inventory settings)
      as [Hall Hsub].
    destruct (consumeInventorySequential _ _ _) as [invBins [|r rest]]; cbn [fst] in *.
    { by rewrite invLens_all. }
    destruct (performMonteCarlo_is_pass random (r :: rest)
                (map newStockOption stock) settings n) as [l Hl].
    destruct (performMonteCarlo _ _ _ _ _) as [resBins n']. cbn [fst] in *.
    rewrite invLens_app, invLens_all by done. subst resBins.
    assert (Hids : IdsOk (map newStockOption stock)).
    { intros o (s & -> & _)%list_elem_of_fmap. done. }
    pose proof (packingPass_inventory l _ (kerfMm settings) Hids) as Hnew.
    rewrite filter_newStock in Hnew.
    apply submseteq_nil_r in Hnew. by rewrite Hnew, app_nil_r.
  - set (opts := map newStockOption stock ++ _).
    destruct (performMonteCarlo_is_pass random reqs opts settings n) as [l Hl].
    rewrite Hl.
    pose proof (packingPass_inventory l opts (kerfMm settings)) as Hsub.
    subst opts. rewrite filter_app, filter_newStock, filter_inventoryOption in Hsub.
    simpl in Hsub. rewrite <- list_fmap_compose in Hsub.
    apply Hsub.
    intros o [(s & -> & _)%list_elem_of_fmap | (u & -> & Hu)%list_elem_of_fmap]%elem_of_app;
      [done|].
    intros _. simpl. apply flattenInventory_ids in Hu.
    rewrite bool_decide_eq_false_2 by done. by eexists.
Qed.

(** ** The pattern key tells new stock from inventory and one stock length
       from another *)

Lemma barFree_prefix s1 : forall s2 r1 r2,
  barFree s1 -> barFree s2 ->
  (s1 +:+ String "|" r1 = s2 +:+ String "|" r2)%string -> s1 = s2.
Proof.
  induction s1 as [|a s1 IH]; intros [|b s2] r1 r2 H1 H2 E; simpl in *.
  - done.
  - injection E as E _. destruct H2 as [H2 _]. congruence.
  - injection E as E _. destruct H1 as [H1 _]. congruence.
  - injection E as -> E. f_equal. destruct H1, H2. by eapply IH.
Qed.

Lemma barFree_uint d : barFree (NilEmpty.string_of_uint d).
Proof. induction d; simpl; (done || by split). Qed.

Lemma barFree_string_of_Z z : barFree (string_of_Z z).
Proof.
  unfold string_of_Z, NilZero.string_of_int, NilZero.string_of_uint.
  destruct (Z.to_int z) as [d|d]; [|split; [done|]];
    (destruct d; [by split | apply barFree_uint..]).
Qed.

Lemma string_of_Z_inj a b : string_of_Z a = string_of_Z b -> a = b.
Proof.
  unfold string_of_Z. intros E. apply DecimalZ.to_int_inj.
  assert (Hnn : forall z, Z.to_int z <> Decimal.Pos Decimal.Nil /\
                          Z.to_int z <> Decimal.Neg Decimal.Nil).
  { intros [|p|p]; simpl; (split; [|]); try done;
      intros [= H]; by apply Unsigned.to_uint_nonnil in H. }
  apply (f_equal NilZero.int_of_string) in E.
  destruct (Hnn a), (Hnn b).
  rewrite !NilZero.isi in E by done. by injection E.
Qed.

Lemma patternKey_inj b1 b2 :
  patternKey b1 = patternKey b2 ->
  isInventory b1 = isInventory b2 /\ stockLength b1 = stockLength b2.
Proof.
  unfold patternKey. intros E.
  assert (Hinv : isInventory b1 = isInventory b2).
  { destruct (isInventory b1), (isInventory b2); try done; by injection E. }
  split; [done|]. rewrite Hinv in E.
  assert (E' : (string_of_Z (stockLength b1) +:+
                  String "|" (joinWith "-" (map string_of_Z (sortDesc (cuts b1)))))%string
             = (string_of_Z (stockLength b2) +:+
                  String "|" (joinWith "-" (map string_of_Z (sortDesc (cuts b2)))))%string).
  { destruct (isInventory b2); simpl in E; by injection E. }
  apply barFree_prefix in E'; [|apply barFree_string_of_Z..].
  by apply string_of_Z_inj.
Qed.

(** ** Counting bins through the pattern map *)

Lemma mapUpsert_sum {K V} `{EqDecision K} (g : V -> nat) (k : K) fresh upd d m :
  g fresh = d ->
  (forall v, (k, v) ∈ m -> g (upd v) = (g v + d)%nat) ->
  sum_list_with (fun kv => g kv.2) (mapUpsert k fresh upd m)
  = (sum_list_with (fun kv => g kv.2) m + d)%nat.
Proof.
  intros Hfresh. induction m as [|[k' v] m IH]; intros Hupd; simpl.
  - lia.
  - case_decide as Hk; simpl.
    + subst k'. rewrite (Hupd v) by apply list_elem_of_here. lia.
    + rewrite IH; [lia|]. intros v' Hv'. apply Hupd. by apply list_elem_of_further.
Qed.

Lemma mapUpsert_elem {K V} `{EqDecision K} (k : K) fresh upd m k' (v' : V) :
  (k', v') ∈ mapUpsert k fresh upd m ->
  (k', v') ∈ m \/ (k' = k /\ (v' = fresh \/ exists v, (k, v) ∈ m /\ v' = upd v)).
Proof.
  induction m as [|[k0 v0] m IH]; simpl.
  - intros [= -> ->]%list_elem_of_singleton. right. split; [done | by left].
  - case_decide as Hk.
    + subst k0. intros [E|Hin]%elem_of_cons.
      * injection E as -> ->. right. split; [done|]. right. exists v0.
        split; [apply list_elem_of_here | done].
      * left. by apply list_elem_of_further.
    + intros [E|Hin]%elem_of_cons.
      * left. rewrite E. apply list_elem_of_here.
      * apply IH in Hin as [Hin|(-> & [->|(v & Hv & ->)])].
        -- left. by apply list_elem_of_further.
        -- right. split; [done | by left].
        -- right. split; [done|]. right. exists v.
           split; [by apply list_elem_of_further | done].
Qed.

Lemma mapUpsert_PatternOf seen b m :
  (forall k p, (k, p) ∈ m -> PatternOf seen k p) ->
  forall k p,
    (k, p) ∈ mapUpsert (patternKey b) (patternOfBin b) bumpCount m ->
    PatternOf (seen ++ [b]) k p.
Proof.
  intros Hm.
  assert (Hweak : forall k p, PatternOf seen k p -> PatternOf (seen ++ [b]) k p).
  { intros k p (b0 & ? & ?). exists b0. split; [|done]. apply elem_of_app. by left. }
  intros k p [Hin|(-> & [->|(v & Hv & ->)])]%mapUpsert_elem.
  - by apply Hweak, Hm.
  - exists b. split; [|done]. apply elem_of_app. right. apply list_elem_of_here.
  - apply Hm in Hv. apply Hweak.
    destruct Hv as (b0 & ? & ? & ? & ? & ? & ?). exists b0. by split_and!.
Qed.

Lemma patternMap_fold_spec bs : forall m seen,
  (forall k p, (k, p) ∈ m -> PatternOf seen k p) ->
  forall k p,
    (k, p) ∈ fold_left (fun m b => mapUpsert (patternKey b) (patternOfBin b) bumpCount m) bs m ->
    PatternOf (seen ++ bs) k p.
Proof.
  induction bs as [|b bs IH]; intros m seen Hm k p Hin; simpl in Hin.
  - rewrite app_nil_r. by apply Hm.
  - replace (seen ++ b :: bs) with ((seen ++ [b]) ++ bs) by by rewrite <- app_assoc.
    eapply IH; [|exact Hin]. by apply mapUpsert_PatternOf.
Qed.

Lemma patternMapOf_spec bs k p : (k, p) ∈ patternMapOf bs -> PatternOf bs k p.
Proof.
  intros Hin. apply (patternMap_fold_spec bs [] []); [|done].
  by intros ? ? ?%elem_of_nil.
Qed.

Lemma patternMap_fold_count sel bs : forall m seen,
  (forall k p, (k, p) ∈ m -> PatternOf seen k p) ->
  sum_list_with (fun kv => patternWeight sel kv.2)
     (fold_left (fun m b => mapUpsert (patternKey b) (patternOfBin b) bumpCount m) bs m)
  = (sum_list_with (fun kv => patternWeight sel kv.2) m
     + sum_list_with (binWeightIn sel) bs)%nat.
Proof.
  induction bs as [|b bs IH]; intros m seen Hm; simpl; [lia|].
  rewrite (IH _ (seen ++ [b])) by by apply mapUpsert_PatternOf.
  rewrite (mapUpsert_sum (patternWeight sel) _ _ _ (binWeightIn sel b)); [lia | done |].
  intros v Hv. apply Hm in Hv as (b0 & _ & Hkey & _ & _ & Hstock & Hinv).
  apply patternKey_inj in Hkey as [Hi Hs].
  unfold patternWeight, binWeightIn, invWeight. simpl.
  rewrite Hstock, Hinv, <- Hi, <- Hs. case_match; lia.
Qed.

Lemma patternMapOf_count sel bs :
  sum_list_with (fun kv => patternWeight sel kv.2) (patternMapOf bs)
  = sum_list_with (binWeightIn sel) bs.
Proof.
  unfold patternMapOf. rewrite (patternMap_fold_count sel bs [] []); [done|].
  by intros ? ? ?%elem_of_nil.
Qed.

Lemma binWeight_invLens sel bs :
  sum_list_with (binWeightIn sel) bs
  = length (filter (fun l => sel l = true) (invLens bs)).
Proof.
  unfold invLens, binWeightIn, invWeight.
  induction bs as [|b bs IH]; [done|].
  rewrite (filter_cons _ b bs). cbn [sum_list_with]. rewrite IH.
  destruct (decide (isInventory b = true)) as [Hi|Hi].
  - rewrite Hi. cbn [map andb]. rewrite filter_cons.
    destruct (decide (sel (stockLength b) = true)) as [Hs|Hs].
    + by rewrite Hs.
    + apply not_true_is_false in Hs. by rewrite Hs.
  - apply not_true_is_false in Hi. by rewrite Hi.
Qed.

Lemma filter_submseteq_mono {A} (P : A -> Prop) `{forall x, Decision (P x)} l k :
  l ⊆+ k -> filter P l ⊆+ filter P k.
Proof.
  induction 1 as [|x l k _ IH|x y l|x l k _ IH|l k m _ IH1 _ IH2].
  - done.
  - rewrite !filter_cons. case_decide; [by apply submseteq_skip | done].
  - rewrite !filter_cons. repeat case_decide; try done. apply submseteq_swap.
  - rewrite filter_cons. case_decide; [by apply submseteq_cons | done].
  - by etrans.
Qed.

(** ** What the inventory offers *)

Lemma invUsed_app sel xs ys : invUsed sel (xs ++ ys) = (invUsed sel xs + invUsed sel ys)%nat.
Proof. apply sum_list_with_app. Qed.

Lemma filter_const_length {A} (sel : Z -> bool) (c : Z) (l : list A) :
  length (filter (fun x => sel x = true) (map (fun _ => c) l))
  = if sel c then length l else 0%nat.
Proof.
  induction l as [|x l IH]; simpl; [by case_match|].
  rewrite filter_cons. destruct (sel c) eqn:E; case_decide; simpl; congruence.
Qed.

Lemma flattenInventory_count sel d inventory :
  Forall (fun inv => inv_dia inv = d) inventory ->
  length (filter (fun l => sel d l = true) (map oc_len (flattenInventory inventory)))
  = invAvailable sel inventory.
Proof.
  unfold flattenInventory, invAvailable.
  induction 1 as [|inv inventory Hd _ IH]; [done|]. simpl.
  rewrite map_app, filter_app, length_app, IH. f_equal.
  unfold unitsOf. rewrite map_map. simpl.
  rewrite (filter_const_length (sel d)), length_seq. by rewrite Hd.
Qed.

Lemma planItemsOf_used sel d settings bs :
  invUsed sel (planItemsOf d settings bs)
  = length (filter (fun l => sel d l = true) (invLens bs)).
Proof.
  rewrite <- binWeight_invLens, <- patternMapOf_count.
  unfold invUsed, planItemsOf.
  induction (patternMapOf bs) as [|[k p] m IH]; [done|]. simpl.
  rewrite IH. f_equal. unfold patternWeight, invWeight.
  by destruct (pt_isInventory p).
Qed.

(** The inventory bars of one diameter in the plan are covered by the units
    of that diameter. *)
Lemma group_used_le random sel d reqs stock settings inventory n :
  Forall (fun inv => inv_dia inv = d) inventory ->
  (invUsed sel (planItemsOf d settings
     (optimizeDiaGroup random reqs stock settings inventory n).1)
   <= invAvailable sel inventory)%nat.
Proof.
  intros Hd. rewrite planItemsOf_used, <- (flattenInventory_count sel d) by done.
  apply submseteq_length, filter_submseteq_mono, optimizeDiaGroup_inventory.
Qed.

(** ** The whole cutting plan *)

Lemma diaStep_plan random allRequests catalog settings inventory acc dia :
  cuttingPlan (diaStep random allRequests catalog settings inventory acc dia)
  = cuttingPlan acc ++
    planItemsOf dia settings
      (groupBins random allRequests catalog settings inventory dia (rngCalls acc)).
Proof.
  unfold diaStep, groupBins. by destruct (optimizeDiaGroup _ _ _ _ _ _).
Qed.

Lemma diaStep_input random allRequests catalog settings inventory acc dia :
  globalTotalInputLength (diaStep random allRequests catalog settings inventory acc dia)
  = fold_left (fun s b => s + stockLength b)
      (groupBins random allRequests catalog settings inventory dia (rngCalls acc))
      (globalTotalInputLength acc).
Proof.
  unfold diaStep, groupBins. by destruct (optimizeDiaGroup _ _ _ _ _ _).
Qed.

Lemma fold_diaStep_items random allRequests catalog settings inventory dias :
  forall acc item,
  item ∈ cuttingPlan
    (fold_left (diaStep random allRequests catalog settings inventory) dias acc) ->
  item ∈ cuttingPlan acc \/
  exists dia n, dia ∈ dias /\
    item ∈ planItemsOf dia settings
      (groupBins random allRequests catalog settings inventory dia n).
Proof.
  induction dias as [|d dias IH]; intros acc item Hin; simpl in Hin; [by left|].
  apply IH in Hin as [Hin|(dia & n & Hd & Hin)].
  - rewrite diaStep_plan in Hin. apply elem_of_app in Hin as [?|Hin]; [by left|].
    right. exists d, (rngCalls acc). split; [apply list_elem_of_here | done].
  - right. exists dia, n. split; [by apply list_elem_of_further | done].
Qed.

Lemma fold_diaStep_used random sel allRequests catalog settings inventory dias :
  forall acc,
  (invUsed sel (cuttingPlan
     (fold_left (diaStep random allRequests catalog settings inventory) dias acc))
   <= invUsed sel (cuttingPlan acc) +
      sum_list_with
        (fun d => invAvailable sel (filter (fun i => inv_dia i = d) inventory)) dias)%nat.
Proof.
  induction dias as [|d dias IH]; intros acc; simpl; [lia|].
  etrans; [apply IH|]. rewrite diaStep_plan, invUsed_app.
  pose proof (group_used_le random sel d
    (filter (fun r => cr_dia r = d) allRequests) (getStockOptions d catalog) settings
    (filter (fun i => inv_dia i = d) inventory) (rngCalls acc)) as Hgroup.
  unfold groupBins. specialize (Hgroup ltac:(by apply Forall_forall;
    intros ? [? ?]%list_elem_of_filter)).
  lia.
Qed.

Lemma single_dia_le (a : nat) (x : Z) dias :
  NoDup dias ->
  (sum_list_with (fun d => if decide (x = d) then a else 0) dias <= a)%nat.
Proof.
  induction 1 as [|d dias Hnin _ IH]; simpl; [lia|].
  case_decide; [|lia]. subst d.
  assert (sum_list_with (fun d => if decide (x = d) then a else 0%nat) dias = 0%nat)
    as ->; [|lia].
  clear IH. induction dias as [|d dias IH]; simpl; [done|].
  apply not_elem_of_cons in Hnin as [? ?]. rewrite IH by done. by case_decide.
Qed.

Lemma by_dia_le sel inventory dias :
  NoDup dias ->
  (sum_list_with
     (fun d => invAvailable sel (filter (fun i => inv_dia i = d) inventory)) dias
   <= invAvailable sel inventory)%nat.
Proof.
  intros Hnd. unfold invAvailable.
  induction inventory as [|inv inventory IH]; simpl.
  - clear. induction dias as [|d dias IHd]; simpl in *; [done | lia].
  - set (a := if sel (inv_dia inv) (inv_lengthMm inv)
              then Z.to_nat (quantity inv) else 0%nat).
    pose proof (single_dia_le a (inv_dia inv) dias Hnd) as Hone.
    etrans; [|apply Nat.add_le_mono; [exact Hone | exact IH]].
    clear. induction dias as [|d dias IHd]; simpl; [lia|].
    rewrite filter_cons. case_decide; simpl; fold a; lia.
Qed.

Lemma uniqueDias_NoDup reqs : NoDup (uniqueDias reqs).
Proof.
  unfold uniqueDias, sortAsc.
  rewrite (sortStable_perm (fun a b => a <=? b)). apply NoDup_remove_dups.
Qed.

(** ** Runs and plan items *)

Lemma planRun_bounds run rules catalog settings ws st :
  1 <= roundingStepMm settings ->
  planRun run rules catalog settings ws = Finished st ->
  PiecesBounded (maxStockOf (run_dia run) catalog) (groupPieces st).
Proof.
  intros Hstep. unfold planRun. case_match; [done|]. intros Hrun.
  apply spliceLoop_bounds in Hrun as (new & Hnew & Hb & _); [|done].
  simpl in Hnew. by rewrite Hnew.
Qed.

Lemma planRun_conservation run rules catalog settings ws st :
  1 <= roundingStepMm settings ->
  0 <= getLapLength (run_dia run) (lapCase run) rules ->
  1000 <= maxStockOf (run_dia run) catalog ->
  0 < totalLengthMm run ->
  planRun run rules catalog settings ws = Finished st ->
  groupPieces st <> [] /\
  sumLen (groupPieces st)
    - (Z.of_nat (length (groupPieces st)) - 1) * getLapLength (run_dia run) (lapCase run) rules
  = totalLengthMm run.
Proof.
  intros Hstep Hlap HL Hpos. unfold planRun. case_match; [done|]. intros Hrun.
  apply spliceLoop_conservation in Hrun as (new & Hnew & Hne & Hsum); try done.
  simpl in Hnew. by rewrite Hnew.
Qed.


Lemma generateSplicePlanFrom_spec runs rules catalog settings : forall acc sp,
  generateSplicePlanFrom runs rules catalog settings acc = Some (Ok sp) ->
  exists items,
    plan sp = plan acc ++ items /\
    Forall2 (fun run item => exists ws st,
               planRun run rules catalog settings ws = Finished st /\
               item = itemOfRun run (groupPieces st)) runs items.
Proof.
  induction runs as [|run runs IH]; intros acc sp H; simpl in H.
  - injection H as <-. exists []. by rewrite app_nil_r.
  - destruct (planRun run rules catalog settings (sp_warnings acc)) as [st| |] eqn:E;
      [|done..].
    apply IH in H as (items & Hplan & Hall). simpl in Hplan.
    exists (itemOfRun run (groupPieces st) :: items).
    split; [by rewrite Hplan, <- app_assoc|].
    constructor; [by exists (sp_warnings acc), st | done].
Qed.

Lemma generateSplicePlan_lookup runs rules catalog settings sp i run item :
  generateSplicePlan runs rules catalog settings = Some (Ok sp) ->
  runs !! i = Some run -> plan sp !! i = Some item ->
  exists ws st,
    planRun run rules catalog settings ws = Finished st /\
    item = itemOfRun run (groupPieces st).
Proof.
  intros H Hrun Hitem. unfold generateSplicePlan in H.
  apply generateSplicePlanFrom_spec in H as (items & Hplan & Hall).
  simpl in Hplan. rewrite Hplan in Hitem.
  by apply (Forall2_lookup_lr _ _ _ _ _ _ Hall Hrun Hitem).
Qed.

(** ** Ties between supply options *)

Lemma bestFitOption_app l1 l2 used needed : forall best,
  bestFitOption (l1 ++ l2) used needed best
  = bestFitOption l2 used needed (bestFitOption l1 used needed best).
Proof.
  induction l1 as [|o l1 IH]; intros best; simpl; [done|].
  by destruct (skipUsed used o).
Qed.

Lemma bestFitOption_le opts used needed : forall best o r,
  bestFitOption opts used needed best = Some (o, r) ->
  (forall o0 r0, best = Some (o0, r0) -> r <= r0) /\
  (forall o', o' ∈ opts -> skipUsed used o' = false ->
     0 <= opt_len o' - needed -> r <= opt_len o' - needed).
Proof.
  induction opts as [|opt opts IH]; intros best o r H; simpl in H.
  - subst best. split; [by intros ? ? [= _ ->] | by intros ? ?%elem_of_nil].
  - destruct (skipUsed used opt) eqn:Hskip.
    { apply IH in H as [Hbest Htail]. split; [done|].
      intros o' [->|Hin]%elem_of_cons Hns Hfit; [congruence | by apply Htail]. }
    apply IH in H as [Hbest Htail].
    destruct (Z.leb_spec 0 (opt_len opt - needed)) as [Hfit|Hnofit]; simpl in Hbest.
    + destruct best as [[o0 r0]|].
      * destruct (Z.ltb_spec (opt_len opt - needed) r0) as [Hlt|Hge].
        -- specialize (Hbest _ _ eq_refl). split.
           ++ intros ? ? [= _ <-]. lia.
           ++ intros o' [->|Hin]%elem_of_cons ? ?; [done | by apply Htail].
        -- specialize (Hbest _ _ eq_refl). split.
           ++ by intros ? ? [= _ <-].
           ++ intros o' [->|Hin]%elem_of_cons ? ?; [lia | by apply Htail].
      * specialize (Hbest _ _ eq_refl). split; [done|].
        intros o' [->|Hin]%elem_of_cons ? ?; [done | by apply Htail].
    + split; [done|].
      intros o' [->|Hin]%elem_of_cons ? ?; [lia | by apply Htail].
Qed.

Lemma bestFitOption_keep opts used needed o r :
  Forall (fun o' => skipUsed used o' = true \/ opt_len o' - needed < 0 \/
                    r <= opt_len o' - needed) opts ->
  bestFitOption opts used needed (Some (o, r)) = Some (o, r).
Proof.
  induction 1 as [|opt opts Hopt _ IH]; simpl; [done|].
  destruct (skipUsed used opt) eqn:Hskip; [done|].
  destruct Hopt as [?|[Hno|Hge]]; [congruence| |].
  - destruct (Z.leb_spec 0 (opt_len opt - needed)); [lia | done].
  - destruct (Z.leb_spec 0 (opt_len opt - needed)); simpl; [|done].
    destruct (Z.ltb_spec (opt_len opt - needed) r); [lia | done].
Qed.

Lemma skipUsed_new used s : skipUsed used (newStockOption s) = false.
Proof. done. Qed.

(** Whatever is used already, a new-stock length that fits at least as
    tightly as every inventory unit that fits and is still unused wins the
    scan of the combined pool. *)
Lemma chooseStock_pool stock units used needed s :
  s ∈ stock -> needed <= s ->
  (forall u, u ∈ units -> skipUsed used (inventoryOption u) = false ->
     needed <= oc_len u -> s <= oc_len u) ->
  exists s',
    s' ∈ stock /\ needed <= s' <= s /\
    (forall s0, s0 ∈ stock -> needed <= s0 -> s' <= s0) /\
    chooseStock (map newStockOption stock ++ map inventoryOption units) used needed
    = Some (newStockOption s').
Proof.
  intros Hs Hfit Htie. unfold chooseStock. rewrite bestFitOption_app.
  destruct (bestFitOption (map newStockOption stock) used needed None)
    as [[o r]|] eqn:Hnew.
  - pose proof Hnew as Hmin%bestFitOption_le.
    apply bestFitOption_spec in Hnew as [|(Hin & _ & -> & Hr)]; [done|].
    destruct Hmin as [_ Hmin].
    assert (Hrs : opt_len o - needed <= s - needed).
    { apply (Hmin (newStockOption s)); [|apply skipUsed_new | simpl; lia].
      apply list_elem_of_fmap. by exists s. }
    rewrite bestFitOption_keep.
    + apply list_elem_of_fmap in Hin as (s' & -> & Hs'). simpl in *.
      exists s'. split_and!; [done | lia | lia | | done].
      intros s0 Hs0 Hfit0.
      assert (s' - needed <= opt_len (newStockOption s0) - needed); [|simpl in *; lia].
      apply Hmin; [|apply skipUsed_new | simpl; lia].
      apply list_elem_of_fmap. by exists s0.
    + apply Forall_forall. intros o' (u & -> & Hu)%list_elem_of_fmap.
      destruct (skipUsed used (inventoryOption u)) eqn:Hskip; [by left|]. simpl.
      destruct (Z.le_gt_cases needed (oc_len u)) as [Hu'|]; [|right; left; lia].
      right. right. specialize (Htie u Hu Hskip Hu'). lia.
  - apply bestFitOption_none_inv in Hnew. rewrite Forall_forall in Hnew.
    destruct (Hnew (newStockOption s)) as [Hskip|Hlt].
    + apply list_elem_of_fmap. by exists s.
    + by rewrite skipUsed_new in Hskip.
    + simpl in Hlt. lia.
Qed.

Lemma mcLoop_const random iterations reqs opts kerf B :
  (forall n, bins (packingPass (shuffle random reqs n).1 opts kerf) = B) ->
  forall st, bestBins st = B ->
  bestBins (mcLoop random iterations reqs opts kerf st) = B.
Proof.
  intros Hpass. induction iterations as [|k IH]; intros st Hst; simpl; [done|].
  specialize (Hpass (calls st)).
  destruct (shuffle random reqs (calls st)) as [shuffled n']. simpl in Hpass.
  apply IH. by case_match.
Qed.

(** ** Every request is cut when there is new stock *)

Lemma cuts_alter bs : forall j b needed l,
  bs !! j = Some b ->
  concat (map cuts (alter (addCut needed l) j bs)) ≡ₚ l :: concat (map cuts bs).
Proof.
  induction bs as [|b0 bs IH]; intros [|j] b needed l Hj; try done.
  - change (alter (addCut needed l) 0%nat (b0 :: bs)) with (addCut needed l b0 :: bs).
    simpl. rewrite <- app_assoc. simpl. symmetry. apply Permutation_middle.
  - change (alter (addCut needed l) (S j) (b0 :: bs))
      with (b0 :: alter (addCut needed l) j bs).
    simpl. rewrite (IH j b needed l Hj). symmetry. apply Permutation_middle.
Qed.

Lemma packStep_serves opts kerf st req o :
  o ∈ opts -> opt_isInventory o = false ->
  concat (map cuts (ps_bins (packStep opts kerf st req)))
    ≡ₚ len req :: concat (map cuts (ps_bins st)).
Proof.
  intros Hin Hnew. unfold packStep.
  destruct (bestFitBin _ _ _ _) as [[j rem]|] eqn:Hbin; simpl.
  - apply bestFitBin_spec in Hbin as [|(b & Hb & _)]; [done|].
    rewrite Nat.sub_0_r in Hb. by eapply cuts_alter.
  - destruct (chooseStock _ _ _) as [o'|] eqn:Hch; simpl.
    + rewrite map_app, concat_app. simpl. by rewrite <- Permutation_cons_append.
    + unfold chooseStock in Hch.
      destruct (bestFitOption _ _ _ _) as [[? ?]|]; [done|].
      by destruct (largestNewStock_some opts o Hin Hnew) as [? Hsome]; congruence.
Qed.

(** With a new-stock option in the supply, a pass cuts every request: the
    cuts of its bins are the requested lengths, in some order. *)
Lemma packingPass_serves_all reqs opts kerf o :
  o ∈ opts -> opt_isInventory o = false ->
  concat (map cuts (bins (packingPass reqs opts kerf))) ≡ₚ map len reqs.
Proof.
  intros Hin Hnew. unfold packingPass. cbn [bins].
  assert (H : forall st,
    concat (map cuts (ps_bins (fold_left (packStep opts kerf) reqs st)))
      ≡ₚ map len reqs ++ concat (map cuts (ps_bins st))).
  { induction reqs as [|r reqs IH]; intros st; simpl; [done|].
    rewrite IH, (packStep_serves opts kerf st r o Hin Hnew).
    symmetry. apply Permutation_middle. }
  rewrite H. simpl. by rewrite app_nil_r.
Qed.

(** The supply of a solve always holds a new-stock option. *)
Lemma supply_has_new_stock dia catalog units :
  exists o,
    o ∈ map newStockOption (getStockOptions dia catalog) ++ map inventoryOption units /\
    opt_isInventory o = false.
Proof.
  pose proof (getStockOptions_nonempty dia catalog) as Hne.
  destruct (getStockOptions dia catalog) as [|s stock]; [done|].
  exists (newStockOption s). split; [apply list_elem_of_here | done].
Qed.

(** ** The open bins that a request does not fit *)

Lemma bestFitBin_mono bs needed : forall i best,
  is_Some best -> is_Some (bestFitBin i bs needed best).
Proof.
  induction bs as [|b bs IH]; intros i best Hbest; simpl; [done|].
  apply IH. by case_match.
Qed.

Lemma bestFitBin_none_inv bs needed : forall i,
  bestFitBin i bs needed None = None ->
  Forall (fun b => remaining b < needed) bs.
Proof.
  induction bs as [|b bs IH]; intros i H; simpl in H; [constructor|].
  destruct (Z.leb_spec 0 (remaining b - needed)); simpl in H.
  - pose proof (bestFitBin_mono bs needed (S i) (Some (i, remaining b - needed))
                  ltac:(by eexists)) as [? Hs].
    congruence.
  - constructor; [lia | by eapply IH].
Qed.

(** ** The Monte Carlo search runs a pass over the requests in some order *)

Lemma insert_swap_perm {A} (t : list A) : forall j x a,
  t !! j = Some x -> x :: <[j := a]> t ≡ₚ a :: t.
Proof.
  induction t as [|y t IH]; intros [|j] x a Hj; try done.
  - injection Hj as ->. apply Permutation_swap.
  - simpl in Hj. change (<[S j := a]> (y :: t)) with (y :: <[j := a]> t).
    rewrite (Permutation_swap y x), (IH j x a Hj). apply Permutation_swap.
Qed.

Lemma swap_perm {A} (s : list A) k j : swap s k j ≡ₚ s.
Proof.
  unfold swap.
  destruct (s !! k) as [sk|] eqn:Hk; [|done].
  destruct (s !! j) as [sj|] eqn:Hj; [|done].
  assert (Ht : <[k := sj]> s !! j = Some sj).
  { destruct (decide (k = j)) as [->|Hne].
    - apply list_lookup_insert_eq. by eapply lookup_lt_Some.
    - by rewrite list_lookup_insert_ne. }
  apply (Permutation_cons_inv (a := sj)).
  rewrite (insert_swap_perm _ j sj sk Ht).
  by apply insert_swap_perm.
Qed.

Lemma fisherYates_facts {A} random : forall k (s : list A) n,
  (fisherYates random k s n).1 ≡ₚ s /\
  (fisherYates random k s n).2 = (n + k)%nat.
Proof.
  induction k as [|k IH]; intros s n; cbn [fisherYates]; [split; simpl; [done | lia]|].
  destruct (IH (swap s (S k)
    (Z.to_nat (Qfloor (random n * inject_Z (Z.of_nat (S k) + 1))%Q))) (S n))
    as [Hp Hn].
  split; [by rewrite Hp, swap_perm | lia].
Qed.

Lemma mcLoop_facts random iterations reqs opts kerf : forall st,
  (exists l, l ≡ₚ reqs /\ bestBins st = bins (packingPass l opts kerf)) ->
  minWaste st = wasteOf (bestBins st) ->
  let st' := mcLoop random iterations reqs opts kerf st in
  (exists l, l ≡ₚ reqs /\ bestBins st' = bins (packingPass l opts kerf)) /\
  minWaste st' = wasteOf (bestBins st') /\
  minWaste st' <= minWaste st /\
  calls st' = (calls st + iterations * (length reqs - 1))%nat.
Proof.
  induction iterations as [|it IH]; intros st Hl Hw; cbn zeta.
  { cbn [mcLoop]. split_and!; [done | done | lia | lia]. }
  cbn [mcLoop].
  destruct (fisherYates_facts random (length reqs - 1) reqs (calls st)) as [Hp Hn].
  fold (shuffle random reqs (calls st)) in Hp, Hn.
  destruct (shuffle random reqs (calls st)) as [sh n'].
  cbn [fst snd] in Hp, Hn.
  destruct (Z.ltb_spec (wasteOf (bins (packingPass sh opts kerf))) (minWaste st)) as [Hlt|Hge].
  - destruct (IH {| bestBins := bins (packingPass sh opts kerf);
                    minWaste := wasteOf (bins (packingPass sh opts kerf));
                    calls := n' |}) as (H1 & H2 & H3 & H4).
    + by exists sh.
    + done.
    + cbn [minWaste calls] in H3, H4. split_and!; [done | done | lia | lia].
  - destruct (IH {| bestBins := bestBins st; minWaste := minWaste st; calls := n' |})
      as (H1 & H2 & H3 & H4).
    + done.
    + done.
    + cbn [minWaste calls] in H3, H4. split_and!; [done | done | lia | lia].
Qed.

Lemma performMonteCarlo_facts random reqs opts settings n :
  let res := performMonteCarlo random reqs opts settings n in
  (exists l, l ≡ₚ reqs /\ res.1 = bins (packingPass l opts (kerfMm settings))) /\
  wasteOf res.1
    <= wasteOf (bins (packingPass (sortRequestsDesc reqs) opts (kerfMm settings))) /\
  res.2 = (n + iterationsOf (optimizationLevel settings) * (length reqs - 1))%nat.
Proof.
  cbn zeta. unfold performMonteCarlo. cbn [fst snd].
  edestruct (mcLoop_facts random (iterationsOf (optimizationLevel settings)) reqs opts
    (kerfMm settings)
    {| bestBins := bins (packingPass (sortRequestsDesc reqs) opts (kerfMm settings));
       minWaste := wasteOf (bins (packingPass (sortRequestsDesc reqs) opts (kerfMm settings)));
       calls := n |}) as (H1 & H2 & H3 & H4).
  - exists (sortRequestsDesc reqs). split; [|done]. apply sortStable_perm.
  - done.
  - cbn [minWaste calls bestBins] in *. rewrite <- H2. done.
Qed.

(** ** A step of a pass over the pool of the MIXED strategy *)

Lemma invLens_nil bs : invLens bs = [] -> Forall (fun b => isInventory b = false) bs.
Proof.
  unfold invLens. induction bs as [|b bs IH]; [constructor|].
  rewrite filter_cons. destruct (isInventory b) eqn:Hinv.
  - by rewrite decide_True.
  - rewrite decide_False by done. intros H. constructor; [done | by apply IH].
Qed.

(** In whatever state the pass is, a request for which a new-stock length
    fits at least as tightly as every unused inventory unit that fits
    consumes no inventory: it goes to an open bin that it fits, or a bin is
    opened on a new-stock length. *)
Lemma packStep_pool_tie stock units kerf st req s :
  s ∈ stock ->
  len req + kerf <= s ->
  (forall u, u ∈ units -> skipUsed (ps_used st) (inventoryOption u) = false ->
     len req + kerf <= oc_len u -> s <= oc_len u) ->
  let opts := map newStockOption stock ++ map inventoryOption units in
  let st' := packStep opts kerf st req in
  ps_used st' = ps_used st /\
  invLens (ps_bins st') = invLens (ps_bins st) /\
  ((exists j b, ps_bins st !! j = Some b /\ len req + kerf <= remaining b /\
      ps_bins st' = alter (addCut (len req + kerf) (len req)) j (ps_bins st)) \/
   (exists s', s' ∈ stock /\ len req + kerf <= s' <= s /\
      (forall s0, s0 ∈ stock -> len req + kerf <= s0 -> s' <= s0) /\
      Forall (fun b => remaining b < len req + kerf) (ps_bins st) /\
      ps_bins st' = ps_bins st ++
        [{| stockLength := s'; remaining := s' - (len req + kerf);
            cuts := [len req]; isInventory := false |}])).
Proof.
  intros Hs Hfit Htie. cbn zeta. unfold packStep.
  destruct (bestFitBin 0 (ps_bins st) (len req + kerf) None) as [[j rem]|] eqn:Hbin.
  - apply bestFitBin_spec in Hbin as [|(b & Hb & _ & -> & Hrem)]; [done|].
    rewrite Nat.sub_0_r in Hb. cbn [ps_bins ps_used].
    split_and!; [done | by apply invLens_alter |].
    left. exists j, b. split_and!; [done | lia | done].
  - apply bestFitBin_none_inv in Hbin.
    destruct (chooseStock_pool stock units (ps_used st) (len req + kerf) s Hs Hfit Htie)
      as (s' & Hs' & Hlen & Hleast & ->).
    cbn [ps_bins ps_used newStockOption opt_len opt_isInventory markUsed].
    split_and!; [done | |].
    + rewrite invLens_app. unfold invLens at 2.
      rewrite filter_cons_False by (simpl; congruence). simpl. by rewrite app_nil_r.
    + right. by exists s'.
Qed.

(** ** Why the conservation of length needs its side conditions *)

(** With a stock shorter than 1000 the floor of 1000 carries a cut past the
    end of the run: a run of 901 on a stock of 900 gets one piece of 1000. *)
Lemma short_stock_overshoots :
  exists st,
    planRun (beamRun 901 []) (lapRule 0) shortStock (defaultSettings FAST SEQUENTIAL) []
    = Finished st /\
    map lengthMm (groupPieces st) = [1000] /\ remainingTotal st = -99.
Proof. eexists. split; [vm_compute; reflexivity|]. by split. Qed.

(** With a negative lap a full-length cut advances past the end of the run. *)
Lemma negative_lap_overshoots :
  exists st,
    planRun (beamRun 12001 []) (lapRule (-5)) (stock12 20)
      (defaultSettings FAST SEQUENTIAL) []
    = Finished st /\
    map lengthMm (groupPieces st) = [12000] /\ remainingTotal st = -4.
Proof. eexists. split; [vm_compute; reflexivity|]. by split. Qed.

(** * The claims *)

(** ** C1 *)

(** C1, counterexample: a run of length 0 (lap 1000, stock 12000, step 1) is
    planned without error and gets no piece, so the sum of the lengths minus
    (n - 1) laps is one lap, 1000, and not 0 within 1. *)
Lemma conservation_fails_for_empty_run :
  planRun (beamRun 0 []) [] (stock12 20) (defaultSettings FAST SEQUENTIAL) []
  = Finished {| groupPieces := []; currentAbsPos := 0; remainingTotal := 0;
                warnings := [] |} /\
  ~ Conserved [] (getLapLength 20 BEAM_TOP []) 0
      (roundingStepMm (defaultSettings FAST SEQUENTIAL)).
Proof.
  split; [reflexivity|].
  unfold Conserved. vm_compute. intros H. by apply H.
Qed.

(** C1, amended: for every run of positive length that the planner processes
    without a fatal error, when the rounding step is at least 1, the lap is
    not negative and the largest stock length is at least 1000, the run gets
    at least one piece and the sum of the piece lengths minus (n - 1) laps
    is exactly [totalLengthMm] (so also within the rounding step). *)
Theorem splice_length_conservation runs rules catalog settings sp i run item :
  generateSplicePlan runs rules catalog settings = Some (Ok sp) ->
  runs !! i = Some run ->
  plan sp !! i = Some item ->
  1 <= roundingStepMm settings ->
  0 <= getLapLength (run_dia run) (lapCase run) rules ->
  1000 <= maxStockOf (run_dia run) catalog ->
  0 < totalLengthMm run ->
  pieces item <> [] /\
  sumLen (pieces item)
    - (Z.of_nat (length (pieces item)) - 1) * getLapLength (run_dia run) (lapCase run) rules
  = totalLengthMm run /\
  Conserved (pieces item) (getLapLength (run_dia run) (lapCase run) rules)
    (totalLengthMm run) (roundingStepMm settings).
Proof.
  intros Hplan Hrun Hitem Hstep Hlap HL Hpos.
  destruct (generateSplicePlan_lookup _ _ _ _ _ _ _ _ Hplan Hrun Hitem)
    as (ws & st & Hst & ->).
  destruct (planRun_conservation _ _ _ _ _ _ Hstep Hlap HL Hpos Hst) as [Hne Hsum].
  simpl. split_and!; [done | done |].
  unfold Conserved. rewrite Hsum. lia.
Qed.

Lemma splice_length_conservation_witness :
  scenarioPieces <> [] /\
  sumLen scenarioPieces - (Z.of_nat (length scenarioPieces) - 1) * 1000 = 20000 /\
  Conserved scenarioPieces 1000 20000 1.
Proof.
  apply (splice_length_conservation [scenarioRun] [] (stock12 20)
           (defaultSettings FAST SEQUENTIAL)
           {| plan := [itemOfRun scenarioRun scenarioPieces]; sp_warnings := [] |}
           0%nat scenarioRun (itemOfRun scenarioRun scenarioPieces)).
  - vm_compute. reflexivity.
  - reflexivity.
  - reflexivity.
  - vm_compute. discriminate.
  - vm_compute. discriminate.
  - vm_compute. discriminate.
  - vm_compute. reflexivity.
Defined.

(** ** C3 *)

(** C3, counterexample: a run of 500 mm is planned as one piece of 500 mm,
    which is shorter than 1000 mm. *)
Lemma short_final_piece :
  planRun (beamRun 500 []) [] (stock12 20) (defaultSettings FAST SEQUENTIAL) []
  = Finished {| groupPieces := [{| lengthMm := 500; p_startMm := 0; p_endMm := 500 |}];
                currentAbsPos := 0; remainingTotal := 0; warnings := [] |} /\
  ~ Forall (fun p => 1000 <= lengthMm p <= maxStockOf 20 (stock12 20))
      [{| lengthMm := 500; p_startMm := 0; p_endMm := 500 |}].
Proof.
  split; [reflexivity|].
  intros H. apply Forall_cons in H as [[H _] _]. simpl in H. lia.
Qed.

(** C3, amended: with a rounding step of at least 1, every piece of a run
    that the planner processes without a fatal error is longer than 0 and at
    most max(maxStock, 1000) long, that is at most [maxStock] when the stock
    is at least 1000; every piece but the last of its run is at least 1000
    long.  The last piece carries what remains and may be shorter. *)
Theorem piece_length_bounds runs rules catalog settings sp i run item :
  generateSplicePlan runs rules catalog settings = Some (Ok sp) ->
  runs !! i = Some run ->
  plan sp !! i = Some item ->
  1 <= roundingStepMm settings ->
  Forall (fun p => 0 < lengthMm p <= Z.max (maxStockOf (run_dia run) catalog) 1000)
    (pieces item) /\
  forall j p, pieces item !! j = Some p -> (S j < length (pieces item))%nat ->
    1000 <= lengthMm p.
Proof.
  intros Hplan Hrun Hitem Hstep.
  destruct (generateSplicePlan_lookup _ _ _ _ _ _ _ _ Hplan Hrun Hitem)
    as (ws & st & Hst & ->).
  exact (planRun_bounds _ _ _ _ _ _ Hstep Hst).
Qed.

Lemma piece_length_bounds_witness :
  Forall (fun p => 0 < lengthMm p <= Z.max (maxStockOf 20 (stock12 20)) 1000)
    scenarioPieces /\
  forall j p, scenarioPieces !! j = Some p -> (S j < length scenarioPieces)%nat ->
    1000 <= lengthMm p.
Proof.
  apply (piece_length_bounds [scenarioRun] [] (stock12 20)
           (defaultSettings FAST SEQUENTIAL)
           {| plan := [itemOfRun scenarioRun scenarioPieces]; sp_warnings := [] |}
           0%nat scenarioRun (itemOfRun scenarioRun scenarioPieces)).
  - vm_compute. reflexivity.
  - reflexivity.
  - reflexivity.
  - vm_compute. discriminate.
Defined.

(** ** C10 *)



(** ** C2 *)

(** C2, counterexample: a cut of 12000 with kerf 5 on a stock of 12000 fits
    no option, so the pass forces it onto a new 12000 bar: the bin holds
    12005 of cut and kerf on 12000 of stock, and its remainder is -5. *)
Lemma overfull_forced_bin :
  bins (packingPass [cutOf 12000] [newStockOption 12000] 5)
  = [{| stockLength := 12000; remaining := -5; cuts := [12000]; isInventory := false |}] /\
  ~ (sumNeeded 5 [12000] <= 12000).
Proof.
  split; [reflexivity|]. simpl. lia.
Qed.

(** C2, amended: for every bin of a packing pass, [remaining] is the stock
    length minus the sum of (cut + kerf) over its cuts; that sum is at most
    the stock length unless the bin was forced open: a new-stock bin with a
    single cut for which cut + kerf is longer than every new-stock option. *)
Theorem bin_bookkeeping reqs opts kerf b :
  b ∈ bins (packingPass reqs opts kerf) ->
  remaining b = stockLength b - sumNeeded kerf (cuts b) /\
  (sumNeeded kerf (cuts b) <= stockLength b \/ Forced kerf opts b).
Proof.
  intros Hb.
  pose proof (packingPass_ok reqs opts kerf) as Hall.
  rewrite Forall_forall in Hall. destruct (Hall b Hb) as [Hrem [Hfit|Hforced]].
  - split; [done|]. left. lia.
  - split; [done|]. by right.
Qed.

Lemma bin_bookkeeping_witness :
  let b := {| stockLength := 12000; remaining := 2990;
              cuts := [6000; 3000]; isInventory := false |} in
  remaining b = stockLength b - sumNeeded 5 (cuts b) /\
  (sumNeeded 5 (cuts b) <= stockLength b \/ Forced 5 [newStockOption 12000] b).
Proof.
  apply (bin_bookkeeping [cutOf 6000; cutOf 6000; cutOf 3000] [newStockOption 12000] 5).
  vm_compute. apply list_elem_of_here.
Defined.

(** ** C4 *)

(** C4, counterexample: a request of 5000 with kerf 5, when the only supply
    is one inventory offcut of 3000, fits nothing and has no new stock to
    fall back on; the pass returns normally, with no bin and the request in
    no cut list. *)
Lemma unserved_request_dropped :
  let res := packingPass [cutOf 5000]
               [inventoryOption {| oc_len := 3000; oc_id := "A-0" |}] 5 in
  bins res = [] /\ stockCount res = 0%nat.
Proof. split; reflexivity. Qed.

(** C4, amended: the packing pass raises no error.  When a request fits no
    open bin, and every supply option is an inventory unit that is used
    already or too short (so that nothing fits and there is no new stock to
    force), the pass skips the request: bins and used ids stay as they were
    and the pass goes on with the next request. *)
Theorem unserved_request_is_skipped opts kerf st req :
  Forall (fun b => remaining b < len req + kerf) (ps_bins st) ->
  Forall (fun o => opt_isInventory o = true /\
                   (skipUsed (ps_used st) o = true \/ opt_len o < len req + kerf)) opts ->
  packStep opts kerf st req = st.
Proof.
  intros Hbins Hopts. unfold packStep.
  rewrite bestFitBin_none by done.
  unfold chooseStock. rewrite bestFitOption_none, largestNewStock_none.
  - done.
  - eapply Forall_impl; [exact Hopts|]. by intros o [? _].
  - eapply Forall_impl; [exact Hopts|]. by intros o [_ ?].
Qed.

Lemma unserved_request_is_skipped_witness :
  packStep [inventoryOption {| oc_len := 3000; oc_id := "A-0" |}] 5
    {| ps_bins := []; ps_used := ∅ |} (cutOf 5000)
  = {| ps_bins := []; ps_used := ∅ |}.
Proof.
  apply (unserved_request_is_skipped
           [inventoryOption {| oc_len := 3000; oc_id := "A-0" |}] 5
           {| ps_bins := []; ps_used := ∅ |} (cutOf 5000)).
  - constructor.
  - apply Forall_singleton. split; [reflexivity|]. right. vm_compute. reflexivity.
Defined.

(** ** C5 *)

(** C5: in the cutting plan of one solve, under either strategy and for any
    random stream, the inventory bars of any class of diameters and stock
    lengths (one diameter and one length, or all of them) are at most as
    many as the inventory units of that class: no unit is consumed twice,
    and the inventory bins are at most the total inventory quantity. *)
Theorem inventory_uniqueness random sel splicePlan directPieces runs catalog settings
    inventory n :
  (invUsed sel
     (cuttingPlan (cr_totals
        (optimizeCutting random splicePlan directPieces runs catalog settings inventory n)))
   <= invAvailable sel inventory)%nat.
Proof.
  unfold optimizeCutting. cbn [cr_totals].
  set (allRequests := flattenRequests splicePlan directPieces runs).
  etrans; [apply fold_diaStep_used|]. cbn [cuttingPlan].
  change (invUsed sel []) with 0%nat. rewrite Nat.add_0_l.
  apply by_dia_le, uniqueDias_NoDup.
Qed.

(** ** C6 *)

Lemma planItemsOf_spec dia settings bs item :
  item ∈ planItemsOf dia settings bs ->
  exists b, b ∈ bs /\
    cp_dia item = dia /\
    cp_stockLength item = stockLength b /\
    cp_cuts item = sortDesc (cuts b) /\
    sourceType item = (if isInventory b then EXISTING_INVENTORY else NEW_STOCK) /\
    (if minLeftoverMm settings <=? Z.max 0 (remaining b)
     then offcut item = Z.max 0 (remaining b) /\ waste item = 0
     else offcut item = 0 /\ waste item = Z.max 0 (remaining b)).
Proof.
  unfold planItemsOf. intros ([k p] & -> & Hin)%list_elem_of_fmap.
  apply patternMapOf_spec in Hin as (b & Hb & _ & Hcuts & Hrem & Hstock & Hinv).
  exists b. simpl. rewrite Hcuts, Hrem, Hstock, Hinv.
  split_and!; try done. by case_match.
Qed.

(** C6: every item of the cutting plan stands for a bin of its diameter
    group, with that bin's stock length and sorted cuts; with [rem] the
    bin's remainder cut off below at 0, offcut and waste are not both
    positive, the one that is positive equals [rem], and [rem >=
    minLeftoverMm] gives offcut = rem and waste = 0, otherwise offcut = 0
    and waste = rem. *)
Theorem offcut_waste_dichotomy random splicePlan directPieces runs catalog settings
    inventory n item :
  item ∈ cuttingPlan (cr_totals
    (optimizeCutting random splicePlan directPieces runs catalog settings inventory n)) ->
  exists b n',
    b ∈ groupBins random (flattenRequests splicePlan directPieces runs)
          catalog settings inventory (cp_dia item) n' /\
    cp_stockLength item = stockLength b /\
    cp_cuts item = sortDesc (cuts b) /\
    let rem := Z.max 0 (remaining b) in
    ~ (0 < offcut item /\ 0 < waste item) /\
    (0 < offcut item -> offcut item = rem) /\
    (0 < waste item -> waste item = rem) /\
    (minLeftoverMm settings <= rem -> offcut item = rem /\ waste item = 0) /\
    (rem < minLeftoverMm settings -> offcut item = 0 /\ waste item = rem).
Proof.
  unfold optimizeCutting. cbn [cr_totals]. intros Hin.
  apply fold_diaStep_items in Hin as [Hin|(dia & n' & _ & Hin)];
    [by apply elem_of_nil in Hin|].
  apply planItemsOf_spec in Hin as (b & Hb & Hdia & Hstock & Hcuts & _ & Hcls).
  exists b, n'. rewrite Hdia.
  split; [done|]. split; [done|]. split; [done|]. cbn zeta.
  destruct (Z.leb_spec (minLeftoverMm settings) (Z.max 0 (remaining b)))
    as [Hle|Hlt]; destruct Hcls as [Hoff Hwaste]; rewrite Hoff, Hwaste;
    (split; [lia|]); (split; [lia|]); (split; [lia|]); split; intros; lia.
Qed.

Lemma offcut_waste_dichotomy_witness :
  let item := {| cp_dia := 20; cp_stockLength := 12000; count := 1;
                 cp_cuts := [9000]; waste := 0; offcut := 2995;
                 sourceType := NEW_STOCK |} in
  exists b n',
    b ∈ groupBins (fun _ => 0%Q)
          (flattenRequests [itemOfRun scenarioRun scenarioPieces] [] [scenarioRun])
          (stock12 20) (defaultSettings FAST SEQUENTIAL) [] (cp_dia item) n' /\
    cp_stockLength item = stockLength b /\
    cp_cuts item = sortDesc (cuts b) /\
    let rem := Z.max 0 (remaining b) in
    ~ (0 < offcut item /\ 0 < waste item) /\
    (0 < offcut item -> offcut item = rem) /\
    (0 < waste item -> waste item = rem) /\
    (minLeftoverMm (defaultSettings FAST SEQUENTIAL) <= rem ->
       offcut item = rem /\ waste item = 0) /\
    (rem < minLeftoverMm (defaultSettings FAST SEQUENTIAL) ->
       offcut item = 0 /\ waste item = rem).
Proof.
  apply (offcut_waste_dichotomy (fun _ => 0%Q)
           [itemOfRun scenarioRun scenarioPieces] [] [scenarioRun] (stock12 20)
           (defaultSettings FAST SEQUENTIAL) [] 0%nat).
  vm_compute. apply list_elem_of_further, list_elem_of_here.
Defined.

(** ** C7 *)

(** C7, counterexample: one request of 11900 (kerf 5), one inventory unit of
    12000 and new stock [12000], under MIXED: the bin is opened on the new
    bar, no inventory id is marked used, and the plan buys the bar. *)
Lemma mixed_tie_leaves_inventory :
  (optimizeDiaGroup (fun _ => 0%Q) [cutOf 11900] [12000]
     (defaultSettings FAST MIXED) oneOffcut12 0).1
  = [{| stockLength := 12000; remaining := 95; cuts := [11900]; isInventory := false |}] /\
  usedInventoryIds
    (packingPass [cutOf 11900]
       (map newStockOption [12000] ++ map inventoryOption (flattenInventory oneOffcut12)) 5)
  = ∅ /\
  map sourceType (cuttingPlan (cr_totals
    (optimizeCutting (fun _ => 0%Q) [] [directOf 11900] [] (stock12 16)
       (defaultSettings FAST MIXED) oneOffcut12 0)))
  = [NEW_STOCK].
Proof. split_and!; vm_compute; reflexivity. Qed.

(** C7, amended: under MIXED the pool lists the new stock before the
    inventory units, and a later option replaces the best one only when it
    fits strictly tighter.  So for any request of a pass over that pool, in
    whatever state the pass is: when a new-stock length fits the request and
    is at most as long as every inventory unit that fits and is not used yet
    (an exact tie included), the request consumes no inventory.  It goes to
    an open bin if it fits one; otherwise the bin is opened on a new-stock
    length, the shortest that fits.  The bins of a MIXED group are the bins
    of such a pass over the requests in some order, and a group in which
    every request has such a new-stock length has no inventory bin at all,
    as the single request of 11900 with one unit of 12000 and new stock
    [12000]. *)
Theorem mixed_tie_opens_new_stock stock units kerf st req s :
  s ∈ stock ->
  len req + kerf <= s ->
  (forall u, u ∈ units -> skipUsed (ps_used st) (inventoryOption u) = false ->
     len req + kerf <= oc_len u -> s <= oc_len u) ->
  let opts := map newStockOption stock ++ map inventoryOption units in
  let st' := packStep opts kerf st req in
  ps_used st' = ps_used st /\
  invLens (ps_bins st') = invLens (ps_bins st) /\
  ((exists j b, ps_bins st !! j = Some b /\ len req + kerf <= remaining b /\
      ps_bins st' = alter (addCut (len req + kerf) (len req)) j (ps_bins st)) \/
   (exists s', s' ∈ stock /\ len req + kerf <= s' <= s /\
      (forall s0, s0 ∈ stock -> len req + kerf <= s0 -> s' <= s0) /\
      Forall (fun b => remaining b < len req + kerf) (ps_bins st) /\
      ps_bins st' = ps_bins st ++
        [{| stockLength := s'; remaining := s' - (len req + kerf);
            cuts := [len req]; isInventory := false |}])) /\
  forall random reqs settings inventory n,
    inventoryStrategy settings = MIXED ->
    kerfMm settings = kerf ->
    flattenInventory inventory = units ->
    (exists l, l ≡ₚ reqs /\
       (optimizeDiaGroup random reqs stock settings inventory n).1
       = ps_bins (fold_left (packStep opts kerf) l {| ps_bins := []; ps_used := ∅ |})) /\
    ((forall r, r ∈ reqs -> exists s0, s0 ∈ stock /\ len r + kerf <= s0 /\
         forall u, u ∈ units -> len r + kerf <= oc_len u -> s0 <= oc_len u) ->
     Forall (fun b => isInventory b = false)
       (optimizeDiaGroup random reqs stock settings inventory n).1).
Proof.
  intros Hs Hfit Htie. cbn zeta.
  destruct (packStep_pool_tie stock units kerf st req s Hs Hfit Htie)
    as (Hused & Hinv & Hstep).
  split_and!; [done | done | done |].
  intros random reqs settings inventory n Hmixed <- <-.
  unfold optimizeDiaGroup. rewrite Hmixed.
  set (opts := map newStockOption stock ++
               map inventoryOption (flattenInventory inventory)).
  destruct (performMonteCarlo_facts random reqs opts settings n)
    as ((l & Hl & Hres) & _).
  split; [by exists l|]. intros Hall. rewrite Hres.
  unfold packingPass. cbn [bins]. apply invLens_nil.
  assert (Hl' : forall r, r ∈ l -> r ∈ reqs) by (intros r; by rewrite Hl).
  assert (H0 : invLens (ps_bins {| ps_bins := []; ps_used := ∅ |}) = []) by done.
  revert H0 Hl'. generalize ({| ps_bins := []; ps_used := ∅ |}). clear Hl Hres.
  induction l as [|r l IH]; intros st0 Hst0 Hl; simpl; [done|].
  apply IH; [|intros r' Hr'; by apply Hl, list_elem_of_further].
  destruct (Hall r (Hl r (list_elem_of_here _ _))) as (s0 & Hs0 & Hfit0 & Htie0).
  destruct (packStep_pool_tie stock (flattenInventory inventory) (kerfMm settings)
              st0 r s0 Hs0 Hfit0) as (_ & Hinv0 & _).
  - intros u Hu _. by apply Htie0.
  - fold opts in Hinv0. by rewrite Hinv0.
Qed.

Lemma mixed_tie_opens_new_stock_witness :
  let units := flattenInventory twoOffcuts in
  let opts := map newStockOption [12000] ++ map inventoryOption units in
  let st := packStep opts 5 {| ps_bins := []; ps_used := ∅ |} (cutOf 5000) in
  let st' := packStep opts 5 st (cutOf 11900) in
  map isInventory (ps_bins st) = [true] /\
  map isInventory (ps_bins st') = [true; false] /\
  ps_used st' = ps_used st /\
  invLens (ps_bins st') = invLens (ps_bins st) /\
  Forall (fun b => isInventory b = false)
    (optimizeDiaGroup (fun _ => 0%Q) [cutOf 11900; cutOf 11900] [12000]
       (defaultSettings FAST MIXED) twoOffcuts 0).1.
Proof.
  cbn zeta.
  destruct (mixed_tie_opens_new_stock [12000] (flattenInventory twoOffcuts) 5
    (packStep (map newStockOption [12000] ++
               map inventoryOption (flattenInventory twoOffcuts)) 5
       {| ps_bins := []; ps_used := ∅ |} (cutOf 5000))
    (cutOf 11900) 12000) as (Hused & Hinv & _ & Hgroup).
  - apply list_elem_of_here.
  - vm_compute. discriminate.
  - intros u Hu _ Hfit. vm_compute in Hu.
    apply elem_of_cons in Hu as [->|Hu%list_elem_of_singleton].
    + simpl in Hfit. lia.
    + subst u. simpl. lia.
  - split_and!; [vm_compute; reflexivity | vm_compute; reflexivity | exact Hused
                 | exact Hinv |].
    apply (Hgroup (fun _ => 0%Q) [cutOf 11900; cutOf 11900]
             (defaultSettings FAST MIXED) twoOffcuts 0%nat); [reflexivity..|].
    intros r Hr. exists 12000. split_and!.
    + apply list_elem_of_here.
    + apply elem_of_cons in Hr as [->|Hr%list_elem_of_singleton];
        [|subst r]; vm_compute; discriminate.
    + intros u Hu Hfit. vm_compute in Hu.
      apply elem_of_cons in Hr as [->|Hr%list_elem_of_singleton]; [|subst r];
        (apply elem_of_cons in Hu as [->|Hu%list_elem_of_singleton];
           [simpl in Hfit; lia | subst u; simpl; lia]).
Defined.

(** ** C8 *)

(** What FAST computes: the seed pass and one pass on a shuffled order, of
    which the shuffled one is kept when it leaves strictly less. *)
Lemma fast_is_seed_or_shuffled random reqs opts settings n :
  optimizationLevel settings = FAST ->
  let seed := bins (packingPass (sortRequestsDesc reqs) opts (kerfMm settings)) in
  let shuffled := bins (packingPass (shuffle random reqs n).1 opts (kerfMm settings)) in
  (performMonteCarlo random reqs opts settings n).1
  = if wasteOf shuffled <? wasteOf seed then shuffled else seed.
Proof.
  intros Hfast. unfold performMonteCarlo. rewrite Hfast. cbn [iterationsOf mcLoop calls
    minWaste bestBins fst].
  destruct (shuffle random reqs n) as [l n']. cbn [fst]. by case_match.
Qed.

(** C8, the code at the failing input: with FAST the driver reads the
    random stream four times to shuffle the five requests and runs a second
    pass on the shuffled order; under [streamKeep] that pass leaves 1975 and
    replaces the seed pass, which leaves 7975, so the result is not the
    best-fit-decreasing pass; under [streamSort] the result is the seed
    pass: the FAST result depends on the stream, and so does the cutting
    plan of the solve (two bars or three). *)
Lemma fast_runs_a_shuffled_pass :
  let settings := defaultSettings FAST MIXED in
  let seed := bins (packingPass (sortRequestsDesc fiveCuts) twoStocks 5) in
  let fast := performMonteCarlo streamKeep fiveCuts twoStocks settings 0 in
  iterationsOf (optimizationLevel settings) = 1%nat /\
  wasteOf seed = 7975 /\
  fast.1 = bins (packingPass fiveCuts twoStocks 5) /\
  wasteOf fast.1 = 1975 /\
  fast.2 = 4%nat /\
  length seed = 3%nat /\ length fast.1 = 2%nat /\
  fast.1 <> seed /\
  (performMonteCarlo streamSort fiveCuts twoStocks settings 0).1 = seed /\
  map cp_cuts (cuttingPlan (cr_totals
    (optimizeCutting streamKeep [] fiveDirect [] twoStockCatalog settings [] 0)))
  = [[3000; 2000]; [7000; 2000; 2000]] /\
  map cp_cuts (cuttingPlan (cr_totals
    (optimizeCutting streamSort [] fiveDirect [] twoStockCatalog settings [] 0)))
  = [[7000; 3000]; [2000; 2000]; [2000]].
Proof.
  cbn zeta. split_and!; try (vm_compute; reflexivity).
  intros H. apply (f_equal length) in H. vm_compute in H. discriminate.
Qed.

(** ** C9 *)





(** * Further properties *)

(** ** Sorting *)

Section SortFacts.
Context {A : Type} (before : A -> A -> bool).
Hypothesis before_total : forall x y, before x y = false -> before y x = true.
Hypothesis before_trans : forall x y z,
  before x y = true -> before y z = true -> before x z = true.

Lemma insertStable_sorted x l :
  StronglySorted (fun a b => before a b = true) l ->
  StronglySorted (fun a b => before a b = true) (insertStable before x l).
Proof.
  induction 1 as [|y l Hl IH Hy]; simpl; [by repeat constructor|].
  destruct (before x y) eqn:E.
  - constructor; [by constructor|]. constructor; [done|].
    eapply Forall_impl; [exact Hy|]. intros z Hz. by eapply before_trans.
  - constructor; [done|].
    rewrite (insertStable_perm before x l). constructor; [by apply before_total | done].
Qed.

Lemma sortStable_sorted l :
  StronglySorted (fun a b => before a b = true) (sortStable before l).
Proof.
  induction l as [|x l IH]; simpl; [constructor | by apply insertStable_sorted].
Qed.
End SortFacts.

(** A stable sort on a key keeps the elements of one key in their order. *)
Lemma sortStable_filter_key {A} (key : A -> Z) (asc : bool) (P : A -> Prop)
    `{forall x, Decision (P x)} (d : Z) l :
  (forall x, P x -> key x = d) ->
  filter P (sortStable (fun a b => if asc then key a <=? key b else key b <=? key a) l)
  = filter P l.
Proof.
  intros HP. induction l as [|x l IH]; [done|]. simpl.
  rewrite (filter_cons _ x l), <- IH. clear IH.
  generalize (sortStable (fun a b => if asc then key a <=? key b else key b <=? key a) l).
  intros s. induction s as [|y s IHs]; simpl.
  - done.
  - destruct (if asc then key x <=? key y else key y <=? key x) eqn:E.
    + by rewrite (filter_cons _ x).
    + rewrite !(filter_cons _ y), IHs.
      destruct (decide (P x)) as [Hx|Hx]; [|done].
      destruct (decide (P y)) as [Hy|Hy]; [|done].
      apply HP in Hx, Hy. destruct asc; lia.
Qed.

Lemma StronglySorted_weaken {A} (R1 R2 : A -> A -> Prop) l :
  (forall a b, R1 a b -> R2 a b) -> StronglySorted R1 l -> StronglySorted R2 l.
Proof.
  intros HR. induction 1 as [|x l _ IH Hx]; constructor; [done|].
  eapply Forall_impl; [exact Hx | apply HR].
Qed.

Lemma find_filter_head {A} (f : A -> bool) l :
  find f l = head (filter (fun x => f x = true) l).
Proof.
  induction l as [|x l IH]; [done|]. simpl. rewrite filter_cons.
  destruct (f x) eqn:E; case_decide; try done; congruence.
Qed.

(** ** Stock options *)

Lemma sortDesc_sorted l : StronglySorted (fun a b => b <= a) (sortDesc l).
Proof.
  unfold sortDesc.
  eapply StronglySorted_weaken; [|apply (sortStable_sorted (fun a b : Z => b <=? a))].
  - intros a b Hab. by apply Z.leb_le.
  - intros x y Hxy. apply Z.leb_le. apply Z.leb_gt in Hxy. lia.
  - intros x y z Hxy Hyz. apply Z.leb_le. apply Z.leb_le in Hxy, Hyz. lia.
Qed.

(** X1: the stock options of a diameter are never empty, they are in
    descending order, the first one ([maxStock]) is the longest, and they are
    the lengths of the first catalog entry of the diameter in another order,
    or [12000] alone when the catalog has no entry or an entry without
    lengths. *)
Theorem stock_options_sorted dia catalog :
  getStockOptions dia catalog <> [] /\
  StronglySorted (fun a b => b <= a) (getStockOptions dia catalog) /\
  maxStockOf dia catalog ∈ getStockOptions dia catalog /\
  Forall (fun s => s <= maxStockOf dia catalog) (getStockOptions dia catalog) /\
  match find (fun i => sc_dia i =? dia) catalog with
  | Some item =>
      if bool_decide (stockLengths item = [])
      then getStockOptions dia catalog = [12000]
      else getStockOptions dia catalog ≡ₚ stockLengths item
  | None => getStockOptions dia catalog = [12000]
  end.
Proof.
  assert (Hsorted : StronglySorted (fun a b => b <= a) (getStockOptions dia catalog)).
  { unfold getStockOptions. destruct (find _ catalog) as [item|];
      [|by repeat constructor].
    destruct (stockLengths item); [by repeat constructor | apply sortDesc_sorted]. }
  pose proof (getStockOptions_nonempty dia catalog) as Hne.
  split_and!; [done | done | | |].
  - unfold maxStockOf. destruct (getStockOptions dia catalog); [done|].
    apply list_elem_of_here.
  - unfold maxStockOf. destruct (getStockOptions dia catalog) as [|m opts]; [done|].
    apply StronglySorted_cons in Hsorted as [Hm _]. simpl.
    constructor; [lia | done].
  - unfold getStockOptions. destruct (find _ catalog) as [item|]; [|done].
    destruct (stockLengths item) as [|x xs] eqn:E; [done|].
    rewrite bool_decide_eq_false_2 by done.
    apply (sortStable_perm (fun a b => b <=? a)).
Qed.

(** ** More on the splice planner *)

Lemma spliceLoop_count fuel run lap L step st st' :
  spliceLoop fuel run lap L step st = Finished st' ->
  exists new,
    groupPieces st' = groupPieces st ++ new /\
    (length new <= Z.to_nat (remainingTotal st))%nat /\
    chained lap (currentAbsPos st) new.
Proof.
  revert st. induction fuel as [|fuel IH]; intros st Hrun; simpl in Hrun.
  - destruct (Z.gtb_spec (remainingTotal st) 0); [done|].
    injection Hrun as <-. exists []. rewrite app_nil_r. split_and!; [done | simpl; lia | done].
  - destruct (Z.gtb_spec (remainingTotal st) 0) as [Hpos|Hnpos]; cycle 1.
    { injection Hrun as <-. exists []. rewrite app_nil_r.
      split_and!; [done | simpl; lia | done]. }
    destruct (Z.leb_spec (remainingTotal st) L) as [Hfin|Hcont].
    + apply IH in Hrun as (new & Hnew & Hlen & _). simpl in *.
      destruct new; [|simpl in Hlen; lia].
      set (p := {| lengthMm := remainingTotal st |}) in *.
      exists [p]. rewrite app_nil_r in Hnew.
      split_and!; [done | simpl; lia | by simpl].
    + destruct (proposeCut _ _ _ _) as [cut violation].
      destruct (Z.leb_spec (roundCut cut step - lap) 0) as [|Hadv]; [done|].
      apply IH in Hrun as (new & Hnew & Hlen & Hch). simpl in *.
      set (p := {| lengthMm := roundCut cut step |}) in *.
      exists (p :: new). split_and!; [by rewrite Hnew, <- app_assoc | simpl; lia |].
      simpl. split_and!; [done..|].
      replace (currentAbsPos st + roundCut cut step - lap)
        with (currentAbsPos st + (roundCut cut step - lap)) by lia. done.
Qed.

Lemma chained_facts lap : forall ps cur,
  chained lap cur ps ->
  (forall p, head ps = Some p -> p_startMm p = cur) /\
  (forall p, p ∈ ps -> p_endMm p = p_startMm p + lengthMm p) /\
  (forall j p q, ps !! j = Some p -> ps !! S j = Some q ->
     p_startMm q = p_endMm p - lap).
Proof.
  induction ps as [|p0 ps IH]; intros cur Hch; simpl in Hch.
  - split_and!; [done | by intros ? ?%elem_of_nil | done].
  - destruct Hch as (Hs & He & Hrest). destruct (IH _ Hrest) as (Hhd & Hends & Hnext).
    split_and!.
    + by intros p [= <-].
    + intros p [->|Hp]%elem_of_cons; [lia | by apply Hends].
    + intros [|j] p q Hp Hq; simpl in *.
      * injection Hp as <-. apply Hhd. by destruct ps; simplify_eq.
      * by eapply Hnext.
Qed.

Lemma chained_last lap : forall ps cur p,
  chained lap cur (ps ++ [p]) ->
  p_endMm p = cur + sumLen (ps ++ [p]) - Z.of_nat (length ps) * lap.
Proof.
  induction ps as [|p0 ps IH]; intros cur p Hch; simpl in Hch.
  - destruct Hch as (Hs & He & _). simpl. lia.
  - destruct Hch as (Hs & He & Hrest). apply IH in Hrest.
    rewrite Hrest. simpl sumLen. simpl length. lia.
Qed.

(** X2: the planner always comes to an end, and so does a solve: the loop of
    a run advances by at least one millimetre in each pass, so a run of
    length T gets at most T pieces. *)
Theorem planner_terminates runs rules catalog settings :
  is_Some (generateSplicePlan runs rules catalog settings) /\
  (forall random directPieces inventory n,
     is_Some (runSolver random runs directPieces settings catalog rules inventory n)) /\
  (forall sp i run item,
     generateSplicePlan runs rules catalog settings = Some (Ok sp) ->
     runs !! i = Some run -> plan sp !! i = Some item ->
     (length (pieces item) <= Z.to_nat (totalLengthMm run))%nat).
Proof.
  pose proof (generateSplicePlanFrom_total runs rules catalog settings
                {| plan := []; sp_warnings := [] |}) as Htotal.
  split_and!; [done | |].
  - intros random directPieces inventory n. unfold runSolver.
    destruct catalog; [done|]. unfold generateSplicePlan.
    destruct Htotal as [[sp|e] ->]; done.
  - intros sp i run item Hplan Hrun Hitem.
    destruct (generateSplicePlan_lookup _ _ _ _ _ _ _ _ Hplan Hrun Hitem)
      as (ws & st & Hst & ->).
    unfold planRun in Hst. case_match; [done|].
    apply spliceLoop_count in Hst as (new & Hnew & Hlen & _). simpl in *.
    by rewrite Hnew.
Qed.

Lemma generateSplicePlanFrom_aborts runs rules catalog settings run : forall acc,
  run ∈ runs ->
  maxStockOf (run_dia run) catalog <= getLapLength (run_dia run) (lapCase run) rules ->
  exists e, generateSplicePlanFrom runs rules catalog settings acc = Some (Err e).
Proof.
  intros acc Hin Hlap. revert acc.
  induction runs as [|r runs IH]; intros acc; [by apply elem_of_nil in Hin|].
  simpl. pose proof (planRun_total r rules catalog settings (sp_warnings acc)) as Hfuel.
  destruct (planRun r rules catalog settings (sp_warnings acc)) as [st|e|] eqn:E;
    [|by eexists | done].
  apply elem_of_cons in Hin as [->|Hin]; [|by apply IH].
  unfold planRun in E.
  destruct (Z.leb_spec (maxStockOf (run_dia r) catalog)
              (getLapLength (run_dia r) (lapCase r) rules)); [done | lia].
Qed.

(** X3: one run whose lap is not shorter than the longest stock of its
    diameter makes the whole solve fail, whatever its length (a run of
    length 0 too) and whatever the other runs are: no plan is returned. *)
Theorem lap_ge_stock_aborts runs rules catalog settings run :
  run ∈ runs ->
  maxStockOf (run_dia run) catalog <= getLapLength (run_dia run) (lapCase run) rules ->
  (exists e, generateSplicePlan runs rules catalog settings = Some (Err e)) /\
  (forall random directPieces inventory n, exists e,
     runSolver random runs directPieces settings catalog rules inventory n = Some (Err e)).
Proof.
  intros Hin Hlap.
  destruct (generateSplicePlanFrom_aborts runs rules catalog settings run
              {| plan := []; sp_warnings := [] |} Hin Hlap) as [e He].
  split; [by exists e|].
  intros random directPieces inventory n. unfold runSolver.
  destruct catalog; [by eexists|].
  unfold generateSplicePlan. rewrite He. by eexists.
Qed.

Lemma lap_ge_stock_aborts_witness :
  (exists e, generateSplicePlan [scenarioRun; beamRun 0 []] (lapRule 12000) (stock12 20)
               (defaultSettings FAST SEQUENTIAL) = Some (Err e)) /\
  (forall random directPieces inventory n, exists e,
     runSolver random [scenarioRun; beamRun 0 []] directPieces
       (defaultSettings FAST SEQUENTIAL) (stock12 20) (lapRule 12000) inventory n
     = Some (Err e)).
Proof.
  apply (lap_ge_stock_aborts [scenarioRun; beamRun 0 []] (lapRule 12000) (stock12 20)
           (defaultSettings FAST SEQUENTIAL) (beamRun 0 [])).
  - apply list_elem_of_further, list_elem_of_here.
  - vm_compute. discriminate.
Defined.

(** X4: the pieces of a run are laid end over end: the first starts at 0,
    every piece ends its length after its start, and every next piece
    starts one lap before the end of the piece before it. *)
Theorem pieces_chain runs rules catalog settings sp i run item :
  generateSplicePlan runs rules catalog settings = Some (Ok sp) ->
  runs !! i = Some run ->
  plan sp !! i = Some item ->
  (forall p, head (pieces item) = Some p -> p_startMm p = 0) /\
  (forall p, p ∈ pieces item -> p_endMm p = p_startMm p + lengthMm p) /\
  (forall j p q, pieces item !! j = Some p -> pieces item !! S j = Some q ->
     p_startMm q = p_endMm p - getLapLength (run_dia run) (lapCase run) rules).
Proof.
  intros Hplan Hrun Hitem.
  destruct (generateSplicePlan_lookup _ _ _ _ _ _ _ _ Hplan Hrun Hitem)
    as (ws & st & Hst & ->).
  unfold planRun in Hst. case_match; [done|].
  apply spliceLoop_count in Hst as (new & Hnew & _ & Hch). simpl in *.
  rewrite Hnew. by apply chained_facts.
Qed.

Lemma pieces_chain_witness :
  (forall p, head scenarioPieces = Some p -> p_startMm p = 0) /\
  (forall p, p ∈ scenarioPieces -> p_endMm p = p_startMm p + lengthMm p) /\
  (forall j p q, scenarioPieces !! j = Some p -> scenarioPieces !! S j = Some q ->
     p_startMm q = p_endMm p - 1000).
Proof.
  apply (pieces_chain [scenarioRun] [] (stock12 20) (defaultSettings FAST SEQUENTIAL)
           {| plan := [itemOfRun scenarioRun scenarioPieces]; sp_warnings := [] |}
           0%nat scenarioRun (itemOfRun scenarioRun scenarioPieces)).
  - vm_compute. reflexivity.
  - reflexivity.
  - reflexivity.
Defined.

(** X5: under the conditions of the conservation of length (a positive
    length, a rounding step of at least 1, a lap that is not negative, a
    stock of at least 1000), the last piece of a run ends exactly at the end
    of the run. *)
Theorem last_piece_ends_run runs rules catalog settings sp i run item p :
  generateSplicePlan runs rules catalog settings = Some (Ok sp) ->
  runs !! i = Some run ->
  plan sp !! i = Some item ->
  1 <= roundingStepMm settings ->
  0 <= getLapLength (run_dia run) (lapCase run) rules ->
  1000 <= maxStockOf (run_dia run) catalog ->
  0 < totalLengthMm run ->
  last (pieces item) = Some p ->
  p_endMm p = totalLengthMm run.
Proof.
  intros Hplan Hrun Hitem Hstep Hlap HL Hpos Hlast.
  destruct (generateSplicePlan_lookup _ _ _ _ _ _ _ _ Hplan Hrun Hitem)
    as (ws & st & Hst & ->).
  destruct (planRun_conservation _ _ _ _ _ _ Hstep Hlap HL Hpos Hst) as [_ Hsum].
  unfold planRun in Hst. case_match; [done|].
  apply spliceLoop_count in Hst as (new & Hnew & _ & Hch). simpl in *.
  rewrite Hnew in *. apply last_Some in Hlast as [ps ->].
  apply chained_last in Hch. rewrite length_app in Hsum. simpl in Hsum. lia.
Qed.

Lemma last_piece_ends_run_witness :
  p_endMm {| lengthMm := 9000; p_startMm := 11000; p_endMm := 20000 |} = 20000.
Proof.
  apply (last_piece_ends_run [scenarioRun] [] (stock12 20)
           (defaultSettings FAST SEQUENTIAL)
           {| plan := [itemOfRun scenarioRun scenarioPieces]; sp_warnings := [] |}
           0%nat scenarioRun (itemOfRun scenarioRun scenarioPieces)).
  - vm_compute. reflexivity.
  - reflexivity.
  - reflexivity.
  - vm_compute. discriminate.
  - vm_compute. discriminate.
  - vm_compute. discriminate.
  - vm_compute. reflexivity.
  - reflexivity.
Defined.

Lemma proposeCut_no_zone lap L cur : proposeCut [] lap L cur = (inject_Z L, true).
Proof. reflexivity. Qed.

Lemma spliceLoop_warnings fuel run lap L step st st' :
  1 <= step -> 0 <= lap -> 1000 <= L ->
  0 < remainingTotal st ->
  spliceLoop fuel run lap L step st = Finished st' ->
  exists new newW,
    groupPieces st' = groupPieces st ++ new /\
    warnings st' = warnings st ++ newW /\
    (length newW + 1 <= length new)%nat /\
    (allowedZones run = [] -> (length newW + 1 = length new)%nat).
Proof.
  intros Hstep Hlap HL. revert st.
  induction fuel as [|fuel IH]; intros st Hpos Hrun; simpl in Hrun.
  - destruct (Z.gtb_spec (remainingTotal st) 0); [done | lia].
  - destruct (Z.gtb_spec (remainingTotal st) 0) as [_|]; [|lia].
    destruct (Z.leb_spec (remainingTotal st) L) as [Hfin|Hcont].
    + apply (spliceLoop_bounds _ _ _ _ _ _ _ Hstep) in Hrun as (new & Hnew & _ & Hsame).
      simpl in *. specialize (Hsame ltac:(lia)). subst st'. simpl in *.
      set (p := {| lengthMm := remainingTotal st |}) in *.
      exists [p], []. rewrite app_nil_r. by split_and!.
    + pose proof (proposeCut_le (allowedZones run) lap L (currentAbsPos st)) as Hle.
      pose proof (proposeCut_no_zone lap L (currentAbsPos st)) as Hnone.
      destruct (proposeCut (allowedZones run) _ _ _) as [cut violation] eqn:Hcut.
      simpl in Hle.
      pose proof (roundCut_bounds cut step L Hstep Hle) as Hb.
      destruct (Z.leb_spec (roundCut cut step - lap) 0) as [|Hadv]; [done|].
      apply IH in Hrun as (new & newW & Hnew & HnewW & Hcount & Hexact); [|simpl; lia].
      simpl in *.
      set (p := {| lengthMm := roundCut cut step |}) in *.
      destruct violation.
      * eexists (p :: new), (_ :: newW). split_and!.
        -- by rewrite Hnew, <- app_assoc.
        -- by rewrite HnewW, <- app_assoc.
        -- simpl. lia.
        -- intros Hz. simpl. rewrite Hexact by done. lia.
      * exists (p :: new), newW. split_and!.
        -- by rewrite Hnew, <- app_assoc.
        -- done.
        -- simpl. lia.
        -- intros Hz. rewrite Hz, Hnone in Hcut. congruence.
Qed.

(** X6: under the conditions of the conservation of length, a run keeps the
    warnings that were there before it and adds at most one warning for
    each of its pieces but the last; a run without any allowed zone adds
    exactly one for each piece but the last. *)
Theorem warnings_per_splice run rules catalog settings ws st :
  planRun run rules catalog settings ws = Finished st ->
  1 <= roundingStepMm settings ->
  0 <= getLapLength (run_dia run) (lapCase run) rules ->
  1000 <= maxStockOf (run_dia run) catalog ->
  0 < totalLengthMm run ->
  exists newW,
    warnings st = ws ++ newW /\
    (length newW + 1 <= length (groupPieces st))%nat /\
    (allowedZones run = [] -> (length newW + 1 = length (groupPieces st))%nat).
Proof.
  intros Hst Hstep Hlap HL Hpos. unfold planRun in Hst. case_match; [done|].
  apply spliceLoop_warnings in Hst as (new & newW & Hnew & HnewW & Hcount & Hexact);
    try done.
  simpl in *. exists newW. by rewrite Hnew.
Qed.

Lemma warnings_per_splice_witness :
  exists newW,
    ["earlier"%string;
     "STRUCTURAL WARNING [B1]: Forced splice at 11500mm. No allowed zone was reachable with stock length 12000mm."%string]
    = ["earlier"%string] ++ newW /\
    (length newW + 1 <= length scenarioPieces)%nat /\
    (allowedZones (beamRun 20000 []) = [] -> (length newW + 1 = length scenarioPieces)%nat).
Proof.
  apply (warnings_per_splice (beamRun 20000 []) [] (stock12 20)
           (defaultSettings FAST SEQUENTIAL) ["earlier"%string]
           {| groupPieces := scenarioPieces; currentAbsPos := 11000;
              remainingTotal := 0;
              warnings := ["earlier"%string;
     "STRUCTURAL WARNING [B1]: Forced splice at 11500mm. No allowed zone was reachable with stock length 12000mm."%string] |}).
  - vm_compute. reflexivity.
  - vm_compute. discriminate.
  - vm_compute. discriminate.
  - vm_compute. discriminate.
  - vm_compute. reflexivity.
Defined.

(** ** More on the packing pass *)

Lemma bestFitBin_le bs needed : forall i best j r,
  bestFitBin i bs needed best = Some (j, r) ->
  (forall j0 r0, best = Some (j0, r0) -> r <= r0) /\
  Forall (fun b => 0 <= remaining b - needed -> r <= remaining b - needed) bs.
Proof.
  induction bs as [|b bs IH]; intros i best j r H; simpl in H.
  - subst best. split; [by intros ? ? [= _ ->] | constructor].
  - apply IH in H as [Hbest Htail].
    destruct (Z.leb_spec 0 (remaining b - needed)) as [Hfit|Hnofit]; simpl in Hbest.
    + destruct best as [[j0 r0]|].
      * destruct (Z.ltb_spec (remaining b - needed) r0) as [Hlt|Hge];
          specialize (Hbest _ _ eq_refl); split.
        -- intros ? ? [= _ <-]. lia.
        -- by constructor.
        -- by intros ? ? [= _ <-].
        -- constructor; [lia | done].
      * specialize (Hbest _ _ eq_refl). split; [done | by constructor].
    + split; [done|]. constructor; [lia | done].
Qed.

Lemma packStep_nonempty opts kerf st req :
  Forall (fun b => cuts b <> []) (ps_bins st) ->
  Forall (fun b => cuts b <> []) (ps_bins (packStep opts kerf st req)).
Proof.
  intros Hall. unfold packStep.
  destruct (bestFitBin _ _ _ _) as [[j rem]|]; simpl.
  - apply Forall_alter; [done|]. intros b _ _. simpl. by destruct (cuts b).
  - destruct (chooseStock _ _ _); simpl; [|done].
    apply Forall_app. split; [done|]. by apply Forall_singleton.
Qed.

Lemma nonempty_concat_length (bs : list Bin) :
  Forall (fun b => cuts b <> []) bs ->
  (length bs <= length (concat (map cuts bs)))%nat.
Proof.
  induction 1 as [|b bs Hb _ IH]; simpl; [done|].
  rewrite length_app. destruct (cuts b); [done|]. simpl. lia.
Qed.

(** X7: when the supply holds a new-stock option, a packing pass cuts every
    request exactly once (the cuts of its bins are the requested lengths in
    another order), no bin is left without a cut, and there are at most as
    many bins as requests. *)
Theorem pass_cuts_every_request reqs opts kerf o :
  o ∈ opts -> opt_isInventory o = false ->
  let res := packingPass reqs opts kerf in
  concat (map cuts (bins res)) ≡ₚ map len reqs /\
  Forall (fun b => cuts b <> []) (bins res) /\
  (length (bins res) <= length reqs)%nat /\
  stockCount res = length (bins res).
Proof.
  intros Hin Hnew. cbn zeta.
  assert (Hne : Forall (fun b => cuts b <> []) (bins (packingPass reqs opts kerf))).
  { unfold packingPass. cbn [bins].
    assert (H0 : Forall (fun b => cuts b <> []) (ps_bins {| ps_bins := []; ps_used := ∅ |}))
      by constructor.
    revert H0. generalize ({| ps_bins := []; ps_used := ∅ |}).
    induction reqs as [|r reqs IH]; intros st Hst; simpl; [done|].
    by apply IH, packStep_nonempty. }
  pose proof (packingPass_serves_all reqs opts kerf o Hin Hnew) as Hperm.
  split_and!; [done | done | | done].
  etrans; [by apply nonempty_concat_length|].
  by rewrite Hperm, length_map.
Qed.

Lemma pass_cuts_every_request_witness :
  let res := packingPass fiveCuts twoStocks 5 in
  concat (map cuts (bins res)) ≡ₚ map len fiveCuts /\
  Forall (fun b => cuts b <> []) (bins res) /\
  (length (bins res) <= length fiveCuts)%nat /\
  stockCount res = length (bins res).
Proof.
  apply (pass_cuts_every_request fiveCuts twoStocks 5 (newStockOption 12000)).
  - apply list_elem_of_here.
  - reflexivity.
Defined.

(** X8: best fit.  A request that fits an open bin goes to an open bin and
    opens no new one: the bin it goes to is one with the least room left
    among those that it fits.  A new bin is opened only when the request
    fits no open bin. *)
Theorem open_bin_best_fit opts kerf st req :
  Exists (fun b => len req + kerf <= remaining b) (ps_bins st) ->
  exists j b,
    ps_bins st !! j = Some b /\
    len req + kerf <= remaining b /\
    Forall (fun b' => len req + kerf <= remaining b' -> remaining b <= remaining b')
      (ps_bins st) /\
    packStep opts kerf st req
    = {| ps_bins := alter (addCut (len req + kerf) (len req)) j (ps_bins st);
         ps_used := ps_used st |}.
Proof.
  intros Hex. unfold packStep.
  destruct (bestFitBin 0 (ps_bins st) (len req + kerf) None) as [[j rem]|] eqn:Hbin.
  - pose proof Hbin as [_ Hmin]%bestFitBin_le.
    apply bestFitBin_spec in Hbin as [|(b & Hb & _ & -> & Hfit)]; [done|].
    rewrite Nat.sub_0_r in Hb. exists j, b. split_and!; [done | lia | | done].
    eapply Forall_impl; [exact Hmin|]. intros b' Hb' ?. simpl in Hb'. lia.
  - apply bestFitBin_none_inv in Hbin. apply Exists_exists in Hex as (b & Hb & Hfit).
    rewrite Forall_forall in Hbin. specialize (Hbin b Hb). lia.
Qed.

Lemma open_bin_best_fit_witness :
  exists j b,
    [{| stockLength := 12000; remaining := 5995; cuts := [6000]; isInventory := false |};
     {| stockLength := 6000; remaining := 3495; cuts := [2500]; isInventory := false |}]
      !! j = Some b /\
    3000 + 5 <= remaining b /\
    Forall (fun b' => 3000 + 5 <= remaining b' -> remaining b <= remaining b')
      [{| stockLength := 12000; remaining := 5995; cuts := [6000]; isInventory := false |};
       {| stockLength := 6000; remaining := 3495; cuts := [2500]; isInventory := false |}] /\
    packStep twoStocks 5
      {| ps_bins :=
           [{| stockLength := 12000; remaining := 5995; cuts := [6000]; isInventory := false |};
            {| stockLength := 6000; remaining := 3495; cuts := [2500]; isInventory := false |}];
         ps_used := ∅ |} (cutOf 3000)
    = {| ps_bins := alter (addCut (3000 + 5) 3000) j
           [{| stockLength := 12000; remaining := 5995; cuts := [6000]; isInventory := false |};
            {| stockLength := 6000; remaining := 3495; cuts := [2500]; isInventory := false |}];
         ps_used := ∅ |}.
Proof.
  apply (open_bin_best_fit twoStocks 5
    {| ps_bins :=
         [{| stockLength := 12000; remaining := 5995; cuts := [6000]; isInventory := false |};
          {| stockLength := 6000; remaining := 3495; cuts := [2500]; isInventory := false |}];
       ps_used := ∅ |} (cutOf 3000)).
  apply Exists_cons_hd. vm_compute. discriminate.
Defined.

(** ** The shuffle and the Monte Carlo loop *)

Lemma random_index_in_range random n k :
  RandomOk random ->
  (Z.to_nat (Qfloor (random n * inject_Z (Z.of_nat k + 1))%Q) <= k)%nat.
Proof.
  intros Hr. destruct (Hr n) as [H0 H1].
  assert (Hk : (0 < inject_Z (Z.of_nat k + 1))%Q).
  { change 0%Q with (inject_Z 0). rewrite <- Zlt_Qlt. lia. }
  assert (Hlt : (random n * inject_Z (Z.of_nat k + 1) < inject_Z (Z.of_nat k + 1))%Q).
  { rewrite <- (Qmult_1_l (inject_Z (Z.of_nat k + 1))) at 2.
    by apply Qmult_lt_compat_r. }
  pose proof (Qfloor_le (random n * inject_Z (Z.of_nat k + 1))) as Hfl.
  assert (Hz : (inject_Z (Qfloor (random n * inject_Z (Z.of_nat k + 1)))
                < inject_Z (Z.of_nat k + 1))%Q) by (eapply Qle_lt_trans; eauto).
  rewrite <- Zlt_Qlt in Hz. lia.
Qed.

(** X9: for random numbers in [0, 1), as [Math.random] gives them, the
    Fisher-Yates shuffle returns the request list in another order (nothing
    is lost or doubled), every index it draws lies in [0, k], and it reads
    one random number for each position but the first. *)
Theorem shuffle_permutes {A} random (l : list A) n :
  RandomOk random ->
  (shuffle random l n).1 ≡ₚ l /\
  (shuffle random l n).2 = (n + (length l - 1))%nat /\
  forall m k, (Z.to_nat (Qfloor (random m * inject_Z (Z.of_nat k + 1))%Q) <= k)%nat.
Proof.
  intros Hr. unfold shuffle.
  destruct (fisherYates_facts random (length l - 1) l n) as [Hp Hn].
  split_and!; [done | done |]. intros m k. by apply random_index_in_range.
Qed.

Lemma streamKeep_ok : RandomOk streamKeep.
Proof. intros n. split; vm_compute; congruence. Qed.

Lemma streamSort_ok : RandomOk streamSort.
Proof.
  intros n. unfold streamSort. destruct (n =? 2)%nat; split; vm_compute; congruence.
Qed.

Lemma shuffle_permutes_witness :
  (shuffle streamSort fiveCuts 0).1 ≡ₚ fiveCuts /\
  (shuffle streamSort fiveCuts 0).2 = (0 + (length fiveCuts - 1))%nat /\
  forall m k, (Z.to_nat (Qfloor (streamSort m * inject_Z (Z.of_nat k + 1))%Q) <= k)%nat.
Proof.
  apply (shuffle_permutes streamSort fiveCuts 0). apply streamSort_ok.
Defined.

(** X10: whatever the random numbers are, the bins the Monte Carlo search
    returns are the bins of one packing pass over the requests in some
    order, their summed remainders are at most those of the seed pass over
    the requests sorted by descending length, and the search reads
    iterations times (number of requests minus 1) random numbers (0 for an
    empty list), with 1, 50 and 200 iterations for FAST, BALANCED and
    DEEP. *)
Theorem monte_carlo_no_worse random reqs opts settings n :
  let res := performMonteCarlo random reqs opts settings n in
  (exists l, l ≡ₚ reqs /\ res.1 = bins (packingPass l opts (kerfMm settings))) /\
  wasteOf res.1
    <= wasteOf (bins (packingPass (sortRequestsDesc reqs) opts (kerfMm settings))) /\
  res.2 = (n + iterationsOf (optimizationLevel settings) * (length reqs - 1))%nat.
Proof. apply performMonteCarlo_facts. Qed.

(** ** The sequential consumer of the inventory *)

Lemma bestFitOffcut_mono offcuts used needed : forall i best,
  is_Some best -> is_Some (bestFitOffcut i offcuts used needed best).
Proof.
  induction offcuts as [|o offcuts IH]; intros i best Hbest; simpl; [done|].
  case_bool_decide; apply IH; [done|]. by case_match.
Qed.

Lemma bestFitOffcut_none_inv offcuts used needed : forall i,
  bestFitOffcut i offcuts used needed None = None ->
  forall j o, offcuts !! j = Some o -> (i + j)%nat ∉ used -> oc_len o < needed.
Proof.
  induction offcuts as [|o offcuts IH]; intros i H j o' Hj Hfresh; [done|].
  simpl in H. destruct (bool_decide_reflect (i ∈ used)) as [Hin|Hnin].
  - destruct j as [|j]; [by rewrite Nat.add_0_r in Hfresh|].
    apply (IH (S i) H j o' Hj). by replace (S i + j)%nat with (i + S j)%nat by lia.
  - destruct (Z.leb_spec 0 (oc_len o - needed)); simpl in H.
    + pose proof (bestFitOffcut_mono offcuts used needed (S i)
                    (Some (i, oc_len o - needed)) ltac:(by eexists)) as [? Hs].
      congruence.
    + destruct j as [|j]; [injection Hj as <-; lia|].
      apply (IH (S i) H j o' Hj). by replace (S i + j)%nat with (i + S j)%nat by lia.
Qed.

Lemma seqStep_kept offcuts kerf processed st req :
  SeqKept kerf offcuts processed st -> 0 <= len req + kerf ->
  SeqKept kerf offcuts (processed ++ [req]) (seqStep offcuts kerf st req).
Proof.
  intros (Hcons & Hbins & (idxs & Hlens & Hnd & Hidx) & Hrange & Hdef) Hpos.
  unfold seqStep.
  destruct (bestFitBin 0 (inventoryBins st) (len req + kerf) None) as [[j rem]|] eqn:Hbin.
  { apply bestFitBin_spec in Hbin as [|(b & Hb & _ & -> & Hfit)]; [done|].
    rewrite Nat.sub_0_r in Hb.
    unfold SeqKept. cbn [inventoryBins remainingRequests usedOffcutIndices].
    split_and!.
    - rewrite (cuts_alter _ j b _ _ Hb), map_app, <- Hcons. simpl.
      apply Permutation_cons_append.
    - apply Forall_alter; [done|]. intros b' Hb' (Hi & H0 & Hrem).
      rewrite Hb in Hb'. injection Hb' as <-. simpl.
      split_and!; [done | lia |]. rewrite sumNeeded_app. simpl. lia.
    - exists idxs. by rewrite map_stockLength_alter.
    - done.
    - intros r Hr. destruct (Hdef r Hr) as [Hfull Hunused]. split; [|done].
      apply Forall_alter; [done|]. intros b' _ Hb'. simpl. lia. }
  apply bestFitBin_none_inv in Hbin.
  destruct (bestFitOffcut 0 offcuts (usedOffcutIndices st) (len req + kerf) None)
    as [[j rem]|] eqn:Hoff.
  - apply bestFitOffcut_spec in Hoff as [|(o & Ho & _ & Hfresh & -> & Hfit)]; [done|].
    rewrite Nat.sub_0_r in Ho.
    unfold SeqKept. cbn [inventoryBins remainingRequests usedOffcutIndices].
    rewrite Ho. cbn [fmap option_fmap option_map default].
    split_and!.
    + rewrite !map_app, concat_app, <- Hcons. simpl.
      rewrite <- !app_assoc. apply Permutation_app_head. simpl.
      apply Permutation_cons_append.
    + apply Forall_app. split; [done|]. apply Forall_singleton. simpl.
      split_and!; [done | lia | lia].
    + exists (idxs ++ [j]). split_and!.
      * rewrite !map_app, Hlens. f_equal. simpl. unfold offcutLen. by rewrite Ho.
      * apply NoDup_app. split_and!; [done | | apply NoDup_singleton].
        intros i Hi ->%list_elem_of_singleton. by apply Hidx in Hi.
      * intros i. rewrite elem_of_app, list_elem_of_singleton, elem_of_union,
          elem_of_singleton, Hidx. tauto.
    + intros i [->%elem_of_singleton|Hi]%elem_of_union; [|by apply Hrange].
      by apply lookup_lt_Some in Ho.
    + intros r Hr. destruct (Hdef r Hr) as [Hfull Hunused]. split.
      * apply Forall_app. split; [done|]. apply Forall_singleton. simpl.
        specialize (Hunused j o Ho Hfresh). lia.
      * intros j' o' Ho' Hj'. apply (Hunused j' o' Ho').
        intros Hin. apply Hj', elem_of_union. by right.
  - pose proof (bestFitOffcut_none_inv _ _ _ _ Hoff) as Hnone.
    unfold SeqKept. cbn [inventoryBins remainingRequests usedOffcutIndices].
    split_and!.
    + by rewrite !map_app, app_assoc, Hcons.
    + done.
    + by exists idxs.
    + done.
    + intros r [Hr| ->%list_elem_of_singleton]%elem_of_app; [by apply Hdef|].
      split; [done|]. intros j o Ho Hj. by apply (Hnone j o Ho).
Qed.

Lemma seqFold_kept offcuts kerf : forall l processed st,
  SeqKept kerf offcuts processed st ->
  Forall (fun r => 0 <= len r + kerf) l ->
  SeqKept kerf offcuts (processed ++ l) (fold_left (seqStep offcuts kerf) l st).
Proof.
  induction l as [|r l IH]; intros processed st Hst Hall; simpl.
  - by rewrite app_nil_r.
  - apply Forall_cons in Hall as [Hr Hall].
    replace (processed ++ r :: l) with ((processed ++ [r]) ++ l)
      by (by rewrite <- app_assoc).
    apply IH; [|done]. by apply seqStep_kept.
Qed.

Lemma unused_units offcuts (used : gset nat) idxs :
  NoDup idxs -> (forall i, i ∈ idxs <-> i ∈ used) ->
  (forall i, i ∈ used -> (i < length offcuts)%nat) ->
  map oc_len offcuts
    ≡ₚ map (offcutLen offcuts) idxs ++
       map (offcutLen offcuts) (filter (fun i => i ∉ used) (seq 0 (length offcuts))).
Proof.
  intros Hnd Hidx Hrange. rewrite <- offcutLen_seq, <- map_app.
  apply fmap_Permutation. symmetry. apply NoDup_Permutation.
  - apply NoDup_app. split_and!; [done | | apply NoDup_filter, NoDup_seq].
    intros i Hi [Hn _]%list_elem_of_filter. by apply Hn, Hidx.
  - apply NoDup_seq.
  - intros i. rewrite elem_of_app, list_elem_of_filter, elem_of_seq, Hidx. split.
    + intros [Hi|[_ Hi]]; [|done]. apply Hrange in Hi. lia.
    + intros Hi. destruct (decide (i ∈ used)); [by left | by right].
Qed.

(** X11: the sequential consumer, for requests with [len + kerf >= 0].  Every
    request becomes a cut of exactly one inventory bin or is deferred; every
    bin is an inventory bin whose remainder is not negative and equals its
    stock length minus the cuts and their kerfs; the bins stand on distinct
    units of the inventory; and a deferred request fits neither the room
    left in any bin nor any unit that is left unused. *)
Theorem sequential_consumer_sound reqs inventory settings :
  Forall (fun r => 0 <= len r + kerfMm settings) reqs ->
  let res := consumeInventorySequential reqs inventory settings in
  concat (map cuts res.1) ++ map len res.2 ≡ₚ map len reqs /\
  Forall (fun b => isInventory b = true /\ 0 <= remaining b /\
                   remaining b = stockLength b - sumNeeded (kerfMm settings) (cuts b))
    res.1 /\
  exists unused,
    map oc_len (flattenInventory inventory) ≡ₚ map stockLength res.1 ++ unused /\
    forall r, r ∈ res.2 ->
      Forall (fun b => remaining b < len r + kerfMm settings) res.1 /\
      Forall (fun u => u < len r + kerfMm settings) unused.
Proof.
  intros Hpos. cbn zeta. unfold consumeInventorySequential. cbn [fst snd].
  set (offcuts := sortStable _ (flattenInventory inventory)).
  assert (Hsorted : Forall (fun r => 0 <= len r + kerfMm settings) (sortRequestsDesc reqs)).
  { apply Forall_forall. intros r Hr. rewrite Forall_forall in Hpos. apply Hpos.
    unfold sortRequestsDesc in Hr. by rewrite sortStable_perm in Hr. }
  pose proof (seqFold_kept offcuts (kerfMm settings) (sortRequestsDesc reqs) []
    {| inventoryBins := []; remainingRequests := []; usedOffcutIndices := ∅ |})
    as Hkept.
  destruct Hkept as (Hcons & Hbins & (idxs & Hlens & Hnd & Hidx) & Hrange & Hdef);
    [|done|].
  { unfold SeqKept. simpl. split_and!; [done | constructor | | set_solver | set_solver].
    exists []. split_and!; [done | constructor | set_solver]. }
  simpl in Hcons. split_and!.
  - rewrite Hcons. apply fmap_Permutation, sortStable_perm.
  - done.
  - exists (map (offcutLen offcuts)
              (filter (fun i => i ∉ usedOffcutIndices
                 (fold_left (seqStep offcuts (kerfMm settings)) (sortRequestsDesc reqs)
                    {| inventoryBins := []; remainingRequests := [];
                       usedOffcutIndices := ∅ |}))
                 (seq 0 (length offcuts)))).
    split.
    + rewrite Hlens, <- (unused_units offcuts _ idxs Hnd Hidx Hrange).
      symmetry. apply fmap_Permutation. subst offcuts. apply sortStable_perm.
    + intros r Hr. destruct (Hdef r Hr) as [Hfull Hunused]. split; [done|].
      apply Forall_forall. intros u (i & -> & [Hi Hseq]%list_elem_of_filter)%list_elem_of_fmap.
      apply elem_of_seq in Hseq. unfold offcutLen.
      destruct (offcuts !! i) as [o|] eqn:Ho.
      * simpl. by apply (Hunused i o).
      * apply lookup_ge_None in Ho. lia.
Qed.

Lemma sequential_consumer_sound_witness :
  let settings := defaultSettings BALANCED SEQUENTIAL in
  let res := consumeInventorySequential fiveCuts oneOffcut12 settings in
  concat (map cuts res.1) ++ map len res.2 ≡ₚ map len fiveCuts /\
  Forall (fun b => isInventory b = true /\ 0 <= remaining b /\
                   remaining b = stockLength b - sumNeeded (kerfMm settings) (cuts b))
    res.1 /\
  exists unused,
    map oc_len (flattenInventory oneOffcut12) ≡ₚ map stockLength res.1 ++ unused /\
    forall r, r ∈ res.2 ->
      Forall (fun b => remaining b < len r + kerfMm settings) res.1 /\
      Forall (fun u => u < len r + kerfMm settings) unused.
Proof.
  apply (sequential_consumer_sound fiveCuts oneOffcut12 (defaultSettings BALANCED SEQUENTIAL)).
  unfold fiveCuts. simpl.
  repeat (apply Forall_cons_2; [vm_compute; discriminate|]). apply Forall_nil_2.
Defined.

(** ** The pattern key is one to one *)

Lemma dashFree_uint d : dashFree (NilEmpty.string_of_uint d).
Proof. induction d; simpl; (done || by split). Qed.

Lemma dashFree_digits d : dashFree (NilZero.string_of_uint d).
Proof.
  unfold NilZero.string_of_uint. destruct d; try apply dashFree_uint. by split.
Qed.

Lemma digits_nonempty d : NilZero.string_of_uint d <> ""%string.
Proof. unfold NilZero.string_of_uint. by destruct d. Qed.

Lemma dashFree_prefix s1 : forall s2 r1 r2,
  dashFree s1 -> dashFree s2 -> dashOrEnd r1 -> dashOrEnd r2 ->
  (s1 +:+ r1 = s2 +:+ r2)%string -> s1 = s2 /\ r1 = r2.
Proof.
  induction s1 as [|a s1 IH]; intros [|b s2] r1 r2 H1 H2 E1 E2 E; simpl in *.
  - done.
  - destruct E1 as [->|[t ->]]; [done|]. injection E as E _.
    destruct H2 as [H2 _]. congruence.
  - destruct E2 as [->|[t ->]]; [done|]. injection E as E _.
    destruct H1 as [H1 _]. congruence.
  - injection E as -> E. destruct H1 as [_ H1], H2 as [_ H2].
    destruct (IH s2 r1 r2 H1 H2 E1 E2 E) as [-> ->]. done.
Qed.

Lemma string_app_inv_head (s : string) : forall x y,
  (s +:+ x = s +:+ y)%string -> x = y.
Proof. induction s as [|a s IH]; intros x y E; simpl in E; [done|]. injection E. apply IH. Qed.

(** A number at the head of the joined cuts is read off in one way. *)
Lemma string_of_Z_prefix a b r1 r2 :
  dashOrEnd r1 -> dashOrEnd r2 ->
  (string_of_Z a +:+ r1 = string_of_Z b +:+ r2)%string -> a = b /\ r1 = r2.
Proof.
  intros E1 E2 E.
  assert (Hkey : string_of_Z a = string_of_Z b /\ r1 = r2);
    [|destruct Hkey as [Hab ->]; split; [by apply string_of_Z_inj | done]].
  unfold string_of_Z, NilZero.string_of_int in *.
  assert (Hhead : forall d r, dashFree (NilZero.string_of_uint d) ->
            forall t, (NilZero.string_of_uint d +:+ r)%string <> String "-" t).
  { intros d r Hd t Ht. pose proof (digits_nonempty d) as Hne.
    destruct (NilZero.string_of_uint d) as [|c ds]; [done|].
    simpl in Ht, Hd. injection Ht as Hc _. by destruct Hd. }
  destruct (Z.to_int a) as [da|da], (Z.to_int b) as [db|db].
  - destruct (dashFree_prefix _ _ _ _ (dashFree_digits da) (dashFree_digits db) E1 E2 E)
      as [-> ->]. done.
  - simpl in E. by apply Hhead in E; [|apply dashFree_digits].
  - simpl in E. symmetry in E. by apply Hhead in E; [|apply dashFree_digits].
  - simpl in E. injection E as E.
    destruct (dashFree_prefix _ _ _ _ (dashFree_digits da) (dashFree_digits db) E1 E2 E)
      as [-> ->]. done.
Qed.

Lemma string_of_Z_nonempty z : string_of_Z z <> ""%string.
Proof.
  unfold string_of_Z, NilZero.string_of_int.
  destruct (Z.to_int z); [apply digits_nonempty | done].
Qed.

Lemma joinWith_cons z l :
  joinWith "-" (map string_of_Z (z :: l))
  = (string_of_Z z +:+
       match l with
       | [] => ""
       | _ => String "-" (joinWith "-" (map string_of_Z l))
       end)%string.
Proof.
  destruct l as [|z' l]; simpl.
  - clear. induction (string_of_Z z) as [|c s IH]; [done|].
    change (String c s = String c (s +:+ "")). by f_equal.
  - done.
Qed.

Lemma joinWith_inj : forall l l',
  joinWith "-" (map string_of_Z l) = joinWith "-" (map string_of_Z l') -> l = l'.
Proof.
  assert (Hrest : forall l : list Z, dashOrEnd
            match l with
            | [] => ""%string
            | _ => String "-" (joinWith "-" (map string_of_Z l))
            end).
  { intros [|? ?]; [by left | right; by eexists]. }
  assert (Hne : forall z l, joinWith "-" (map string_of_Z (z :: l)) <> ""%string).
  { intros z l. rewrite joinWith_cons. pose proof (string_of_Z_nonempty z).
    by destruct (string_of_Z z). }
  induction l as [|z l IH]; intros [|z' l'] E.
  - done.
  - symmetry in E. by apply Hne in E.
  - by apply Hne in E.
  - rewrite !joinWith_cons in E.
    apply string_of_Z_prefix in E as [-> E]; [|apply Hrest..].
    f_equal. destruct l as [|y l], l' as [|y' l']; try done.
    injection E as E. by apply IH.
Qed.

Lemma patternKey_cuts b1 b2 :
  patternKey b1 = patternKey b2 -> sortDesc (cuts b1) = sortDesc (cuts b2).
Proof.
  intros E. destruct (patternKey_inj b1 b2 E) as [Hi Hs].
  unfold patternKey in E. rewrite Hi, Hs in E.
  apply string_app_inv_head in E. injection E as E.
  apply (string_app_inv_head (string_of_Z (stockLength b2))
           (String "|" (joinWith "-" (map string_of_Z (sortDesc (cuts b1)))))
           (String "|" (joinWith "-" (map string_of_Z (sortDesc (cuts b2)))))) in E.
  injection E as E. by apply joinWith_inj.
Qed.

Lemma patternKey_eq b1 b2 :
  patternKey b1 = patternKey b2 <->
  isInventory b1 = isInventory b2 /\ stockLength b1 = stockLength b2 /\
  sortDesc (cuts b1) = sortDesc (cuts b2).
Proof.
  split.
  - intros E. destruct (patternKey_inj b1 b2 E). split_and!; [done..|].
    by apply patternKey_cuts.
  - intros (Hi & Hs & Hc). unfold patternKey. by rewrite Hi, Hs, Hc.
Qed.

(** ** Maps in insertion order *)

Lemma mapUpsert_keys {K V} `{EqDecision K} (k : K) (fresh : V) upd m :
  map fst (mapUpsert k fresh upd m)
  = if decide (k ∈ map fst m) then map fst m else map fst m ++ [k].
Proof.
  induction m as [|[k' v] m IH]; simpl.
  - done.
  - destruct (decide (k' = k)) as [->|Hne]; simpl.
    + rewrite decide_True by apply list_elem_of_here. done.
    + rewrite IH. destruct (decide (k ∈ map fst m)) as [Hin|Hnin].
      * rewrite decide_True by by apply list_elem_of_further. done.
      * rewrite decide_False; [done|].
        intros [?|?]%elem_of_cons; [congruence | done].
Qed.

Lemma mapUpsert_NoDup {K V} `{EqDecision K} (k : K) (fresh : V) upd m :
  NoDup (map fst m) -> NoDup (map fst (mapUpsert k fresh upd m)).
Proof.
  intros Hnd. rewrite mapUpsert_keys. case_decide as Hin; [done|].
  apply NoDup_app. split_and!; [done | | apply NoDup_singleton].
  by intros k' Hk' ->%list_elem_of_singleton.
Qed.

Lemma mapUpsert_key_elem {K V} `{EqDecision K} (k : K) (fresh : V) upd m k' :
  k' ∈ map fst (mapUpsert k fresh upd m) <-> k' = k \/ k' ∈ map fst m.
Proof.
  rewrite mapUpsert_keys. case_decide as Hin.
  - split; [by right | by intros [->|?]].
  - rewrite elem_of_app, list_elem_of_singleton. tauto.
Qed.

(** A sum over the entries, with a weight that may look at the key. *)
Lemma mapUpsert_sum_kv {K V} `{EqDecision K} (g : K -> V -> nat) (k : K) fresh upd d m :
  g k fresh = d ->
  (forall v, (k, v) ∈ m -> g k (upd v) = (g k v + d)%nat) ->
  sum_list_with (fun kv => g kv.1 kv.2) (mapUpsert k fresh upd m)
  = (sum_list_with (fun kv => g kv.1 kv.2) m + d)%nat.
Proof.
  intros Hfresh. induction m as [|[k' v] m IH]; intros Hupd; simpl.
  - lia.
  - case_decide as Hk; simpl.
    + subst k'. rewrite (Hupd v) by apply list_elem_of_here. lia.
    + rewrite IH; [lia|]. intros v' Hv'. apply Hupd. by apply list_elem_of_further.
Qed.

Lemma mapUpsert_sum_Z {K V} `{EqDecision K} (g : K -> V -> Z) (k : K) fresh upd d m :
  g k fresh = d ->
  (forall v, (k, v) ∈ m -> g k (upd v) = g k v + d) ->
  sumZ (map (fun kv => g kv.1 kv.2) (mapUpsert k fresh upd m))
  = sumZ (map (fun kv => g kv.1 kv.2) m) + d.
Proof.
  intros Hfresh. induction m as [|[k' v] m IH]; intros Hupd; simpl.
  - lia.
  - case_decide as Hk; simpl.
    + subst k'. rewrite (Hupd v) by apply list_elem_of_here. lia.
    + rewrite IH; [lia|]. intros v' Hv'. apply Hupd. by apply list_elem_of_further.
Qed.

Lemma NoDup_keys_sum {K V} `{EqDecision K} (g : V -> nat) (m : list (K * V)) k v :
  NoDup (map fst m) -> (k, v) ∈ m ->
  sum_list_with (fun kv => if decide (kv.1 = k) then g kv.2 else 0%nat) m = g v.
Proof.
  induction m as [|[k' v'] m IH]; intros Hnd Hin; [by apply elem_of_nil in Hin|].
  simpl in Hnd. apply NoDup_cons in Hnd as [Hnin Hnd]. simpl.
  assert (Hzero : forall m' : list (K * V), k ∉ map fst m' ->
            sum_list_with (fun kv => if decide (kv.1 = k) then g kv.2 else 0%nat) m'
            = 0%nat).
  { clear. induction m' as [|[k0 v0] m' IH]; intros Hk; simpl; [done|].
    simpl in Hk. apply not_elem_of_cons in Hk as [Hne Hk].
    rewrite decide_False by done. by rewrite IH. }
  apply elem_of_cons in Hin as [[= <- <-]|Hin].
  - rewrite decide_True by done. rewrite Hzero by done. lia.
  - rewrite decide_False.
    + by rewrite IH.
    + intros ->. apply Hnin. apply list_elem_of_fmap. by exists (k, v).
Qed.

Lemma NoDup_keys_fun {K V} (m : list (K * V)) k v v' :
  NoDup (map fst m) -> (k, v) ∈ m -> (k, v') ∈ m -> v = v'.
Proof.
  induction m as [|[k0 v0] m IH]; intros Hnd H1 H2; [by apply elem_of_nil in H1|].
  simpl in Hnd. apply NoDup_cons in Hnd as [Hnin Hnd].
  assert (Hkey : forall w, (k0, w) ∈ m -> False).
  { intros w Hw. apply Hnin, list_elem_of_fmap. by exists (k0, w). }
  apply elem_of_cons in H1 as [E1|H1]; apply elem_of_cons in H2 as [E2|H2].
  - congruence.
  - injection E1 as -> ->. by apply Hkey in H2.
  - injection E2 as -> ->. by apply Hkey in H1.
  - by apply IH.
Qed.

(** ** The rows of the cutting plan *)

Lemma patternRows_step seen m b :
  PatternRows seen m ->
  PatternRows (seen ++ [b]) (mapUpsert (patternKey b) (patternOfBin b) bumpCount m).
Proof.
  intros (Hnd & Hpat & Hcount & Hcov). split_and!.
  - by apply mapUpsert_NoDup.
  - by apply mapUpsert_PatternOf.
  - intros k0.
    pose (g := fun (k : string) (v : Pattern) =>
                 if decide (k = k0) then pt_count v else 0%nat).
    pose proof (mapUpsert_sum_kv g (patternKey b) (patternOfBin b) bumpCount
                  (if decide (patternKey b = k0) then 1%nat else 0%nat) m) as Hsum.
    unfold g in Hsum. cbn beta in Hsum. rewrite Hsum.
    + rewrite Hcount, filter_app, length_app. f_equal.
      rewrite filter_cons, filter_nil. by case_decide.
    + done.
    + intros v _. simpl. case_decide; lia.
  - intros b' [Hb'| ->%list_elem_of_singleton]%elem_of_app;
      apply mapUpsert_key_elem; [right; by apply Hcov | by left].
Qed.

Lemma patternMapOf_rows bs : PatternRows bs (patternMapOf bs).
Proof.
  unfold patternMapOf.
  assert (H : forall m seen, PatternRows seen m ->
    PatternRows (seen ++ bs)
      (fold_left (fun m b => mapUpsert (patternKey b) (patternOfBin b) bumpCount m) bs m)).
  { induction bs as [|b bs IH]; intros m seen Hm; simpl.
    - by rewrite app_nil_r.
    - replace (seen ++ b :: bs) with ((seen ++ [b]) ++ bs) by by rewrite <- app_assoc.
      by apply IH, patternRows_step. }
  apply (H [] []). split_and!; [constructor | by intros ? ? ?%elem_of_nil | done |
                                by intros ? ?%elem_of_nil].
Qed.

Lemma inRow_key dia settings bs k p b :
  PatternOf bs k p -> (inRow (planItemOf dia settings p) b <-> patternKey b = k).
Proof.
  intros (b0 & _ & -> & Hcuts & _ & Hstock & Hinv).
  rewrite patternKey_eq. unfold inRow, planItemOf. simpl.
  rewrite Hcuts, Hstock, Hinv.
  destruct (isInventory b0), (isInventory b); split; intros (? & ? & ?); by split_and!.
Qed.

Lemma sumNeeded_perm kerf cs ds : cs ≡ₚ ds -> sumNeeded kerf cs = sumNeeded kerf ds.
Proof. induction 1; simpl; lia. Qed.

Lemma planItemsOf_rows dia settings bs :
  let items := planItemsOf dia settings bs in
  NoDup (map rowKey items) /\
  (forall b, b ∈ bs -> exists it, it ∈ items /\ inRow it b) /\
  forall it, it ∈ items ->
    cp_dia it = dia /\
    count it = length (filter (inRow it) bs) /\
    (1 <= count it)%nat /\
    forall kerf b,
      Forall (fun b => remaining b = stockLength b - sumNeeded kerf (cuts b)) bs ->
      b ∈ bs -> inRow it b ->
      Z.max 0 (remaining b) = waste it + offcut it /\ (waste it = 0 \/ offcut it = 0).
Proof.
  cbn zeta. unfold planItemsOf.
  destruct (patternMapOf_rows bs) as (Hnd & Hpat & Hcount & Hcov).
  assert (Hitem : forall it, it ∈ map (fun kv => planItemOf dia settings kv.2) (patternMapOf bs)
            <-> exists k p, (k, p) ∈ patternMapOf bs /\ it = planItemOf dia settings p).
  { intros it. rewrite list_elem_of_fmap. split.
    - intros ([k p] & -> & Hin). by exists k, p.
    - intros (k & p & Hin & ->). by exists (k, p). }
  split_and!.
  - rewrite <- list_fmap_compose.
    apply NoDup_fmap_2_strong; [|by apply NoDup_fmap_1 in Hnd].
    intros [k1 p1] [k2 p2] H1 H2 E. simpl in E.
    assert (k1 = k2) as ->.
    { destruct (Hpat _ _ H1) as (b1 & Hb1 & Hk1 & ?).
      rewrite Hk1. apply (inRow_key dia settings bs k2 p2 b1 (Hpat _ _ H2)).
      assert (Hr1 : inRow (planItemOf dia settings p1) b1)
        by by apply (inRow_key dia settings bs k1 p1 b1 (Hpat _ _ H1)).
      unfold inRow in *. unfold rowKey in E. simpl in *. injection E as E1 E2 E3.
      destruct Hr1 as (? & ? & ?). split_and!; congruence. }
    f_equal. by eapply NoDup_keys_fun.
  - intros b Hb. apply Hcov, list_elem_of_fmap in Hb as ([k p] & Hk & Hin).
    simpl in Hk. exists (planItemOf dia settings p). split.
    + apply Hitem. by exists k, p.
    + by apply (inRow_key dia settings bs k p b); [apply Hpat|].
  - intros it (k & p & Hin & ->)%Hitem.
    pose proof (Hpat _ _ Hin) as HP.
    assert (Hc : pt_count p = length (filter (inRow (planItemOf dia settings p)) bs)).
    { rewrite <- (NoDup_keys_sum pt_count _ k p Hnd Hin), Hcount.
      f_equal. apply list_filter_iff. intros b. symmetry. by eapply inRow_key. }
    split_and!; [done | done | |].
    + simpl. rewrite Hc. destruct HP as (b0 & Hb0 & Hk & _).
      assert (Hin0 : b0 ∈ filter (inRow (planItemOf dia settings p)) bs).
      { apply list_elem_of_filter. split; [|done].
        by apply (inRow_key dia settings bs k p b0); [apply Hpat|]. }
      destruct (filter _ bs); [by apply elem_of_nil in Hin0 | simpl; lia].
    + intros kerf b Hbooks Hb Hrow.
      apply (inRow_key dia settings bs k p b HP) in Hrow.
      destruct HP as (b0 & Hb0 & Hk & _ & Hrem & _).
      assert (Hsame : remaining b = remaining b0).
      { rewrite Forall_forall in Hbooks. rewrite (Hbooks b Hb), (Hbooks b0 Hb0).
        subst k. apply patternKey_eq in Hrow as (_ & -> & Hcuts).
        f_equal. apply sumNeeded_perm.
        unfold sortDesc in Hcuts.
        rewrite <- (sortStable_perm (fun a b => b <=? a) (cuts b)), Hcuts.
        apply sortStable_perm. }
      unfold planItemOf. simpl. rewrite Hrem, Hsame.
      destruct (minLeftoverMm settings <=? Z.max 0 (remaining b0)); split; (lia || tauto).
Qed.

(** ** Every request of a group and of a solve is cut *)

Lemma seqStep_conserves offcuts kerf processed st req :
  concat (map cuts (inventoryBins st)) ++ map len (remainingRequests st)
    ≡ₚ map len processed ->
  Forall (fun b => cuts b <> []) (inventoryBins st) ->
  let st' := seqStep offcuts kerf st req in
  concat (map cuts (inventoryBins st')) ++ map len (remainingRequests st')
    ≡ₚ map len (processed ++ [req]) /\
  Forall (fun b => cuts b <> []) (inventoryBins st').
Proof.
  intros Hcons Hne. cbn zeta. unfold seqStep.
  destruct (bestFitBin 0 (inventoryBins st) (len req + kerf) None) as [[j rem]|] eqn:Hbin.
  { apply bestFitBin_spec in Hbin as [|(b & Hb & _)]; [done|].
    rewrite Nat.sub_0_r in Hb. cbn [inventoryBins remainingRequests]. split.
    - rewrite (cuts_alter _ j b _ _ Hb), map_app, <- Hcons. simpl.
      apply Permutation_cons_append.
    - apply Forall_alter; [done|]. intros b' _ _. simpl. by destruct (cuts b'). }
  destruct (bestFitOffcut 0 offcuts (usedOffcutIndices st) (len req + kerf) None)
    as [[j rem]|]; cbn [inventoryBins remainingRequests]; split.
  - rewrite !map_app, concat_app, <- Hcons. simpl.
    rewrite <- !app_assoc. apply Permutation_app_head. simpl.
    apply Permutation_cons_append.
  - apply Forall_app. split; [done|]. by apply Forall_singleton.
  - by rewrite !map_app, app_assoc, Hcons.
  - done.
Qed.

Lemma consumeInventorySequential_conserves reqs inventory settings :
  let res := consumeInventorySequential reqs inventory settings in
  concat (map cuts res.1) ++ map len res.2 ≡ₚ map len reqs /\
  Forall (fun b => cuts b <> []) res.1.
Proof.
  cbn zeta. unfold consumeInventorySequential. cbn [fst snd].
  set (offcuts := sortStable _ (flattenInventory inventory)).
  assert (H : forall l processed st,
    concat (map cuts (inventoryBins st)) ++ map len (remainingRequests st)
      ≡ₚ map len processed ->
    Forall (fun b => cuts b <> []) (inventoryBins st) ->
    let st' := fold_left (seqStep offcuts (kerfMm settings)) l st in
    concat (map cuts (inventoryBins st')) ++ map len (remainingRequests st')
      ≡ₚ map len (processed ++ l) /\
    Forall (fun b => cuts b <> []) (inventoryBins st')).
  { induction l as [|r l IH]; intros processed st Hc Hn; simpl.
    - by rewrite app_nil_r.
    - replace (processed ++ r :: l) with ((processed ++ [r]) ++ l)
        by (by rewrite <- app_assoc).
      destruct (seqStep_conserves offcuts (kerfMm settings) processed st r Hc Hn).
      by apply IH. }
  destruct (H (sortRequestsDesc reqs) []
    {| inventoryBins := []; remainingRequests := []; usedOffcutIndices := ∅ |})
    as [Hc Hn]; [done | constructor |].
  split; [|done]. rewrite Hc. simpl. apply fmap_Permutation, sortStable_perm.
Qed.

Lemma packingPass_nonempty reqs opts kerf :
  Forall (fun b => cuts b <> []) (bins (packingPass reqs opts kerf)).
Proof.
  unfold packingPass. cbn [bins].
  assert (H0 : Forall (fun b => cuts b <> []) (ps_bins {| ps_bins := []; ps_used := ∅ |}))
    by constructor.
  revert H0. generalize ({| ps_bins := []; ps_used := ∅ |}).
  induction reqs as [|r reqs IH]; intros st Hst; simpl; [done|].
  by apply IH, packStep_nonempty.
Qed.

Lemma optimizeDiaGroup_conserves random reqs stock settings inventory n :
  stock <> [] ->
  let bs := (optimizeDiaGroup random reqs stock settings inventory n).1 in
  concat (map cuts bs) ≡ₚ map len reqs /\ Forall (fun b => cuts b <> []) bs.
Proof.
  intros Hstock. cbn zeta.
  destruct stock as [|s stock]; [done|].
  unfold optimizeDiaGroup. destruct (inventoryStrategy settings).
  - pose proof (consumeInventorySequential_conserves reqs inventory settings) as [Hc Hn].
    destruct (consumeInventorySequential _ _ _) as [invBins [|r rest]]; cbn [fst snd] in *.
    { split; [|done]. by rewrite <- Hc, app_nil_r. }
    destruct (performMonteCarlo_facts random (r :: rest)
                (map newStockOption (s :: stock)) settings n) as ((l & Hl & Hres) & _).
    destruct (performMonteCarlo _ _ _ _ _) as [resBins n']. cbn [fst snd] in *.
    subst resBins. split.
    + rewrite map_app, concat_app, <- Hc. apply Permutation_app_head.
      rewrite (packingPass_serves_all l _ (kerfMm settings) (newStockOption s));
        [by rewrite Hl | apply list_elem_of_here | done].
    + apply Forall_app. split; [done | apply packingPass_nonempty].
  - set (opts := map newStockOption (s :: stock) ++ _).
    destruct (performMonteCarlo_facts random reqs opts settings n)
      as ((l & Hl & Hres) & _).
    rewrite Hres. split; [|apply packingPass_nonempty].
    rewrite (packingPass_serves_all l opts (kerfMm settings) (newStockOption s));
      [by rewrite Hl | | done].
    subst opts. apply elem_of_app. left. apply list_elem_of_here.
Qed.

(** X12: with at least one stock length, the bins of a diameter group cut
    every request of the group exactly once under both inventory
    strategies, no bin is left without a cut, and there are at most as many
    bins as requests. *)
Theorem group_cuts_every_request random reqs stock settings inventory n :
  stock <> [] ->
  let bs := (optimizeDiaGroup random reqs stock settings inventory n).1 in
  concat (map cuts bs) ≡ₚ map len reqs /\
  Forall (fun b => cuts b <> []) bs /\
  (length bs <= length reqs)%nat.
Proof.
  intros Hstock. cbn zeta.
  destruct (optimizeDiaGroup_conserves random reqs stock settings inventory n Hstock)
    as [Hc Hn].
  split_and!; [done | done |].
  etrans; [by apply nonempty_concat_length|]. by rewrite Hc, length_map.
Qed.

Lemma group_cuts_every_request_witness :
  let bs := (optimizeDiaGroup streamKeep fiveCuts [12000; 6000]
               (defaultSettings BALANCED SEQUENTIAL) oneOffcut12 0).1 in
  concat (map cuts bs) ≡ₚ map len fiveCuts /\
  Forall (fun b => cuts b <> []) bs /\
  (length bs <= length fiveCuts)%nat.
Proof.
  apply (group_cuts_every_request streamKeep fiveCuts [12000; 6000]
           (defaultSettings BALANCED SEQUENTIAL) oneOffcut12 0).
  discriminate.
Defined.

(** ** The totals of a solve *)

Lemma sumZ_cons x l : sumZ (x :: l) = x + sumZ l.
Proof. done. Qed.

Lemma sumZ_app l k : sumZ (l ++ k) = sumZ l + sumZ k.
Proof. unfold sumZ. induction l as [|x l IH]; simpl; [done | rewrite IH; lia]. Qed.

Lemma sumZ_perm l k : l ≡ₚ k -> sumZ l = sumZ k.
Proof. unfold sumZ. induction 1; simpl; lia. Qed.

Lemma fold_left_add l : forall a, fold_left Z.add l a = a + sumZ l.
Proof.
  unfold sumZ. induction l as [|x l IH]; intros a; simpl; [lia|]. rewrite IH. lia.
Qed.

Lemma fold_left_stock (bs : list Bin) : forall a,
  fold_left (fun s b => s + stockLength b) bs a = a + sumZ (map stockLength bs).
Proof.
  unfold sumZ. induction bs as [|b bs IH]; intros a; simpl; [lia|]. rewrite IH. lia.
Qed.

Lemma fold_left_parts (bs : list Bin) : forall a,
  fold_left (fun s b => fold_left Z.add (cuts b) s) bs a
  = a + sumZ (concat (map cuts bs)).
Proof.
  induction bs as [|b bs IH]; intros a; simpl; [unfold sumZ; simpl; lia|].
  rewrite IH, fold_left_add, sumZ_app. lia.
Qed.

Lemma groupsOf_keys random allRequests catalog settings inventory dias : forall n,
  map fst (groupsOf random allRequests catalog settings inventory dias n) = dias.
Proof. induction dias as [|d dias IH]; intros n; simpl; [done | by rewrite IH]. Qed.

Lemma groupsOf_elem random allRequests catalog settings inventory dias : forall n d bs,
  (d, bs) ∈ groupsOf random allRequests catalog settings inventory dias n ->
  d ∈ dias /\
  exists n', bs = groupBins random allRequests catalog settings inventory d n'.
Proof.
  induction dias as [|d0 dias IH]; intros n d bs Hin; simpl in Hin.
  - by apply elem_of_nil in Hin.
  - apply elem_of_cons in Hin as [[= -> ->]|Hin].
    + split; [apply list_elem_of_here | by exists n].
    + apply IH in Hin as [Hd Hn]. split; [by apply list_elem_of_further | done].
Qed.

Lemma fold_diaStep_groups random allRequests catalog settings inventory dias :
  forall acc,
  let t := fold_left (diaStep random allRequests catalog settings inventory) dias acc in
  let gs := groupsOf random allRequests catalog settings inventory dias (rngCalls acc) in
  cuttingPlan t = cuttingPlan acc ++ flat_map (fun g => planItemsOf g.1 settings g.2) gs /\
  procurement t = procurement acc ++ flat_map (fun g => procurementOf g.1 g.2) gs /\
  globalTotalInputLength t
  = globalTotalInputLength acc + sumZ (map stockLength (flat_map snd gs)) /\
  globalTotalPartsLength t
  = globalTotalPartsLength acc + sumZ (concat (map cuts (flat_map snd gs))).
Proof.
  induction dias as [|d dias IH]; intros acc; cbn zeta.
  { simpl. rewrite !app_nil_r. unfold sumZ. simpl. split_and!; (done || lia). }
  cbn [fold_left groupsOf flat_map fst snd].
  destruct (IH (diaStep random allRequests catalog settings inventory acc d))
    as (Hplan & Hproc & Hin & Hparts).
  unfold diaStep in Hplan, Hproc, Hin, Hparts |- *.
  destruct (optimizeDiaGroup random _ _ settings _ (rngCalls acc)) as [bs n'].
  cbn [cuttingPlan procurement globalTotalInputLength globalTotalPartsLength rngCalls
       fst snd] in *.
  rewrite Hplan, Hproc, Hin, Hparts.
  rewrite fold_left_stock, fold_left_parts, !map_app, concat_app, !sumZ_app, <- !app_assoc.
  split_and!; (done || lia).
Qed.

Lemma sum_by_dia (f : CutReq -> Z) (reqs : list CutReq) dias :
  NoDup dias -> (forall r, r ∈ reqs -> cr_dia r ∈ dias) ->
  sumZ (flat_map (fun d => map f (filter (fun r => cr_dia r = d) reqs)) dias)
  = sumZ (map f reqs).
Proof.
  intros Hnd. induction reqs as [|r reqs IH]; intros Hcov.
  - simpl. clear. induction dias as [|d dias IH]; [done|]. by simpl.
  - simpl. unfold sumZ at 2. simpl. fold (sumZ (map f reqs)).
    rewrite <- IH by (intros r' Hr'; by apply Hcov, list_elem_of_further).
    assert (Hr : cr_dia r ∈ dias) by apply Hcov, list_elem_of_here.
    clear IH Hcov. revert Hr.
    induction Hnd as [|d dias Hnin Hnd IH]; intros Hr; [by apply elem_of_nil in Hr|].
    cbn [flat_map]. rewrite !sumZ_app, filter_cons.
    apply elem_of_cons in Hr as [Hr|Hr].
    + rewrite decide_True by done. simpl. unfold sumZ at 1. simpl.
      fold (sumZ (map f (filter (fun r0 => cr_dia r0 = d) reqs))).
      assert (Hrest : forall ds, cr_dia r ∉ ds ->
        flat_map (fun d0 => map f (filter (fun r0 => cr_dia r0 = d0) (r :: reqs))) ds
        = flat_map (fun d0 => map f (filter (fun r0 => cr_dia r0 = d0) reqs)) ds).
      { clear. induction ds as [|d0 ds IHd]; intros Hn; [done|].
        apply not_elem_of_cons in Hn as [Hne Hn]. simpl.
        rewrite filter_cons, decide_False by done. by rewrite IHd. }
      rewrite Hrest by by rewrite Hr. lia.
    + rewrite decide_False by (intros E; apply Hnin; by rewrite <- E).
      rewrite (IH Hr). lia.
Qed.

Lemma uniqueDias_covers reqs r : r ∈ reqs -> cr_dia r ∈ uniqueDias reqs.
Proof.
  intros Hr. unfold uniqueDias, sortAsc.
  rewrite (sortStable_perm (fun a b => a <=? b)).
  apply elem_of_remove_dups, list_elem_of_fmap. by exists r.
Qed.

Lemma groupsOf_conserves random allRequests catalog settings inventory dias : forall n,
  concat (map cuts (flat_map snd
    (groupsOf random allRequests catalog settings inventory dias n)))
  ≡ₚ flat_map (fun d => map len (filter (fun r => cr_dia r = d) allRequests)) dias.
Proof.
  induction dias as [|d dias IH]; intros n; [done|].
  cbn [groupsOf flat_map snd]. rewrite map_app, concat_app, IH.
  apply Permutation_app_tail.
  apply optimizeDiaGroup_conserves, getStockOptions_nonempty.
Qed.

Lemma pattern_sum_Z (f : Bin -> Z) (g : Pattern -> Z) bs :
  (forall b, g (patternOfBin b) = f b) ->
  (forall p, g (bumpCount p) = g p) ->
  (forall b1 b2, patternKey b1 = patternKey b2 -> f b1 = f b2) ->
  sumZ (map (fun kv => Z.of_nat (pt_count kv.2) * g kv.2) (patternMapOf bs))
  = sumZ (map f bs).
Proof.
  intros Hfresh Hbump Hkey. unfold patternMapOf.
  assert (H : forall m,
    (forall k p, (k, p) ∈ m -> exists b0, k = patternKey b0 /\ g p = f b0) ->
    sumZ (map (fun kv => Z.of_nat (pt_count kv.2) * g kv.2)
      (fold_left (fun m b => mapUpsert (patternKey b) (patternOfBin b) bumpCount m) bs m))
    = sumZ (map (fun kv => Z.of_nat (pt_count kv.2) * g kv.2) m) + sumZ (map f bs)).
  { induction bs as [|b bs IH]; intros m Hm; cbn [fold_left map].
    - change (sumZ []) with 0. lia.
    - rewrite IH.
      + pose proof (mapUpsert_sum_Z
          (fun (_ : string) (p : Pattern) => Z.of_nat (pt_count p) * g p)
          (patternKey b) (patternOfBin b) bumpCount (f b) m) as Hsum.
        cbn beta in Hsum. rewrite Hsum.
        * rewrite sumZ_cons. lia.
        * simpl. rewrite Hfresh. lia.
        * intros v Hv. destruct (Hm _ _ Hv) as (b0 & Hk & Hgv).
          rewrite Hbump, Hgv, (Hkey b b0 Hk). simpl. lia.
      + intros k p [Hin|(-> & [->|(v & Hv & ->)])]%mapUpsert_elem.
        * by apply Hm.
        * exists b. by rewrite Hfresh.
        * destruct (Hm _ _ Hv) as (b0 & Hk & Hgv). exists b0.
          by rewrite Hbump. }
  rewrite H; [change (sumZ (map _ [])) with 0; lia|].
  by intros ? ? ?%elem_of_nil.
Qed.

Lemma planItemsOf_stock d settings bs :
  sumZ (map (fun it => Z.of_nat (count it) * cp_stockLength it) (planItemsOf d settings bs))
  = sumZ (map stockLength bs).
Proof.
  unfold planItemsOf. rewrite map_map. cbn [count cp_stockLength planItemOf].
  apply (pattern_sum_Z stockLength pt_stock); [done | done |].
  intros b1 b2 E. by apply patternKey_inj in E as [_ ?].
Qed.

Lemma sumZ_concat (bs : list Bin) :
  sumZ (map (fun b => sumZ (cuts b)) bs) = sumZ (concat (map cuts bs)).
Proof.
  induction bs as [|b bs IH]; [done|]. cbn [map concat].
  by rewrite sumZ_cons, sumZ_app, IH.
Qed.

Lemma planItemsOf_cuts d settings bs :
  sumZ (map (fun it => Z.of_nat (count it) * sumZ (cp_cuts it)) (planItemsOf d settings bs))
  = sumZ (concat (map cuts bs)).
Proof.
  unfold planItemsOf. rewrite map_map, <- sumZ_concat. cbn [count cp_cuts planItemOf].
  apply (pattern_sum_Z (fun b => sumZ (cuts b)) (fun p => sumZ (pt_cuts p))).
  - intros b. simpl. apply sumZ_perm, sortStable_perm.
  - done.
  - intros b1 b2 E%patternKey_cuts. unfold sortDesc in E.
    rewrite <- (sumZ_perm _ _ (sortStable_perm (fun a b => b <=? a) (cuts b1))), E.
    apply sumZ_perm, sortStable_perm.
Qed.

Lemma groups_sum (h : CuttingPlanItem -> Z) (f : list Bin -> Z) settings
    (gs : list (Z * list Bin)) :
  (forall d bs, sumZ (map h (planItemsOf d settings bs)) = f bs) ->
  sumZ (map h (flat_map (fun g => planItemsOf g.1 settings g.2) gs))
  = sumZ (map (fun g => f g.2) gs).
Proof.
  intros Hf. induction gs as [|[d bs] gs IH]; [done|]. cbn [flat_map map fst snd].
  by rewrite map_app, sumZ_app, sumZ_cons, IH, Hf.
Qed.

Lemma sumZ_groups (f : list Z) (F : list Bin -> list Z) (gs : list (Z * list Bin)) :
  sumZ (map (fun g => sumZ (F g.2)) gs) = sumZ (flat_map (fun g => F g.2) gs).
Proof.
  induction gs as [|g gs IH]; [done|]. cbn [flat_map map].
  by rewrite sumZ_cons, sumZ_app, IH.
Qed.

Lemma flat_map_snd_map {B} (F : list Bin -> list B) (gs : list (Z * list Bin)) :
  (forall l k, F (l ++ k) = F l ++ F k) -> F [] = [] ->
  flat_map (fun g => F g.2) gs = F (flat_map snd gs).
Proof.
  intros Happ Hnil. induction gs as [|g gs IH]; simpl; [done|]. by rewrite Happ, IH.
Qed.

Lemma optimizeCutting_totals random splicePlan directPieces runs catalog settings
    inventory n :
  let c := optimizeCutting random splicePlan directPieces runs catalog settings
             inventory n in
  let reqs := flattenRequests splicePlan directPieces runs in
  let gs := groupsOf random reqs catalog settings inventory (uniqueDias reqs) n in
  cuttingPlan (cr_totals c) = flat_map (fun g => planItemsOf g.1 settings g.2) gs /\
  procurement (cr_totals c) = flat_map (fun g => procurementOf g.1 g.2) gs /\
  globalTotalInputLength (cr_totals c) = sumZ (map stockLength (flat_map snd gs)) /\
  globalTotalPartsLength (cr_totals c) = sumZ (map len reqs).
Proof.
  cbn zeta. unfold optimizeCutting. cbn [cr_totals].
  set (reqs := flattenRequests splicePlan directPieces runs).
  destruct (fold_diaStep_groups random reqs catalog settings inventory (uniqueDias reqs)
    {| cuttingPlan := []; procurement := [];
       globalTotalInputLength := 0; globalTotalPartsLength := 0;
       globalTotalWeight := 0; rngCalls := n |}) as (Hplan & Hproc & Hin & Hparts).
  cbn [cuttingPlan procurement globalTotalInputLength globalTotalPartsLength rngCalls]
    in *.
  split_and!; [done | done | lia |].
  rewrite Hparts, (sumZ_perm _ _ (groupsOf_conserves random reqs catalog settings
    inventory (uniqueDias reqs) n)).
  rewrite (sum_by_dia len); [lia | apply uniqueDias_NoDup | apply uniqueDias_covers].
Qed.

(** X13: the totals of a solve.  The summed length of the parts equals the
    summed length of all requests, and so does the sum over the rows of the
    cutting plan of count times the cuts of the row; the summed input length
    equals the sum over the rows of count times stock length; and the total
    waste is the input length minus the requested length. *)
Theorem solve_totals random splicePlan directPieces runs catalog settings inventory n :
  let c := optimizeCutting random splicePlan directPieces runs catalog settings
             inventory n in
  let reqs := flattenRequests splicePlan directPieces runs in
  globalTotalPartsLength (cr_totals c) = sumZ (map len reqs) /\
  sumZ (map (fun it => Z.of_nat (count it) * sumZ (cp_cuts it)) (cuttingPlan (cr_totals c)))
  = sumZ (map len reqs) /\
  sumZ (map (fun it => Z.of_nat (count it) * cp_stockLength it)
          (cuttingPlan (cr_totals c)))
  = globalTotalInputLength (cr_totals c) /\
  totalWaste c = globalTotalInputLength (cr_totals c) - sumZ (map len reqs).
Proof.
  cbn zeta.
  destruct (optimizeCutting_totals random splicePlan directPieces runs catalog settings
    inventory n) as (Hplan & _ & Hin & Hparts).
  set (reqs := flattenRequests splicePlan directPieces runs) in *.
  set (gs := groupsOf random reqs catalog settings inventory (uniqueDias reqs) n) in *.
  split_and!.
  - done.
  - rewrite Hplan.
    rewrite (groups_sum _ (fun bs => sumZ (concat (map cuts bs))) settings gs)
      by (intros; apply planItemsOf_cuts).
    rewrite (sumZ_groups [] (fun bs => concat (map cuts bs))).
    rewrite (flat_map_snd_map (fun bs => concat (map cuts bs)))
      by (done || intros; by rewrite map_app, concat_app).
    subst gs. rewrite (sumZ_perm _ _ (groupsOf_conserves random reqs catalog settings
      inventory (uniqueDias reqs) n)).
    rewrite (sum_by_dia len); [done | apply uniqueDias_NoDup | apply uniqueDias_covers].
  - rewrite Hplan, Hin.
    rewrite (groups_sum _ (fun bs => sumZ (map stockLength bs)) settings gs)
      by (intros; apply planItemsOf_stock).
    rewrite (sumZ_groups [] (map stockLength)).
    by rewrite (flat_map_snd_map (map stockLength)) by (done || apply map_app).
  - rewrite <- Hparts. done.
Qed.

Lemma sortAsc_sorted l : StronglySorted Z.le (sortAsc l).
Proof.
  unfold sortAsc.
  eapply StronglySorted_weaken; [|apply (sortStable_sorted (fun a b : Z => a <=? b))].
  - intros a b Hab. by apply Z.leb_le.
  - intros x y Hxy. apply Z.leb_le. apply Z.leb_gt in Hxy. lia.
  - intros x y z Hxy Hyz. apply Z.leb_le. apply Z.leb_le in Hxy, Hyz. lia.
Qed.

Lemma uniqueDias_sorted reqs : StronglySorted Z.lt (uniqueDias reqs).
Proof.
  pose proof (uniqueDias_NoDup reqs) as Hnd.
  assert (Hle : StronglySorted Z.le (uniqueDias reqs)) by apply sortAsc_sorted.
  induction Hle as [|d dias _ IH Hd]; [constructor|].
  apply NoDup_cons in Hnd as [Hnin Hnd]. constructor; [by apply IH|].
  apply Forall_forall. intros x Hx. rewrite Forall_forall in Hd.
  specialize (Hd x Hx). assert (x <> d) by (by intros ->). lia.
Qed.

Lemma uniqueDias_elem reqs d : d ∈ uniqueDias reqs <-> exists r, r ∈ reqs /\ cr_dia r = d.
Proof.
  unfold uniqueDias, sortAsc. rewrite (sortStable_perm (fun a b => a <=? b)).
  rewrite elem_of_remove_dups, list_elem_of_fmap. split.
  - intros (r & -> & Hr). by exists r.
  - intros (r & Hr & <-). by exists r.
Qed.

(** X14: the rows of the cutting plan.  The plan lists the diameters that
    occur among the requests in strictly ascending order, each with the rows
    of its group of bins.  The bins of a diameter cut exactly the requests
    of that diameter.  Within a diameter no two rows share source, stock
    length and cuts; every bin belongs to a row; the count of a row is the
    number of bins with its source, stock length and cuts (sorted in
    descending order), which is at least one; and each of these bins has the
    remainder, cut off at 0, that the row shows as waste or as offcut. *)
Theorem plan_rows_count_bins random splicePlan directPieces runs catalog settings
    inventory n :
  let reqs := flattenRequests splicePlan directPieces runs in
  let gs := groupsOf random reqs catalog settings inventory (uniqueDias reqs) n in
  cuttingPlan (cr_totals (optimizeCutting random splicePlan directPieces runs catalog
                            settings inventory n))
  = flat_map (fun g => planItemsOf g.1 settings g.2) gs /\
  StronglySorted Z.lt (map fst gs) /\
  (forall d, d ∈ map fst gs <-> exists r, r ∈ reqs /\ cr_dia r = d) /\
  forall d bs, (d, bs) ∈ gs ->
    concat (map cuts bs) ≡ₚ map len (filter (fun r => cr_dia r = d) reqs) /\
    NoDup (map rowKey (planItemsOf d settings bs)) /\
    (forall b, b ∈ bs -> exists it, it ∈ planItemsOf d settings bs /\ inRow it b) /\
    forall it, it ∈ planItemsOf d settings bs ->
      cp_dia it = d /\
      count it = length (filter (inRow it) bs) /\
      (1 <= count it)%nat /\
      forall b, b ∈ bs -> inRow it b ->
        Z.max 0 (remaining b) = waste it + offcut it /\ (waste it = 0 \/ offcut it = 0).
Proof.
  cbn zeta.
  destruct (optimizeCutting_totals random splicePlan directPieces runs catalog settings
    inventory n) as (Hplan & _).
  set (reqs := flattenRequests splicePlan directPieces runs) in *.
  split_and!.
  - done.
  - rewrite groupsOf_keys. apply uniqueDias_sorted.
  - intros d. rewrite groupsOf_keys. apply uniqueDias_elem.
  - intros d bs [Hd [n' ->]]%groupsOf_elem.
    destruct (planItemsOf_rows d settings
      (groupBins random reqs catalog settings inventory d n')) as (Hnd & Hcov & Hrows).
    split_and!; [|done|done|].
    + apply optimizeDiaGroup_conserves, getStockOptions_nonempty.
    + intros it Hit. destruct (Hrows it Hit) as (H1 & H2 & H3 & H4).
      split_and!; [done..|]. intros b Hb Hrow.
      apply (H4 (kerfMm settings) b); [|done..].
      eapply Forall_impl; [apply optimizeDiaGroup_ok|]. by intros b' [? _].
Qed.

(** ** Procurement *)

Lemma stockGroups_step seen m b :
  StockGroups seen m ->
  StockGroups (seen ++ [b])
    (if isInventory b then m else mapUpsert (stockLength b) 1%nat S m).
Proof.
  intros (Hnd & Hcount & Hkeys).
  destruct (isInventory b) eqn:Hinv.
  - split_and!; [done | |].
    + intros l0. rewrite Hcount, filter_app, length_app, filter_cons, filter_nil.
      rewrite decide_False; [simpl; lia|]. intros [? _]. congruence.
    + intros l. rewrite Hkeys. split.
      * intros (b' & Hb' & Hn). exists b'. split; [apply elem_of_app; by left | done].
      * intros (b' & [Hb'| ->%list_elem_of_singleton]%elem_of_app & Hn).
        -- by exists b'.
        -- destruct Hn. congruence.
  - split_and!.
    + by apply mapUpsert_NoDup.
    + intros l0.
      pose (g := fun (k : Z) (v : nat) => if decide (k = l0) then v else 0%nat).
      pose proof (mapUpsert_sum_kv g (stockLength b) 1%nat S
                    (if decide (stockLength b = l0) then 1%nat else 0%nat) m) as Hsum.
      unfold g in Hsum. cbn beta in Hsum. rewrite Hsum.
      * rewrite Hcount, filter_app, length_app. f_equal.
        rewrite filter_cons, filter_nil. unfold newBarOf.
        destruct (decide (stockLength b = l0)).
        -- by rewrite decide_True.
        -- rewrite decide_False; [done | by intros [_ ?]].
      * done.
      * intros v _. case_decide; lia.
    + intros l. rewrite mapUpsert_key_elem, Hkeys. split.
      * intros [->|(b' & Hb' & Hn)].
        -- exists b. split; [apply elem_of_app; right; apply list_elem_of_here | done].
        -- exists b'. split; [apply elem_of_app; by left | done].
      * intros (b' & [Hb'| ->%list_elem_of_singleton]%elem_of_app & Hn).
        -- right. by exists b'.
        -- left. by destruct Hn.
Qed.

Lemma stockLenGroupsOf_groups bs : StockGroups bs (stockLenGroupsOf bs).
Proof.
  unfold stockLenGroupsOf.
  assert (H : forall m seen, StockGroups seen m ->
    StockGroups (seen ++ bs)
      (fold_left (fun m b =>
         if isInventory b then m else mapUpsert (stockLength b) 1%nat S m) bs m)).
  { induction bs as [|b bs IH]; intros m seen Hm; simpl.
    - by rewrite app_nil_r.
    - replace (seen ++ b :: bs) with ((seen ++ [b]) ++ bs) by by rewrite <- app_assoc.
      by apply IH, stockGroups_step. }
  apply (H [] []). split_and!; [constructor | done |].
  intros l. split; [by intros ?%elem_of_nil | by intros (? & ?%elem_of_nil & _)].
Qed.

Lemma stockLenGroupsOf_total bs :
  sum_list_with (fun kv : Z * nat => kv.2) (stockLenGroupsOf bs)
  = length (filter (fun b => isInventory b = false) bs).
Proof.
  unfold stockLenGroupsOf.
  assert (H : forall m,
    sum_list_with (fun kv : Z * nat => kv.2) (fold_left (fun m b =>
      if isInventory b then m else mapUpsert (stockLength b) 1%nat S m) bs m)
    = (sum_list_with (fun kv : Z * nat => kv.2) m + length (filter (fun b => isInventory b = false) bs))%nat).
  { induction bs as [|b bs IH]; intros m; simpl; [lia|].
    rewrite IH, filter_cons. destruct (isInventory b) eqn:Hinv.
    - rewrite decide_False by done. lia.
    - rewrite decide_True by done.
      pose proof (mapUpsert_sum (fun v : nat => v) (stockLength b) 1%nat S 1%nat m) as Hs.
      cbn beta in Hs. rewrite Hs; [simpl; lia | done | intros; lia]. }
  by rewrite H.
Qed.

Lemma totalStockBars_sum procurement :
  totalStockBars procurement = sum_list_with pr_quantity procurement.
Proof.
  unfold totalStockBars.
  assert (H : forall a, fold_left (fun a b => (a + pr_quantity b)%nat) procurement a
                        = (a + sum_list_with pr_quantity procurement)%nat).
  { induction procurement as [|p ps IH]; intros a; simpl; [lia|]. rewrite IH. lia. }
  by rewrite H.
Qed.

Lemma procurementOf_total d bs :
  sum_list_with pr_quantity (procurementOf d bs)
  = length (filter (fun b => isInventory b = false) bs).
Proof.
  rewrite <- stockLenGroupsOf_total. unfold procurementOf.
  induction (stockLenGroupsOf bs) as [|[l q] m IH]; [done|]. simpl. by rewrite IH.
Qed.

Lemma planItemsOf_newBars d settings bs :
  newBars (planItemsOf d settings bs)
  = length (filter (fun b => isInventory b = false) bs).
Proof.
  unfold newBars, planItemsOf, patternMapOf.
  assert (H : forall m,
    (forall k p, (k, p) ∈ m -> exists b0, k = patternKey b0 /\
                                pt_isInventory p = isInventory b0) ->
    sum_list_with (fun it => if bool_decide (sourceType it = NEW_STOCK)
                             then count it else 0%nat)
      (map (fun kv => planItemOf d settings kv.2)
         (fold_left (fun m b => mapUpsert (patternKey b) (patternOfBin b) bumpCount m) bs m))
    = (sum_list_with (fun it => if bool_decide (sourceType it = NEW_STOCK)
                                then count it else 0%nat)
         (map (fun kv => planItemOf d settings kv.2) m)
       + length (filter (fun b => isInventory b = false) bs))%nat).
  { assert (Hview : forall m : list (string * Pattern),
      sum_list_with (fun it => if bool_decide (sourceType it = NEW_STOCK)
                               then count it else 0%nat)
        (map (fun kv => planItemOf d settings kv.2) m)
      = sum_list_with (fun kv => if pt_isInventory kv.2 then 0%nat else pt_count kv.2) m).
    { induction m as [|[k p] m IHm]; [done|]. simpl. rewrite IHm.
      by destruct (pt_isInventory p). }
    induction bs as [|b bs IH]; intros m Hm; simpl; [lia|].
    rewrite IH.
    - rewrite !Hview.
      rewrite (mapUpsert_sum (fun p => if pt_isInventory p then 0%nat else pt_count p)
                 _ _ _ (if isInventory b then 0%nat else 1%nat)).
      + rewrite filter_cons. destruct (isInventory b).
        * rewrite decide_False by done. lia.
        * rewrite decide_True by done. simpl. lia.
      + done.
      + intros v Hv. destruct (Hm _ _ Hv) as (b0 & Hk & Hi).
        apply patternKey_inj in Hk as [Hk _]. simpl. rewrite Hi, Hk.
        destruct (isInventory b0); lia.
    - intros k p [Hin|(-> & [->|(v & Hv & ->)])]%mapUpsert_elem.
      + by apply Hm.
      + by exists b.
      + destruct (Hm _ _ Hv) as (b0 & Hk & Hi). by exists b0. }
  rewrite H; [done|]. by intros ? ? ?%elem_of_nil.
Qed.

Lemma procurementOf_rows d bs :
  let items := procurementOf d bs in
  NoDup (map pr_stockLength items) /\
  (forall b, b ∈ bs -> isInventory b = false ->
     exists p, p ∈ items /\ pr_stockLength p = stockLength b) /\
  forall p, p ∈ items ->
    pr_dia p = d /\
    pr_quantity p = length (filter (newBarOf (pr_stockLength p)) bs) /\
    (1 <= pr_quantity p)%nat /\
    totalLength p = Z.of_nat (pr_quantity p) * pr_stockLength p.
Proof.
  cbn zeta. unfold procurementOf.
  destruct (stockLenGroupsOf_groups bs) as (Hnd & Hcount & Hkeys).
  assert (Hitem : forall p,
    p ∈ map (fun '(l, qty) =>
               {| pr_dia := d; pr_stockLength := l; pr_quantity := qty;
                  totalLength := Z.of_nat qty * l |}) (stockLenGroupsOf bs)
    <-> exists l q, (l, q) ∈ stockLenGroupsOf bs /\
          p = {| pr_dia := d; pr_stockLength := l; pr_quantity := q;
                 totalLength := Z.of_nat q * l |}).
  { intros p. rewrite list_elem_of_fmap. split.
    - intros ([l q] & -> & Hin). by exists l, q.
    - intros (l & q & Hin & ->). by exists (l, q). }
  split_and!.
  - replace (map pr_stockLength _) with (map fst (stockLenGroupsOf bs)); [done|].
    rewrite map_map. apply map_ext. by intros [l q].
  - intros b Hb Hnew.
    assert (Hl : stockLength b ∈ map fst (stockLenGroupsOf bs)).
    { apply Hkeys. by exists b. }
    apply list_elem_of_fmap in Hl as ([l q] & Hl & Hin). simpl in Hl. subst l.
    eexists. split; [apply Hitem; by exists (stockLength b), q | done].
  - intros p (l & q & Hin & ->)%Hitem. simpl.
    assert (Hq : q = length (filter (newBarOf l) bs)).
    { rewrite <- Hcount. symmetry.
      apply (NoDup_keys_sum (fun v : nat => v) _ l q Hnd Hin). }
    split_and!; [done | done | | done].
    rewrite Hq.
    assert (Hl : l ∈ map fst (stockLenGroupsOf bs)).
    { apply list_elem_of_fmap. by exists (l, q). }
    apply Hkeys in Hl as (b & Hb & Hn).
    assert (Hin0 : b ∈ filter (newBarOf l) bs) by by apply list_elem_of_filter.
    destruct (filter _ bs); [by apply elem_of_nil in Hin0 | simpl; lia].
Qed.

Lemma newBars_app xs ys : newBars (xs ++ ys) = (newBars xs + newBars ys)%nat.
Proof. apply sum_list_with_app. Qed.

(** X15: procurement.  The procurement of a solve lists, for each diameter,
    one row for each stock length of which a new bar is cut: its quantity is
    the number of new-stock bins of that length (at least one), its total
    length is quantity times stock length, and inventory bins are not
    listed.  "Total Stock Bars" of the reports, the sum of the quantities, is
    the number of new-stock bars of the cutting plan. *)
Theorem procurement_counts_new_bars random splicePlan directPieces runs catalog settings
    inventory n :
  let reqs := flattenRequests splicePlan directPieces runs in
  let gs := groupsOf random reqs catalog settings inventory (uniqueDias reqs) n in
  let t := cr_totals (optimizeCutting random splicePlan directPieces runs catalog
                        settings inventory n) in
  procurement t = flat_map (fun g => procurementOf g.1 g.2) gs /\
  totalStockBars (procurement t) = newBars (cuttingPlan t) /\
  forall d bs, (d, bs) ∈ gs ->
    NoDup (map pr_stockLength (procurementOf d bs)) /\
    (forall b, b ∈ bs -> isInventory b = false ->
       exists p, p ∈ procurementOf d bs /\ pr_stockLength p = stockLength b) /\
    forall p, p ∈ procurementOf d bs ->
      pr_dia p = d /\
      pr_quantity p = length (filter (newBarOf (pr_stockLength p)) bs) /\
      (1 <= pr_quantity p)%nat /\
      totalLength p = Z.of_nat (pr_quantity p) * pr_stockLength p.
Proof.
  cbn zeta.
  destruct (optimizeCutting_totals random splicePlan directPieces runs catalog settings
    inventory n) as (Hplan & Hproc & _).
  set (reqs := flattenRequests splicePlan directPieces runs) in *.
  split_and!.
  - done.
  - rewrite Hplan, Hproc, totalStockBars_sum. clear Hplan Hproc.
    induction (groupsOf random reqs catalog settings inventory (uniqueDias reqs) n)
      as [|[d bs] gs IH]; [done|].
    cbn [flat_map fst snd].
    by rewrite sum_list_with_app, newBars_app, IH, procurementOf_total,
      planItemsOf_newBars.
  - intros d bs _. apply procurementOf_rows.
Qed.

(** ** The splice zones of the application *)

Lemma Qltb_true a b : Qltb a b = true -> (a < b)%Q.
Proof.
  unfold Qltb. intros H. apply negb_true_iff in H.
  apply Qnot_le_lt. intros Hle. apply Qle_bool_iff in Hle. congruence.
Qed.

Lemma Qle_bool_false a b : Qle_bool a b = false -> (b < a)%Q.
Proof.
  intros H. apply Qnot_le_lt. intros Hle. apply Qle_bool_iff in Hle. congruence.
Qed.

Lemma segmentZones_ok type lc h cur seg :
  0 < seg -> 0 <= h ->
  Forall (ZoneIn (inject_Z cur) (inject_Z cur + inject_Z seg))
    (segmentZones type lc h cur seg) /\
  StronglySorted zoneBefore (segmentZones type lc h cur seg).
Proof.
  intros Hseg Hh.
  assert (Hs : (0 < inject_Z seg)%Q).
  { change 0%Q with (inject_Z 0). by rewrite <- Zlt_Qlt. }
  assert (Hq : (0 <= inject_Z h)%Q).
  { change 0%Q with (inject_Z 0). by rewrite <- Zle_Qle. }
  unfold segmentZones. cbn zeta.
  destruct (bool_decide (type = COLUMN) && bool_decide (lc = COLUMN_VERTICAL)); cbn [negb andb app].
  { split; [|by repeat constructor]. apply Forall_singleton.
    unfold ZoneIn. simpl. split_and!; lra. }
  destruct (bool_decide (lc = BEAM_TOP)); cbn [negb andb app].
  { split; [|by repeat constructor]. apply Forall_singleton.
    unfold ZoneIn, Qdiv. simpl. change (/ 3)%Q with (1 # 3)%Q. split_and!; lra. }
  destruct (bool_decide (lc = BEAM_BOTTOM)) eqn:Hbb; cbn [negb andb].
  - destruct (Qltb (inject_Z cur + 2 * inject_Z h) (inject_Z cur + inject_Z seg / 3))
      eqn:H1;
      destruct (Qltb (inject_Z cur + 2 * inject_Z seg / 3)
                  (inject_Z cur + inject_Z seg - 2 * inject_Z h)) eqn:H2;
      cbn [app negb andb];
      try apply Qltb_true in H1; try apply Qltb_true in H2;
      unfold Qdiv in *; change (/ 3)%Q with (1 # 3)%Q in *.
    + split.
      * apply Forall_cons_2; [|apply Forall_singleton]; unfold ZoneIn; simpl;
          split_and!; lra.
      * constructor; [by repeat constructor|]. apply Forall_singleton.
        unfold zoneBefore. simpl. lra.
    + split; [|by repeat constructor]. apply Forall_singleton.
      unfold ZoneIn. simpl. split_and!; lra.
    + split; [|by repeat constructor]. apply Forall_singleton.
      unfold ZoneIn. simpl. split_and!; lra.
    + split; constructor.
  - cbn [app]. split; [|by repeat constructor]. apply Forall_singleton.
    unfold ZoneIn, Math_max, Math_min, Qdiv. simpl. change (/ 2)%Q with (1 # 2)%Q.
    destruct (Qle_bool (inject_Z cur) _) eqn:E1;
      destruct (Qle_bool (inject_Z cur + inject_Z seg) _) eqn:E2;
      try apply Qle_bool_iff in E1; try apply Qle_bool_iff in E2;
      try apply Qle_bool_false in E1; try apply Qle_bool_false in E2;
      split_and!; lra.
Qed.

Lemma segmentZones_count type lc h cur seg :
  (lc <> BEAM_BOTTOM -> length (segmentZones type lc h cur seg) = 1%nat) /\
  (lc = BEAM_BOTTOM -> seg <= 6 * h -> segmentZones type lc h cur seg = []).
Proof.
  unfold segmentZones. cbn zeta. split.
  - intros Hne. rewrite (bool_decide_eq_false_2 (lc = BEAM_BOTTOM)) by done.
    destruct (bool_decide (type = COLUMN) && bool_decide (lc = COLUMN_VERTICAL)); [done|].
    by destruct (bool_decide (lc = BEAM_TOP)).
  - intros -> Hshort. rewrite andb_false_r. simpl.
    assert (Hq : (inject_Z seg <= 6 * inject_Z h)%Q).
    { change 6%Q with (inject_Z 6). rewrite <- inject_Z_mult, <- Zle_Qle. lia. }
    assert (H1 : Qltb (inject_Z cur + 2 * inject_Z h) (inject_Z cur + inject_Z seg / 3)
                 = false).
    { unfold Qltb. apply negb_false_iff, Qle_bool_iff.
      unfold Qdiv. change (/ 3)%Q with (1 # 3)%Q. lra. }
    assert (H2 : Qltb (inject_Z cur + 2 * inject_Z seg / 3)
                   (inject_Z cur + inject_Z seg - 2 * inject_Z h) = false).
    { unfold Qltb. apply negb_false_iff, Qle_bool_iff.
      unfold Qdiv. change (/ 3)%Q with (1 # 3)%Q. lra. }
    by rewrite andb_false_r, H1, H2.
Qed.

Lemma ZoneIn_weaken lo hi lo' hi' z :
  (lo' <= lo)%Q -> (hi <= hi')%Q -> ZoneIn lo hi z -> ZoneIn lo' hi' z.
Proof. unfold ZoneIn. intros ? ? (? & ? & ?). split_and!; lra. Qed.

Lemma zones_fold type lc h parts : forall zs cur,
  Forall (fun p => 0 < p) parts -> 0 <= h -> 0 <= cur ->
  Forall (ZoneIn 0 (inject_Z cur)) zs -> StronglySorted zoneBefore zs ->
  let r := fold_left (fun '(zs, currentDist) segmentLen =>
                        (zs ++ segmentZones type lc h currentDist segmentLen,
                         currentDist + segmentLen)) parts (zs, cur) in
  r.2 = cur + sumZ parts /\
  Forall (ZoneIn 0 (inject_Z r.2)) r.1 /\
  StronglySorted zoneBefore r.1 /\
  (lc <> BEAM_BOTTOM -> length r.1 = (length zs + length parts)%nat) /\
  (lc = BEAM_BOTTOM -> Forall (fun p => p <= 6 * h) parts -> r.1 = zs).
Proof.
  induction parts as [|seg parts IH]; intros zs cur Hpos Hh Hcur Hzs Hsorted; cbn zeta.
  { simpl. change (sumZ []) with 0.
    split_and!; [lia | done | done | intros; lia | done]. }
  apply Forall_cons in Hpos as [Hseg Hpos]. cbn [fold_left].
  destruct (segmentZones_ok type lc h cur seg Hseg Hh) as [Hin Hso].
  destruct (segmentZones_count type lc h cur seg) as [Hone Hnone].
  assert (Hc : (0 <= inject_Z cur)%Q).
  { change 0%Q with (inject_Z 0). by rewrite <- Zle_Qle. }
  assert (Hs : (0 < inject_Z seg)%Q).
  { change 0%Q with (inject_Z 0). by rewrite <- Zlt_Qlt. }
  destruct (IH (zs ++ segmentZones type lc h cur seg) (cur + seg)) as (H1 & H2 & H3 & H4 & H5).
  - done.
  - done.
  - lia.
  - apply Forall_app. split.
    + eapply Forall_impl; [exact Hzs|]. intros z. apply ZoneIn_weaken; [lra|].
      rewrite inject_Z_plus. lra.
    + eapply Forall_impl; [exact Hin|]. intros z. apply ZoneIn_weaken; [lra|].
      rewrite inject_Z_plus. lra.
  - apply StronglySorted_app_2; [|done..].
    intros a b Ha Hb. rewrite Forall_forall in Hzs, Hin.
    destruct (Hzs a Ha) as (_ & _ & ?), (Hin b Hb) as (? & _). unfold zoneBefore. lra.
  - split_and!.
    + rewrite H1, sumZ_cons. lia.
    + done.
    + done.
    + intros Hne. rewrite (H4 Hne), length_app, (Hone Hne). simpl. lia.
    + intros Hbb [Hshort Hrest]%Forall_cons. rewrite (H5 Hbb Hrest).
      by rewrite (Hnone Hbb Hshort), app_nil_r.
Qed.

(** X16: the splice zones that the application computes for the segments
    [parts] of a run (all greater than 0, as the parse leaves them) and a
    beam depth that is not negative; divisions are taken exactly.  The total
    length is the sum of the segments; every zone is not empty and lies
    within the run; the zones are listed in ascending order and do not
    overlap; every case but the bottom bars of a beam gets exactly one zone
    for each segment; and bottom bars get no zone at all when no segment is
    longer than six beam depths. *)
Theorem zones_within_run parts type lc projSettings :
  Forall (fun p => 0 < p) parts -> 0 <= beamDepthMm projSettings ->
  let r := calculateZones parts type lc projSettings in
  zr_totalLength r = sumZ parts /\
  Forall (ZoneIn 0 (inject_Z (zr_totalLength r))) (zones r) /\
  StronglySorted zoneBefore (zones r) /\
  (lc <> BEAM_BOTTOM -> length (zones r) = length parts) /\
  (lc = BEAM_BOTTOM -> Forall (fun p => p <= 6 * beamDepthMm projSettings) parts ->
   zones r = []).
Proof.
  intros Hpos Hh. cbn zeta. unfold calculateZones.
  destruct parts as [|p parts]; [by repeat constructor|].
  destruct (zones_fold type lc (beamDepthMm projSettings) (p :: parts) [] 0)
    as (H1 & H2 & H3 & H4 & H5); [done | done | lia | constructor | constructor |].
  cbn zeta in *.
  destruct (fold_left _ (p :: parts) ([], 0)) as [zs cur] eqn:E.
  cbn [fst snd zr_totalLength zones] in *.
  rewrite fold_left_add. rewrite H1 in H2. by split_and!.
Qed.

Lemma zones_within_run_witness :
  let r := calculateZones [6000; 4000] BEAM BEAM_BOTTOM (defaultSettings BALANCED MIXED) in
  zr_totalLength r = sumZ [6000; 4000] /\
  Forall (ZoneIn 0 (inject_Z (zr_totalLength r))) (zones r) /\
  StronglySorted zoneBefore (zones r) /\
  (BEAM_BOTTOM <> BEAM_BOTTOM -> length (zones r) = length [6000; 4000]) /\
  (BEAM_BOTTOM = BEAM_BOTTOM ->
   Forall (fun p => p <= 6 * beamDepthMm (defaultSettings BALANCED MIXED)) [6000; 4000] ->
   zones r = []).
Proof.
  apply (zones_within_run [6000; 4000] BEAM BEAM_BOTTOM (defaultSettings BALANCED MIXED)).
  - repeat (apply Forall_cons_2; [vm_compute; reflexivity|]). apply Forall_nil_2.
  - vm_compute. discriminate.
Defined.

(** ** Editing the catalog and the lap rules *)

Lemma find_key_sorted {A} (key : A -> Z) (f : A -> bool) (d : Z) l :
  (forall x, f x = true -> key x = d) ->
  find f (sortStable (fun a b => key a <=? key b) l) = find f l.
Proof.
  intros Hf. rewrite !find_filter_head. f_equal.
  apply (sortStable_filter_key key true (fun x => f x = true) d l Hf).
Qed.

Lemma find_app {A} (f : A -> bool) l k :
  find f (l ++ k) = match find f l with Some x => Some x | None => find f k end.
Proof. induction l as [|x l IH]; simpl; [done|]. by destruct (f x). Qed.

Lemma find_map_keep {A} (f : A -> bool) (g : A -> A) l :
  (forall x, f (g x) = f x) -> find f (map g l) = g <$> find f l.
Proof.
  intros Hg. induction l as [|x l IH]; simpl; [done|].
  rewrite Hg. by destruct (f x).
Qed.

Lemma find_in {A} (f : A -> bool) l x : find f l = Some x -> f x = true /\ x ∈ l.
Proof.
  induction l as [|y l IH]; simpl; [done|]. destruct (f y) eqn:E.
  - intros [= <-]. split; [done | apply list_elem_of_here].
  - intros [? ?]%IH. split; [done | by apply list_elem_of_further].
Qed.

Lemma sortDesc_elem x l : x ∈ sortDesc l <-> x ∈ l.
Proof. unfold sortDesc. by rewrite (sortStable_perm (fun a b => b <=? a)). Qed.

(** X17: adding a stock length.  After "Add Stock" the length is among the
    stock options of the diameter, and the options of every other diameter
    are what they were.  For a diameter that had no entry the options are
    then that length alone: the default of 12000 is no longer offered. *)
Theorem added_stock_is_offered stock dia length :
  length ∈ getStockOptions dia (addStock stock dia length) /\
  (forall dia', dia' <> dia ->
     getStockOptions dia' (addStock stock dia length) = getStockOptions dia' stock) /\
  (find (fun s => sc_dia s =? dia) stock = None ->
   getStockOptions dia (addStock stock dia length) = [length]).
Proof.
  assert (Hnone : find (fun s => sc_dia s =? dia) stock = None ->
    getStockOptions dia (addStock stock dia length) = [length]).
  { intros Hf. unfold addStock, getStockOptions. rewrite Hf.
    rewrite (find_key_sorted sc_dia _ dia) by (intros x Hx; by apply Z.eqb_eq in Hx).
    rewrite find_app, Hf. simpl. by rewrite Z.eqb_refl. }
  split_and!; [| |done].
  - destruct (find (fun s => sc_dia s =? dia) stock) as [existing|] eqn:Hf.
    + unfold addStock. rewrite Hf. case_bool_decide as Hin.
      * unfold getStockOptions. rewrite Hf.
        destruct (stockLengths existing) as [|l0 ls] eqn:E;
          [by apply elem_of_nil in Hin|].
        by apply sortDesc_elem.
      * unfold getStockOptions. rewrite find_map_keep.
        -- rewrite Hf. simpl. apply find_in in Hf as [Hd _]. rewrite Hd. simpl.
           assert (Hl : length ∈ sortDesc (stockLengths existing ++ [length])).
           { apply sortDesc_elem, elem_of_app. right. apply list_elem_of_here. }
           destruct (sortDesc (stockLengths existing ++ [length])) as [|l0 ls] eqn:E;
             [by apply elem_of_nil in Hl|].
           by apply sortDesc_elem.
        -- intros x. destruct (sc_dia x =? dia) eqn:E; simpl; by rewrite ?E.
    + rewrite (Hnone eq_refl). apply list_elem_of_here.
  - intros dia' Hne. unfold addStock.
    destruct (find (fun s => sc_dia s =? dia) stock) as [existing|] eqn:Hf.
    + case_bool_decide; [done|]. unfold getStockOptions.
      rewrite find_map_keep by (intros x; by destruct (sc_dia x =? dia)).
      destruct (find (fun i => sc_dia i =? dia') stock) as [item|] eqn:Hf'; [|done].
      simpl. apply find_in in Hf' as [Hd _]. apply Z.eqb_eq in Hd.
      by rewrite (proj2 (Z.eqb_neq (sc_dia item) dia)) by lia.
    + unfold getStockOptions.
      rewrite (find_key_sorted sc_dia _ dia') by (intros x Hx; by apply Z.eqb_eq in Hx).
      rewrite find_app. simpl. rewrite (proj2 (Z.eqb_neq dia dia')) by lia.
      by destruct (find (fun i => sc_dia i =? dia') stock).
Qed.

(** X18: deleting a catalog row.  After the delete button of a diameter the
    planner falls back to the default of 12000 for that diameter, the
    options of every other diameter are what they were, and a solve on a
    catalog whose only rows were of that diameter stops with the error of
    the empty catalog. *)
Theorem deleted_stock_falls_back stock dia :
  getStockOptions dia (deleteStock stock dia) = [12000] /\
  (forall dia', dia' <> dia ->
     getStockOptions dia' (deleteStock stock dia) = getStockOptions dia' stock) /\
  (Forall (fun s => sc_dia s = dia) stock ->
   forall random runs directPieces settings laps inventory n,
     runSolver random runs directPieces settings (deleteStock stock dia) laps inventory n
     = Some (Err ErrEmptyCatalog)).
Proof.
  unfold deleteStock. split_and!.
  - unfold getStockOptions.
    assert (Hf : find (fun i => sc_dia i =? dia) (filter (fun s => sc_dia s <> dia) stock)
                 = None).
    { induction stock as [|s stock IH]; [done|]. rewrite filter_cons.
      case_decide as Hd; [|done]. simpl.
      by rewrite (proj2 (Z.eqb_neq (sc_dia s) dia)) by done. }
    by rewrite Hf.
  - intros dia' Hne. unfold getStockOptions.
    assert (Hf : find (fun i => sc_dia i =? dia') (filter (fun s => sc_dia s <> dia) stock)
                 = find (fun i => sc_dia i =? dia') stock).
    { induction stock as [|s stock IH]; [done|]. rewrite filter_cons.
      case_decide as Hd; simpl.
      - by rewrite IH.
      - rewrite Hd. by rewrite (proj2 (Z.eqb_neq dia dia')) by lia. }
    by rewrite Hf.
  - intros Hall random runs directPieces settings laps inventory n.
    assert (Hnil : filter (fun s => sc_dia s <> dia) stock = []).
    { induction Hall as [|s stock Hs _ IH]; [done|].
      by rewrite filter_cons, decide_False by (by intros ?). }
    by rewrite Hnil.
Qed.

(** X19: saving a lap rule.  After "Save Rule" the lap length of the
    diameter and lap case of the rule is the length of the rule, whatever
    rules there were for them before, and the lap length of every other
    diameter or lap case is what it was. *)
Theorem saved_rule_is_used laps newRule :
  getLapLength (lr_dia newRule) (lr_lapCase newRule) (saveRule laps newRule)
  = lr_lengthMm newRule /\
  forall dia lc, ~ (dia = lr_dia newRule /\ lc = lr_lapCase newRule) ->
    getLapLength dia lc (saveRule laps newRule) = getLapLength dia lc laps.
Proof.
  unfold saveRule, getLapLength. split.
  - rewrite (find_key_sorted lr_dia _ (lr_dia newRule))
      by (by intros x [?%Z.eqb_eq _]%andb_true_iff).
    rewrite find_app.
    assert (Hf : find (fun r => (lr_dia r =? lr_dia newRule)
                                && bool_decide (lr_lapCase r = lr_lapCase newRule))
                   (filter (fun l => ~ (lr_dia l = lr_dia newRule /\
                                        lr_lapCase l = lr_lapCase newRule)) laps) = None).
    { induction laps as [|l laps IH]; [done|]. rewrite filter_cons.
      case_decide as Hd; [|done]. simpl. rewrite IH.
      destruct (Z.eqb_spec (lr_dia l) (lr_dia newRule)); [|done].
      rewrite bool_decide_eq_false_2; [done|]. tauto. }
    rewrite Hf. simpl. by rewrite Z.eqb_refl, bool_decide_eq_true_2.
  - intros dia lc Hne.
    rewrite (find_key_sorted lr_dia _ dia) by (by intros x [?%Z.eqb_eq _]%andb_true_iff).
    rewrite find_app.
    assert (Hf : find (fun r => (lr_dia r =? dia) && bool_decide (lr_lapCase r = lc))
                   (filter (fun l => ~ (lr_dia l = lr_dia newRule /\
                                        lr_lapCase l = lr_lapCase newRule)) laps)
                 = find (fun r => (lr_dia r =? dia) && bool_decide (lr_lapCase r = lc)) laps).
    { induction laps as [|l laps IH]; [done|]. rewrite filter_cons.
      case_decide as Hd; simpl.
      - by rewrite IH.
      - destruct Hd as [Hd1 Hd2]. rewrite IH.
        destruct (Z.eqb_spec (lr_dia l) dia); [|done].
        rewrite bool_decide_eq_false_2; [done|]. intros Hlc. apply Hne. split; congruence. }
    rewrite Hf. destruct (find _ laps); [done|]. simpl.
    destruct (Z.eqb_spec (lr_dia newRule) dia); [|done].
    rewrite bool_decide_eq_false_2; [done|]. intros Hlc. apply Hne. split; congruence.
Qed.

(** ** From the runs to the requests *)

Lemma map_replicateReq {B} (f : CutReq -> B) q mk c :
  (forall i, f (mk i) = c) ->
  map f (replicateReq q mk) = replicate (Z.to_nat q) c.
Proof.
  intros Hf. unfold replicateReq. rewrite map_map.
  generalize 0%nat. induction (Z.to_nat q) as [|k IH]; intros a; simpl; [done|].
  by rewrite Hf, IH.
Qed.

Lemma map_concat_imap {A B C} (F : B -> C) (g : nat -> A -> list B) (h : A -> list C) l :
  (forall idx x, map F (g idx x) = h x) ->
  map F (concat (imap g l)) = flat_map h l.
Proof.
  revert g. induction l as [|x l IH]; intros g Hg; [done|].
  cbn [imap concat flat_map]. rewrite map_app, Hg. f_equal.
  apply IH. intros idx y. apply Hg.
Qed.

Lemma find_NoDup_id (runs : list BarRun) run :
  NoDup (map run_id runs) -> run ∈ runs ->
  find (fun r => bool_decide (run_id r = run_id run)) runs = Some run.
Proof.
  induction runs as [|r runs IH]; intros Hnd Hin; [by apply elem_of_nil in Hin|].
  simpl in Hnd. apply NoDup_cons in Hnd as [Hnin Hnd]. simpl.
  apply elem_of_cons in Hin as [->|Hin].
  - by rewrite bool_decide_eq_true_2.
  - rewrite bool_decide_eq_false_2; [by apply IH|].
    intros E. apply Hnin. rewrite E. apply list_elem_of_fmap. by exists run.
Qed.

(** X20: from the runs to the requests.  A plan has one item for each run,
    in the order of the runs, with the id and the bar mark of its run and
    group 0.  When the ids of the runs are pairwise distinct, the item of a
    run asks for each of its pieces [qtyParallel] times (not at all if that
    is 0 or less), with the diameter and the bar mark of the run; and a
    direct piece is asked for [qty] times with its own diameter and bar
    mark. *)
Theorem requests_follow_the_plan runs rules catalog settings sp directPieces :
  NoDup (map run_id runs) ->
  generateSplicePlan runs rules catalog settings = Some (Ok sp) ->
  length (plan sp) = length runs /\
  (forall i run item, runs !! i = Some run -> plan sp !! i = Some item ->
     runId item = run_id run /\ sp_barMark item = barMark run /\ groupId item = 0 /\
     map (fun r => (cr_dia r, len r, source r)) (requestsOfPlanItem runs item)
     = flat_map (fun p => replicate (Z.to_nat (qtyParallel run))
                            (run_dia run, lengthMm p, barMark run)) (pieces item)) /\
  map (fun r => (cr_dia r, len r, source r)) (concat (imap requestsOfDirect directPieces))
  = flat_map (fun dp => replicate (Z.to_nat (dp_qty dp))
                          (dp_dia dp, dp_lengthMm dp, dp_barMark dp)) directPieces.
Proof.
  intros Hnd Hsp. split_and!.
  - unfold generateSplicePlan in Hsp.
    apply generateSplicePlanFrom_spec in Hsp as (items & Hplan & Hall).
    simpl in Hplan. rewrite Hplan. symmetry. by eapply Forall2_length.
  - intros i run item Hrun Hitem.
    destruct (generateSplicePlan_lookup _ _ _ _ _ _ _ _ Hsp Hrun Hitem)
      as (ws & st & _ & ->).
    split_and!; [done..|].
    unfold requestsOfPlanItem. cbn [runId itemOfRun].
    rewrite (find_NoDup_id runs run Hnd) by by eapply list_elem_of_lookup_2.
    cbn [pieces groupId itemOfRun].
    destruct (Z.ltb_spec 0 (qtyParallel run)) as [Hq|Hq].
    + apply map_concat_imap. intros idx p. by apply map_replicateReq.
    + replace (Z.to_nat (qtyParallel run)) with 0%nat by lia. simpl.
      clear. induction (groupPieces st) as [|p ps IHp]; [done | by simpl].
  - apply map_concat_imap. intros idx dp. unfold requestsOfDirect.
    by apply map_replicateReq.
Qed.

Lemma requests_follow_the_plan_witness :
  exists sp,
    generateSplicePlan [scenarioRun] [] (stock12 20) (defaultSettings BALANCED MIXED)
    = Some (Ok sp) /\
    length (plan sp) = length [scenarioRun] /\
    (forall i run item, [scenarioRun] !! i = Some run -> plan sp !! i = Some item ->
       runId item = run_id run /\ sp_barMark item = barMark run /\ groupId item = 0 /\
       map (fun r => (cr_dia r, len r, source r)) (requestsOfPlanItem [scenarioRun] item)
       = flat_map (fun p => replicate (Z.to_nat (qtyParallel run))
                              (run_dia run, lengthMm p, barMark run)) (pieces item)) /\
    map (fun r => (cr_dia r, len r, source r)) (concat (imap requestsOfDirect fiveDirect))
    = flat_map (fun dp => replicate (Z.to_nat (dp_qty dp))
                            (dp_dia dp, dp_lengthMm dp, dp_barMark dp)) fiveDirect.
Proof.
  eexists. split; [vm_compute; reflexivity|].
  apply (requests_follow_the_plan [scenarioRun] [] (stock12 20)
           (defaultSettings BALANCED MIXED) _ fiveDirect).
  - apply NoDup_singleton.
  - vm_compute. reflexivity.
Defined.

(** ** The waste of a solve *)

Lemma sumNeeded_sum kerf cs : sumNeeded kerf cs = sumZ cs + kerf * Z.of_nat (length cs).
Proof.
  induction cs as [|c cs IH]; [simpl; change (sumZ []) with 0; lia|].
  cbn [sumNeeded foldr length]. fold (sumNeeded kerf cs). rewrite IH, sumZ_cons. lia.
Qed.

Lemma bins_waste kerf (bs : list Bin) :
  Forall (fun b => remaining b = stockLength b - sumNeeded kerf (cuts b)) bs ->
  sumZ (map stockLength bs) - sumZ (concat (map cuts bs))
  = sumZ (map remaining bs) + kerf * Z.of_nat (length (concat (map cuts bs))).
Proof.
  induction 1 as [|b bs Hb _ IH]; [simpl; change (sumZ []) with 0; lia|].
  cbn [map concat]. rewrite !sumZ_cons, sumZ_app, length_app.
  rewrite sumNeeded_sum in Hb. lia.
Qed.

Lemma groupsOf_books random reqs catalog settings inventory dias n :
  Forall (fun b => remaining b = stockLength b - sumNeeded (kerfMm settings) (cuts b))
    (flat_map snd (groupsOf random reqs catalog settings inventory dias n)).
Proof.
  apply Forall_forall. intros b Hb.
  apply list_elem_of_In, in_flat_map in Hb as ([d bs] & Hg & Hb).
  apply list_elem_of_In in Hg, Hb.
  apply groupsOf_elem in Hg as [_ [n' ->]]. simpl in Hb.
  pose proof (optimizeDiaGroup_ok random (filter (fun r => cr_dia r = d) reqs)
    (getStockOptions d catalog) settings (filter (fun i => inv_dia i = d) inventory) n')
    as Hok.
  rewrite Forall_forall in Hok. by destruct (Hok b Hb).
Qed.

Lemma length_sumZ {A} (l : list A) : Z.of_nat (length l) = sumZ (map (fun _ => 1) l).
Proof. induction l as [|x l IH]; [done|]. cbn [map length]. rewrite sumZ_cons. lia. Qed.

Lemma groupsOf_requests random reqs catalog settings inventory n :
  length (concat (map cuts (flat_map snd
    (groupsOf random reqs catalog settings inventory (uniqueDias reqs) n))))
  = length reqs.
Proof.
  rewrite (Permutation_length (groupsOf_conserves random reqs catalog settings inventory
    (uniqueDias reqs) n)).
  apply Nat2Z.inj. rewrite !length_sumZ.
  rewrite <- (sum_by_dia (fun _ => 1) reqs (uniqueDias reqs));
    [|apply uniqueDias_NoDup | apply uniqueDias_covers].
  generalize (uniqueDias reqs). intros dias.
  induction dias as [|d dias IH]; [done|].
  cbn [flat_map]. rewrite !map_app, !sumZ_app, IH. f_equal.
  by rewrite !map_map.
Qed.

(** X21: the waste of a solve.  The total waste is the sum of the
    remainders of all bins plus one kerf for every request: the saw kerfs
    count as waste.  When the kerf is not negative and every request, with
    its kerf, is at most as long as the longest stock of its diameter, no
    bin is overfull and the total waste is not negative; if moreover no
    request has a negative length, the waste percentage lies between 0 and
    100. *)
Theorem waste_includes_kerf random splicePlan directPieces runs catalog settings
    inventory n :
  let reqs := flattenRequests splicePlan directPieces runs in
  let gs := groupsOf random reqs catalog settings inventory (uniqueDias reqs) n in
  let c := optimizeCutting random splicePlan directPieces runs catalog settings
             inventory n in
  totalWaste c
  = sumZ (map remaining (flat_map snd gs)) + kerfMm settings * Z.of_nat (length reqs) /\
  (0 <= kerfMm settings ->
   Forall (fun r => len r + kerfMm settings <= maxStockOf (cr_dia r) catalog) reqs ->
   Forall (fun b => 0 <= remaining b) (flat_map snd gs) /\ 0 <= totalWaste c /\
   (Forall (fun r => 0 <= len r) reqs ->
    exists q, wastePercent c = Some q /\ (0 <= q)%Q /\ (q <= 100)%Q)).
Proof.
  cbn zeta.
  destruct (optimizeCutting_totals random splicePlan directPieces runs catalog settings
    inventory n) as (_ & _ & Hin & Hparts).
  set (reqs := flattenRequests splicePlan directPieces runs) in *.
  set (gs := groupsOf random reqs catalog settings inventory (uniqueDias reqs) n) in *.
  assert (Hwaste : totalWaste (optimizeCutting random splicePlan directPieces runs catalog
                                 settings inventory n)
    = sumZ (map remaining (flat_map snd gs))
      + kerfMm settings * Z.of_nat (length reqs)).
  { change (totalWaste _) with
      (globalTotalInputLength (cr_totals (optimizeCutting random splicePlan directPieces
         runs catalog settings inventory n))
       - globalTotalPartsLength (cr_totals (optimizeCutting random splicePlan directPieces
         runs catalog settings inventory n))).
    rewrite Hin, Hparts.
    rewrite <- (groupsOf_requests random reqs catalog settings inventory n).
    fold gs. rewrite <- (bins_waste (kerfMm settings)) by apply groupsOf_books.
    f_equal. subst gs.
    rewrite (sumZ_perm _ _ (groupsOf_conserves random reqs catalog settings
      inventory (uniqueDias reqs) n)).
    by rewrite (sum_by_dia len);
      [| apply uniqueDias_NoDup | apply uniqueDias_covers]. }
  split; [done|]. intros Hkerf Hfit.
  assert (Hrem : Forall (fun b => 0 <= remaining b) (flat_map snd gs)).
  { apply Forall_forall. intros b Hb.
    apply list_elem_of_In, in_flat_map in Hb as ([d bs] & Hg & Hb).
    apply list_elem_of_In in Hg, Hb.
    apply groupsOf_elem in Hg as [_ [n' ->]]. simpl in Hb.
    pose proof (optimizeDiaGroup_ok random (filter (fun r => cr_dia r = d) reqs)
      (getStockOptions d catalog) settings (filter (fun i => inv_dia i = d) inventory) n')
      as Hok.
    rewrite Forall_forall in Hok.
    destruct (Hok b Hb) as [_ [Hpos|(Hnew & c & Hc & Hshort)]]; [done|].
    exfalso.
    destruct (optimizeDiaGroup_conserves random (filter (fun r => cr_dia r = d) reqs)
      (getStockOptions d catalog) settings (filter (fun i => inv_dia i = d) inventory) n'
      (getStockOptions_nonempty d catalog)) as [Hcons _].
    assert (Hcin : c ∈ map len (filter (fun r => cr_dia r = d) reqs)).
    { rewrite <- Hcons. apply list_elem_of_In, in_concat.
      exists (cuts b). split.
      - apply in_map, list_elem_of_In. exact Hb.
      - rewrite Hc. by left. }
    apply list_elem_of_fmap in Hcin as (r & -> & [Hd Hr]%list_elem_of_filter).
    rewrite Forall_forall in Hfit. specialize (Hfit r Hr). rewrite Hd in Hfit.
    specialize (Hshort (newStockOption (maxStockOf d catalog))). simpl in Hshort.
    assert (Hmax : maxStockOf d catalog ∈ getStockOptions d catalog).
    { unfold maxStockOf. pose proof (getStockOptions_nonempty d catalog).
      destruct (getStockOptions d catalog); [done | apply list_elem_of_here]. }
    specialize (Hshort ltac:(by apply list_elem_of_fmap; eexists) eq_refl). lia. }
  assert (Hnonneg : 0 <= totalWaste (optimizeCutting random splicePlan directPieces runs
                                       catalog settings inventory n)).
  { rewrite Hwaste.
    assert (0 <= sumZ (map remaining (flat_map snd gs))); [|nia].
    clear -Hrem. induction Hrem as [|b bs Hb _ IH]; [done|].
    cbn [map]. rewrite sumZ_cons. lia. }
  split_and!; [done | done |]. intros Hlen.
  assert (Hparts0 : 0 <= sumZ (map len reqs)).
  { clear -Hlen. induction Hlen as [|r rs Hr _ IH]; [done|].
    cbn [map]. rewrite sumZ_cons. lia. }
  change (wastePercent _) with
    (percentOf (totalWaste (optimizeCutting random splicePlan directPieces runs catalog
                              settings inventory n))
       (globalTotalInputLength (cr_totals (optimizeCutting random splicePlan directPieces
          runs catalog settings inventory n)))).
  assert (Hle : totalWaste (optimizeCutting random splicePlan directPieces runs catalog
                              settings inventory n)
                <= globalTotalInputLength (cr_totals (optimizeCutting random splicePlan
                     directPieces runs catalog settings inventory n))).
  { change (totalWaste _) with
      (globalTotalInputLength (cr_totals (optimizeCutting random splicePlan directPieces
         runs catalog settings inventory n))
       - globalTotalPartsLength (cr_totals (optimizeCutting random splicePlan directPieces
         runs catalog settings inventory n))).
    rewrite Hparts. lia. }
  revert Hnonneg Hle.
  generalize (totalWaste (optimizeCutting random splicePlan directPieces runs catalog
                            settings inventory n)).
  generalize (globalTotalInputLength (cr_totals (optimizeCutting random splicePlan
                directPieces runs catalog settings inventory n))).
  intros t w Hw0 Hwt. unfold percentOf, jsDiv.
  destruct (Z.ltb_spec 0 t) as [Ht|Ht]; [|exists 0%Q; split_and!; [done | lra | lra]].
  rewrite (proj2 (Z.eqb_neq t 0)) by lia. simpl.
  eexists. split; [done|].
  assert (Htq : (0 < inject_Z t)%Q).
  { change 0%Q with (inject_Z 0). by rewrite <- Zlt_Qlt. }
  assert (H0 : (0 <= inject_Z w / inject_Z t)%Q).
  { apply Qle_shift_div_l; [done|]. rewrite Qmult_0_l.
    change 0%Q with (inject_Z 0). by rewrite <- Zle_Qle. }
  assert (H1 : (inject_Z w / inject_Z t <= 1)%Q).
  { apply Qle_shift_div_r; [done|]. rewrite Qmult_1_l. by rewrite <- Zle_Qle. }
  split; lra.
Qed.

(** ** When planning succeeds, and how the runs compose *)

Lemma roundCut_ge cut step : 1000 <= roundCut cut step.
Proof. unfold roundCut. destruct (Z.ltb_spec (floorToStep cut step) 1000); lia. Qed.

Lemma spliceLoop_no_throw fuel run lap L step : forall st e,
  lap < 1000 -> spliceLoop fuel run lap L step st <> Thrown e.
Proof.
  induction fuel as [|fuel IH]; intros st e Hlap; simpl.
  - by destruct (remainingTotal st >? 0).
  - destruct (remainingTotal st >? 0); [|done].
    destruct (remainingTotal st <=? L); [by apply IH|].
    destruct (proposeCut _ _ _ _) as [cut violation].
    pose proof (roundCut_ge cut step).
    destruct (Z.leb_spec (roundCut cut step - lap) 0); [lia|]. by apply IH.
Qed.

Lemma planRun_succeeds run rules catalog settings ws :
  getLapLength (run_dia run) (lapCase run) rules < 1000 ->
  getLapLength (run_dia run) (lapCase run) rules < maxStockOf (run_dia run) catalog ->
  exists st, planRun run rules catalog settings ws = Finished st.
Proof.
  intros Hlap Hmax. unfold planRun.
  destruct (Z.leb_spec (maxStockOf (run_dia run) catalog)
              (getLapLength (run_dia run) (lapCase run) rules)); [lia|].
  destruct (spliceLoop _ _ _ _ _ _) as [st|e|] eqn:E.
  - by exists st.
  - by apply spliceLoop_no_throw in E.
  - apply spliceLoop_fuel in E; [done|]. unfold loopFuel. simpl. lia.
Qed.

(** X22: planning succeeds whenever, for every run, the lap length is less
    than 1000 mm and less than the longest stock of the diameter: no error
    is thrown, and with a catalog that is not empty the solve returns a
    result whose splice plan and warnings are those of the planner. *)
Theorem short_laps_always_plan runs rules catalog settings :
  Forall (fun run =>
            getLapLength (run_dia run) (lapCase run) rules < 1000 /\
            getLapLength (run_dia run) (lapCase run) rules
            < maxStockOf (run_dia run) catalog) runs ->
  exists sp,
    generateSplicePlan runs rules catalog settings = Some (Ok sp) /\
    (catalog <> [] ->
     forall random directPieces inventory n,
       exists res,
         runSolver random runs directPieces settings catalog rules inventory n
         = Some (Ok res) /\
         or_splicePlan res = plan sp /\ or_warnings res = sp_warnings sp).
Proof.
  intros Hall.
  assert (Hplan : forall acc, exists sp,
            generateSplicePlanFrom runs rules catalog settings acc = Some (Ok sp)).
  { induction Hall as [|run runs [Hlap Hmax] _ IH]; intros acc; simpl; [by eexists|].
    destruct (planRun_succeeds run rules catalog settings (sp_warnings acc) Hlap Hmax)
      as [st ->].
    apply IH. }
  destruct (Hplan {| plan := []; sp_warnings := [] |}) as [sp Hsp].
  exists sp. split; [done|].
  intros Hcat random directPieces inventory n. unfold runSolver.
  destruct catalog as [|c catalog]; [done|].
  unfold generateSplicePlan in Hsp. unfold generateSplicePlan. rewrite Hsp.
  by eexists.
Qed.

Lemma short_laps_always_plan_witness :
  exists sp,
    generateSplicePlan [scenarioRun] (lapRule 800) (stock12 20) (defaultSettings BALANCED MIXED)
    = Some (Ok sp) /\
    (stock12 20 <> [] ->
     forall random directPieces inventory n,
       exists res,
         runSolver random [scenarioRun] directPieces (defaultSettings BALANCED MIXED)
           (stock12 20) (lapRule 800) inventory n
         = Some (Ok res) /\
         or_splicePlan res = plan sp /\ or_warnings res = sp_warnings sp).
Proof.
  apply (short_laps_always_plan [scenarioRun] (lapRule 800) (stock12 20)
           (defaultSettings BALANCED MIXED)).
  apply Forall_singleton. split; vm_compute; reflexivity.
Defined.

Lemma spliceLoop_warnings_frame fuel run lap L step : forall st st' pre rest,
  spliceLoop fuel run lap L step st = Finished st' ->
  warnings st = pre ++ rest ->
  exists st'',
    spliceLoop fuel run lap L step
      {| groupPieces := groupPieces st; currentAbsPos := currentAbsPos st;
         remainingTotal := remainingTotal st; warnings := rest |} = Finished st'' /\
    groupPieces st'' = groupPieces st' /\
    warnings st' = pre ++ warnings st''.
Proof.
  induction fuel as [|fuel IH]; intros st st' pre rest H Hw; simpl in H |- *.
  - destruct (remainingTotal st >? 0); [done|]. injection H as <-.
    eexists. split; [done|]. by split.
  - destruct (remainingTotal st >? 0); [|injection H as <-; eexists; by split_and!].
    destruct (remainingTotal st <=? L).
    + by apply (IH _ _ pre rest) in H.
    + destruct (proposeCut _ _ _ _) as [cut violation].
      destruct (roundCut cut step - lap <=? 0); [done|].
      apply (IH _ _ pre
        (if violation
         then rest ++ [warningText (barMark run)
                         (inject_Z (currentAbsPos st) + inject_Z (roundCut cut step)
                          - inject_Z lap / 2) L]
         else rest)) in H; [done|].
      simpl. destruct violation; [by rewrite Hw, <- app_assoc | done].
Qed.

Lemma planRun_frame run rules catalog settings ws st :
  planRun run rules catalog settings ws = Finished st ->
  exists st0,
    planRun run rules catalog settings [] = Finished st0 /\
    groupPieces st0 = groupPieces st /\
    warnings st = ws ++ warnings st0.
Proof.
  unfold planRun. intros H. case_match; [done|].
  by apply (spliceLoop_warnings_frame _ _ _ _ _ _ _ ws []) in H;
    [|simpl; by rewrite app_nil_r].
Qed.

(** X23: the runs are planned one by one.  The item of a run in the plan of
    all runs is the item that the planner returns for that run alone, and
    the warnings of the plan are the warnings of the runs, each planned
    alone, one after the other in the order of the runs. *)
Theorem runs_are_planned_alone runs rules catalog settings sp :
  generateSplicePlan runs rules catalog settings = Some (Ok sp) ->
  exists parts : list (SplicePlanItem * list string),
    Forall2 (fun run part =>
               generateSplicePlan [run] rules catalog settings
               = Some (Ok {| plan := [part.1]; sp_warnings := part.2 |})) runs parts /\
    plan sp = map fst parts /\
    sp_warnings sp = concat (map snd parts).
Proof.
  unfold generateSplicePlan.
  assert (H : forall acc sp,
    generateSplicePlanFrom runs rules catalog settings acc = Some (Ok sp) ->
    exists parts : list (SplicePlanItem * list string),
      Forall2 (fun run part =>
                 generateSplicePlanFrom [run] rules catalog settings
                   {| plan := []; sp_warnings := [] |}
                 = Some (Ok {| plan := [part.1]; sp_warnings := part.2 |})) runs parts /\
      plan sp = plan acc ++ map fst parts /\
      sp_warnings sp = sp_warnings acc ++ concat (map snd parts)).
  { clear sp. induction runs as [|run runs IH]; intros acc sp Hsp; simpl in Hsp.
    - injection Hsp as <-. exists []. by rewrite !app_nil_r.
    - destruct (planRun run rules catalog settings (sp_warnings acc)) as [st| |] eqn:E;
        [|done..].
      destruct (planRun_frame _ _ _ _ _ _ E) as (st0 & E0 & Hp & Hw).
      apply IH in Hsp as (parts & Hall & Hplan & Hws). simpl in Hplan, Hws.
      exists (({| runId := run_id run; sp_barMark := barMark run; groupId := 0;
                  pieces := groupPieces st |}, warnings st0) :: parts).
      split_and!.
      + constructor; [|done]. simpl. rewrite E0. simpl. by rewrite Hp.
      + by rewrite Hplan, <- app_assoc.
      + rewrite Hws, Hw. simpl. by rewrite <- app_assoc. }
  intros Hsp. apply H in Hsp. done.
Qed.

Lemma runs_are_planned_alone_witness :
  exists sp,
    generateSplicePlan [beamRun 30000 []; scenarioRun; beamRun 25000 []] []
      (stock12 20) (defaultSettings BALANCED MIXED)
    = Some (Ok sp) /\
    (length (plan sp) = 3%nat /\ length (sp_warnings sp) = 4%nat) /\
    exists parts : list (SplicePlanItem * list string),
      Forall2 (fun run part =>
                 generateSplicePlan [run] [] (stock12 20) (defaultSettings BALANCED MIXED)
                 = Some (Ok {| plan := [part.1]; sp_warnings := part.2 |}))
        [beamRun 30000 []; scenarioRun; beamRun 25000 []] parts /\
      plan sp = map fst parts /\
      sp_warnings sp = concat (map snd parts).
Proof.
  eexists. split; [vm_compute; reflexivity|].
  split; [split; vm_compute; reflexivity|].
  apply (runs_are_planned_alone [beamRun 30000 []; scenarioRun; beamRun 25000 []] []
           (stock12 20) (defaultSettings BALANCED MIXED)).
  vm_compute. reflexivity.
Defined.

(** ** Opening a bin *)

(** X24: when a request fits no open bin but fits a supply option that is
    still available (new stock, or an inventory unit that is not used yet),
    the pass opens one new bin on an available option with the least
    leftover among those that the request fits, and marks the option used
    if it is an inventory unit; nothing is forced. *)
Theorem new_bin_tightest_fit opts kerf st req :
  Forall (fun b => remaining b < len req + kerf) (ps_bins st) ->
  Exists (fun o => skipUsed (ps_used st) o = false /\ len req + kerf <= opt_len o) opts ->
  exists o,
    o ∈ opts /\ skipUsed (ps_used st) o = false /\ len req + kerf <= opt_len o /\
    (forall o', o' ∈ opts -> skipUsed (ps_used st) o' = false ->
       len req + kerf <= opt_len o' -> opt_len o <= opt_len o') /\
    packStep opts kerf st req
    = {| ps_bins := ps_bins st ++
           [{| stockLength := opt_len o;
               remaining := opt_len o - (len req + kerf);
               cuts := [len req];
               isInventory := opt_isInventory o |}];
         ps_used := markUsed o (ps_used st) |}.
Proof.
  intros Hbins Hex. unfold packStep.
  rewrite (bestFitBin_none _ _ 0) by done.
  unfold chooseStock.
  destruct (bestFitOption opts (ps_used st) (len req + kerf) None) as [[o r]|] eqn:Hopt.
  - pose proof Hopt as [_ Hmin]%bestFitOption_le.
    apply bestFitOption_spec in Hopt as [|(Hin & Hskip & -> & Hfit)]; [done|].
    exists o. split_and!; [done | done | lia | | done].
    intros o' Hin' Hskip' Hfit'. specialize (Hmin o' Hin' Hskip'). lia.
  - apply bestFitOption_none_inv in Hopt.
    apply Exists_exists in Hex as (o & Hin & Hskip & Hfit).
    rewrite Forall_forall in Hopt. destruct (Hopt o Hin) as [Hs|Hs]; [congruence | lia].
Qed.

Lemma new_bin_tightest_fit_witness :
  exists o,
    o ∈ twoStocks /\ skipUsed ∅ o = false /\ 3000 + 5 <= opt_len o /\
    (forall o', o' ∈ twoStocks -> skipUsed ∅ o' = false ->
       3000 + 5 <= opt_len o' -> opt_len o <= opt_len o') /\
    packStep twoStocks 5 {| ps_bins := []; ps_used := ∅ |} (cutOf 3000)
    = {| ps_bins := [] ++
           [{| stockLength := opt_len o;
               remaining := opt_len o - (3000 + 5);
               cuts := [3000];
               isInventory := opt_isInventory o |}];
         ps_used := markUsed o ∅ |}.
Proof.
  apply (new_bin_tightest_fit twoStocks 5 {| ps_bins := []; ps_used := ∅ |} (cutOf 3000)).
  - apply Forall_nil_2.
  - apply Exists_cons_hd. split; [reflexivity | vm_compute; discriminate].
Defined.

(** ** The sequential strategy *)

Lemma packingPass_new_only reqs opts kerf :
  Forall (fun o => opt_isInventory o = false) opts ->
  Forall (fun b => isInventory b = false) (bins (packingPass reqs opts kerf)).
Proof.
  intros Hopts. unfold packingPass. cbn [bins].
  assert (H0 : Forall (fun b => isInventory b = false)
                 (ps_bins {| ps_bins := []; ps_used := ∅ |})) by constructor.
  revert H0. generalize ({| ps_bins := []; ps_used := ∅ |}).
  induction reqs as [|r reqs IH]; intros st Hst; simpl; [done|].
  apply IH. unfold packStep.
  destruct (bestFitBin _ _ _ _) as [[j rem]|]; simpl.
  - apply Forall_alter; [done|]. by intros b _ Hb.
  - destruct (chooseStock _ _ _) as [o|] eqn:Hch; simpl; [|done].
    apply chooseStock_spec in Hch as [Hin _].
    apply Forall_app. split; [done|]. apply Forall_singleton. simpl.
    rewrite Forall_forall in Hopts. by apply Hopts.
Qed.

(** X25: the sequential strategy uses the inventory first.  With at least
    one stock length, the bins of a group are the inventory bins of the
    sequential consumer followed by bins on new stock only, and the new
    bins cut exactly the requests that the consumer deferred; when nothing
    is deferred no new bar is opened and no random number is read. *)
Theorem sequential_inventory_first random reqs stock settings inventory n :
  inventoryStrategy settings = SEQUENTIAL -> stock <> [] ->
  let res := consumeInventorySequential reqs inventory settings in
  let out := optimizeDiaGroup random reqs stock settings inventory n in
  exists newBins,
    out.1 = res.1 ++ newBins /\
    Forall (fun b => isInventory b = true) res.1 /\
    Forall (fun b => isInventory b = false) newBins /\
    concat (map cuts newBins) ≡ₚ map len res.2 /\
    (res.2 = [] -> newBins = [] /\ out.2 = n).
Proof.
  intros Hseq Hstock. cbn zeta. unfold optimizeDiaGroup. rewrite Hseq.
  pose proof (consumeInventorySequential_inventory reqs inventory settings) as [Hinv _].
  destruct (consumeInventorySequential reqs inventory settings) as [invBins [|r rest]];
    cbn [fst snd] in *.
  { exists []. by rewrite app_nil_r. }
  destruct stock as [|s stock]; [done|].
  destruct (performMonteCarlo_facts random (r :: rest)
              (map newStockOption (s :: stock)) settings n) as ((l & Hl & Hres) & _).
  destruct (performMonteCarlo _ _ _ _ _) as [resBins n']. cbn [fst snd] in *.
  exists resBins. subst resBins. split_and!; [done | done | | | done].
  - apply packingPass_new_only, Forall_forall.
    by intros o (s' & -> & _)%list_elem_of_fmap.
  - rewrite (packingPass_serves_all l _ (kerfMm settings) (newStockOption s));
      [by rewrite Hl | apply list_elem_of_here | done].
Qed.

Lemma sequential_inventory_first_witness :
  let settings := defaultSettings BALANCED SEQUENTIAL in
  let res := consumeInventorySequential fiveCuts oneOffcut12 settings in
  let out := optimizeDiaGroup streamKeep fiveCuts [12000; 6000] settings oneOffcut12 0 in
  exists newBins,
    out.1 = res.1 ++ newBins /\
    Forall (fun b => isInventory b = true) res.1 /\
    Forall (fun b => isInventory b = false) newBins /\
    concat (map cuts newBins) ≡ₚ map len res.2 /\
    (res.2 = [] -> newBins = [] /\ out.2 = 0%nat).
Proof.
  apply (sequential_inventory_first streamKeep fiveCuts [12000; 6000]
           (defaultSettings BALANCED SEQUENTIAL) oneOffcut12 0).
  - reflexivity.
  - discriminate.
Defined.

Lemma bestFitOffcut_lens o1 o2 used needed : forall i best,
  map oc_len o1 = map oc_len o2 ->
  bestFitOffcut i o1 used needed best = bestFitOffcut i o2 used needed best.
Proof.
  revert o2. induction o1 as [|a o1 IH]; intros [|b o2] i best E; try done.
  simpl in E. injection E as Hab E. simpl. rewrite Hab.
  case_bool_decide; by apply IH.
Qed.

Lemma seqStep_lens o1 o2 kerf st req :
  map oc_len o1 = map oc_len o2 -> seqStep o1 kerf st req = seqStep o2 kerf st req.
Proof.
  intros E. unfold seqStep.
  destruct (bestFitBin _ _ _ _) as [[j rem]|]; [done|].
  rewrite (bestFitOffcut_lens o1 o2 _ _ _ _ E).
  destruct (bestFitOffcut _ o2 _ _ _) as [[j rem]|]; [|done].
  assert (Hj : oc_len <$> o1 !! j = oc_len <$> o2 !! j).
  { pose proof (f_equal (fun l => l !! j) E) as Hj. cbn beta in Hj.
    by rewrite !list_lookup_fmap in Hj. }
  by rewrite Hj.
Qed.

Lemma sorted_lens (l : list Offcut) :
  StronglySorted Z.le (map oc_len (sortStable (fun a b => oc_len a <=? oc_len b) l)).
Proof.
  apply (StronglySorted_fmap oc_len (fun a b => (oc_len a <=? oc_len b) = true)).
  - intros x y Hxy. by apply Z.leb_le.
  - apply sortStable_sorted.
    + intros x y Hxy. apply Z.leb_le. apply Z.leb_gt in Hxy. lia.
    + intros x y z Hxy Hyz. apply Z.leb_le. apply Z.leb_le in Hxy, Hyz. lia.
Qed.

(** X26: the sequential consumer looks at the lengths of the inventory
    units only.  Two inventories with the same unit lengths, whatever the
    order and the ids of their lines, give the same inventory bins and the
    same deferred requests, and so the same bins of the group under the
    sequential strategy. *)
Theorem inventory_order_is_irrelevant reqs inventory inventory' settings :
  map oc_len (flattenInventory inventory) ≡ₚ map oc_len (flattenInventory inventory') ->
  consumeInventorySequential reqs inventory settings
  = consumeInventorySequential reqs inventory' settings /\
  (inventoryStrategy settings = SEQUENTIAL ->
   forall random stock n,
     optimizeDiaGroup random reqs stock settings inventory n
     = optimizeDiaGroup random reqs stock settings inventory' n).
Proof.
  intros Hperm.
  assert (Hsame : consumeInventorySequential reqs inventory settings
                  = consumeInventorySequential reqs inventory' settings).
  { unfold consumeInventorySequential.
    assert (E : map oc_len (sortStable (fun a b => oc_len a <=? oc_len b)
                              (flattenInventory inventory))
              = map oc_len (sortStable (fun a b => oc_len a <=? oc_len b)
                              (flattenInventory inventory'))).
    { apply (StronglySorted_unique Z.le); [apply sorted_lens..|].
      by rewrite !(sortStable_perm (fun a b => oc_len a <=? oc_len b)). }
    cbn zeta.
    assert (Hfold : forall l st,
      fold_left (seqStep (sortStable (fun a b => oc_len a <=? oc_len b)
                            (flattenInventory inventory)) (kerfMm settings)) l st
      = fold_left (seqStep (sortStable (fun a b => oc_len a <=? oc_len b)
                              (flattenInventory inventory')) (kerfMm settings)) l st).
    { induction l as [|r l IH]; intros st; simpl; [done|].
      by rewrite IH, (seqStep_lens _ _ _ _ _ E). }
    by rewrite Hfold. }
  split; [done|]. intros Hseq random stock n.
  unfold optimizeDiaGroup. by rewrite Hseq, Hsame.
Qed.

Lemma inventory_order_is_irrelevant_witness :
  consumeInventorySequential fiveCuts
    [{| inv_id := "A"; inv_dia := 16; inv_lengthMm := 12000; quantity := 1 |};
     {| inv_id := "B"; inv_dia := 16; inv_lengthMm := 6000; quantity := 1 |}]
    (defaultSettings BALANCED SEQUENTIAL)
  = consumeInventorySequential fiveCuts
      [{| inv_id := "C"; inv_dia := 16; inv_lengthMm := 6000; quantity := 1 |};
       {| inv_id := "D"; inv_dia := 16; inv_lengthMm := 12000; quantity := 1 |}]
      (defaultSettings BALANCED SEQUENTIAL) /\
  (inventoryStrategy (defaultSettings BALANCED SEQUENTIAL) = SEQUENTIAL ->
   forall random stock n,
     optimizeDiaGroup random fiveCuts stock (defaultSettings BALANCED SEQUENTIAL)
       [{| inv_id := "A"; inv_dia := 16; inv_lengthMm := 12000; quantity := 1 |};
        {| inv_id := "B"; inv_dia := 16; inv_lengthMm := 6000; quantity := 1 |}] n
     = optimizeDiaGroup random fiveCuts stock (defaultSettings BALANCED SEQUENTIAL)
         [{| inv_id := "C"; inv_dia := 16; inv_lengthMm := 6000; quantity := 1 |};
          {| inv_id := "D"; inv_dia := 16; inv_lengthMm := 12000; quantity := 1 |}] n).
Proof.
  apply (inventory_order_is_irrelevant fiveCuts
    [{| inv_id := "A"; inv_dia := 16; inv_lengthMm := 12000; quantity := 1 |};
     {| inv_id := "B"; inv_dia := 16; inv_lengthMm := 6000; quantity := 1 |}]
    [{| inv_id := "C"; inv_dia := 16; inv_lengthMm := 6000; quantity := 1 |};
     {| inv_id := "D"; inv_dia := 16; inv_lengthMm := 12000; quantity := 1 |}]
    (defaultSettings BALANCED SEQUENTIAL)).
  simpl. apply Permutation_swap.
Defined.

(** ** What a solve reports *)

Lemma Math_round_Z z : Math_round (inject_Z z) = z.
Proof.
  unfold Math_round.
  assert (H : (inject_Z z + (1 # 2) == (2 * z + 1) # 2)%Q).
  { unfold Qeq, Qplus, inject_Z. simpl. lia. }
  rewrite H. unfold Qfloor. simpl.
  symmetry. apply (Z.div_unique (2 * z + 1) 2 z 1); lia.
Qed.

(** X27: the waste that a solve reports.  In the result of a solve the
    total waste of the summary is, summed over the rows of the cutting
    plan, count times (stock length minus the cuts of the row): the rounding
    of the summary does not change it, and the remainders that the rows
    show cut off at 0 play no part in it. *)
Theorem reported_waste_is_exact random runs directPieces settings stock laps inventory n
    res :
  runSolver random runs directPieces settings stock laps inventory n = Some (Ok res) ->
  sm_totalWaste (summary res)
  = sumZ (map (fun it => Z.of_nat (count it) * (cp_stockLength it - sumZ (cp_cuts it)))
            (or_cuttingPlan res)).
Proof.
  unfold runSolver. destruct stock as [|s stock]; [done|].
  destruct (generateSplicePlan runs laps (s :: stock) settings) as [[sp|e]|]; [|done..].
  intros [= <-]. cbn [summary sm_totalWaste or_cuttingPlan].
  rewrite Math_round_Z.
  destruct (optimizeCutting_totals random (plan sp) directPieces runs (s :: stock)
              settings inventory n) as (Hplan & _ & Hin & Hparts).
  unfold optimizeCutting in Hplan, Hin, Hparts. cbn [cr_totals] in Hplan, Hin, Hparts.
  set (reqs := flattenRequests (plan sp) directPieces runs) in *.
  set (gs := groupsOf random reqs (s :: stock) settings inventory (uniqueDias reqs) n) in *.
  rewrite Hin, Hparts, Hplan.
  rewrite (groups_sum _ (fun bs => sumZ (map stockLength bs) - sumZ (concat (map cuts bs)))
             settings gs).
  - assert (Hsplit : forall gs' : list (Z * list Bin),
      sumZ (map (fun g => sumZ (map stockLength g.2) - sumZ (concat (map cuts g.2))) gs')
      = sumZ (map stockLength (flat_map snd gs'))
        - sumZ (concat (map cuts (flat_map snd gs')))).
    { induction gs' as [|g gs' IH]; [done|].
      cbn [map flat_map]. rewrite sumZ_cons, IH, !map_app, concat_app, !sumZ_app. lia. }
    rewrite Hsplit. f_equal. subst gs.
    rewrite (sumZ_perm _ _ (groupsOf_conserves random reqs (s :: stock) settings
      inventory (uniqueDias reqs) n)).
    by rewrite (sum_by_dia len); [| apply uniqueDias_NoDup | apply uniqueDias_covers].
  - intros d bs. rewrite <- planItemsOf_stock with (d := d) (settings := settings).
    rewrite <- planItemsOf_cuts with (d := d) (settings := settings).
    generalize (planItemsOf d settings bs). intros items.
    induction items as [|it items IH]; [done|].
    cbn [map]. rewrite !sumZ_cons, IH. lia.
Qed.

Lemma reported_waste_is_exact_witness :
  exists res,
    runSolver streamKeep [] fiveDirect (defaultSettings BALANCED MIXED) twoStockCatalog
      [] [] 0 = Some (Ok res) /\
    sm_totalWaste (summary res)
    = sumZ (map (fun it => Z.of_nat (count it) * (cp_stockLength it - sumZ (cp_cuts it)))
              (or_cuttingPlan res)).
Proof.
  eexists. split; [vm_compute; reflexivity|].
  apply (reported_waste_is_exact streamKeep [] fiveDirect (defaultSettings BALANCED MIXED)
           twoStockCatalog [] [] 0).
  vm_compute. reflexivity.
Defined.

(** ** The steel that a solve asks for *)

Lemma sumZ_replicate n x : sumZ (replicate n x) = Z.of_nat n * x.
Proof.
  induction n as [|n IH]; [done|].
  cbn [replicate]. rewrite sumZ_cons, IH. lia.
Qed.

Lemma sumZ_flat_replicate {A} (q : nat) (f : A -> Z) l :
  sumZ (flat_map (fun x => replicate q (f x)) l) = Z.of_nat q * sumZ (map f l).
Proof.
  induction l as [|x l IH]; [simpl; change (sumZ []) with 0; lia|].
  cbn [flat_map map]. rewrite sumZ_app, sumZ_cons, sumZ_replicate, IH. lia.
Qed.

Lemma sumLen_sumZ ps : sumLen ps = sumZ (map lengthMm ps).
Proof.
  induction ps as [|p ps IH]; [done|].
  cbn [map]. rewrite sumZ_cons, <- IH. done.
Qed.

Lemma requestsOfPlanItem_lens runs run ps :
  NoDup (map run_id runs) -> run ∈ runs ->
  sumZ (map len (requestsOfPlanItem runs (itemOfRun run ps)))
  = Z.of_nat (Z.to_nat (qtyParallel run)) * sumLen ps.
Proof.
  intros Hnd Hin. unfold requestsOfPlanItem. cbn [runId itemOfRun].
  rewrite (find_NoDup_id runs run Hnd Hin). cbn [pieces groupId itemOfRun].
  destruct (Z.ltb_spec 0 (qtyParallel run)) as [Hq|Hq].
  - rewrite (map_concat_imap len _
      (fun p => replicate (Z.to_nat (qtyParallel run)) (lengthMm p)))
      by (intros idx p; by apply map_replicateReq).
    by rewrite sumZ_flat_replicate, sumLen_sumZ.
  - replace (Z.to_nat (qtyParallel run)) with 0%nat by lia. simpl.
    change (sumZ []) with 0. lia.
Qed.

(** X28: the steel that a solve asks for.  When the ids of the runs are
    pairwise distinct and every run has a positive length, a lap that is not
    negative and a longest stock of at least 1000 (rounding step at least
    1), the summed length of all requests is, over the runs, [qtyParallel]
    times (the length of the run plus one lap for each splice, the number of
    pieces minus one), plus, over the direct pieces, [qty] times their
    length; a [qtyParallel] or [qty] below 0 counts as 0. *)
Theorem requested_length_of_runs runs rules catalog settings sp directPieces :
  NoDup (map run_id runs) ->
  generateSplicePlan runs rules catalog settings = Some (Ok sp) ->
  1 <= roundingStepMm settings ->
  Forall (fun run =>
            0 <= getLapLength (run_dia run) (lapCase run) rules /\
            1000 <= maxStockOf (run_dia run) catalog /\
            0 < totalLengthMm run) runs ->
  sumZ (map len (flattenRequests (plan sp) directPieces runs))
  = sumZ (zip_with (fun run item =>
            Z.of_nat (Z.to_nat (qtyParallel run)) *
            (totalLengthMm run
             + (Z.of_nat (length (pieces item)) - 1)
               * getLapLength (run_dia run) (lapCase run) rules)) runs (plan sp))
    + sumZ (map (fun dp => Z.of_nat (Z.to_nat (dp_qty dp)) * dp_lengthMm dp) directPieces).
Proof.
  intros Hnd Hsp Hstep Hruns. unfold flattenRequests.
  rewrite map_app, sumZ_app. f_equal.
  - unfold generateSplicePlan in Hsp.
    apply generateSplicePlanFrom_spec in Hsp as (items & Hplan & Hall).
    simpl in Hplan. rewrite Hplan. clear Hplan.
    assert (Hgen : forall rs its,
      Forall2 (fun run item => exists ws st,
                 planRun run rules catalog settings ws = Finished st /\
                 item = itemOfRun run (groupPieces st)) rs its ->
      (forall r, r ∈ rs -> r ∈ runs) ->
      Forall (fun run =>
                0 <= getLapLength (run_dia run) (lapCase run) rules /\
                1000 <= maxStockOf (run_dia run) catalog /\
                0 < totalLengthMm run) rs ->
      sumZ (map len (flat_map (requestsOfPlanItem runs) its))
      = sumZ (zip_with (fun run item =>
                Z.of_nat (Z.to_nat (qtyParallel run)) *
                (totalLengthMm run
                 + (Z.of_nat (length (pieces item)) - 1)
                   * getLapLength (run_dia run) (lapCase run) rules)) rs its)).
    { clear Hall Hruns items.
      induction 1 as [|run item rs its (ws & st & Hst & ->) _ IH]; intros Hsub Hrs;
        [done|].
      apply Forall_cons in Hrs as [(Hlap & Hmax & Hpos) Hrs].
      cbn [flat_map zip_with]. rewrite map_app, sumZ_app, sumZ_cons.
      rewrite IH by (done || intros r Hr; by apply Hsub, list_elem_of_further).
      rewrite requestsOfPlanItem_lens by (done || apply Hsub, list_elem_of_here).
      destruct (planRun_conservation run rules catalog settings ws st
                  Hstep Hlap Hmax Hpos Hst) as [_ Hcons].
      cbn [pieces itemOfRun]. f_equal. f_equal. lia. }
    by apply Hgen.
  - rewrite (map_concat_imap len _
      (fun dp => replicate (Z.to_nat (dp_qty dp)) (dp_lengthMm dp)))
      by (intros idx dp; by apply map_replicateReq).
    induction directPieces as [|dp dps IH]; [done|].
    cbn [flat_map map]. rewrite sumZ_app, sumZ_cons, sumZ_replicate, IH. done.
Qed.

Lemma requested_length_of_runs_witness :
  exists sp,
    generateSplicePlan [scenarioRun] [] (stock12 20) (defaultSettings BALANCED MIXED)
    = Some (Ok sp) /\
    sumZ (map len (flattenRequests (plan sp) fiveDirect [scenarioRun]))
    = sumZ (zip_with (fun run item =>
              Z.of_nat (Z.to_nat (qtyParallel run)) *
              (totalLengthMm run
               + (Z.of_nat (length (pieces item)) - 1)
                 * getLapLength (run_dia run) (lapCase run) [])) [scenarioRun] (plan sp))
      + sumZ (map (fun dp => Z.of_nat (Z.to_nat (dp_qty dp)) * dp_lengthMm dp) fiveDirect).
Proof.
  eexists. split; [vm_compute; reflexivity|].
  apply (requested_length_of_runs [scenarioRun] [] (stock12 20)
           (defaultSettings BALANCED MIXED) _ fiveDirect).
  - apply NoDup_singleton.
  - vm_compute. reflexivity.
  - vm_compute. discriminate.
  - apply Forall_singleton. split_and!; vm_compute; (discriminate || reflexivity).
Defined.
